(** * charon: the IKE_SA_INIT_REQUESTED state of the IKEv2 initiator

    A shallow embedding of [Source/charon/sa/states/ike_sa_init_requested.c]
    and the properties of [process_message].

    The state object, the session ([protected_ike_sa_t]), the global send
    queue and the allocator are the fields of one [world]; the C function is a
    computation in a small monad that threads the world and supports the early
    [return status;] of C.  The calls made on collaborators are recorded, in
    the order they are made, in the [trace] of the world.  What the
    collaborators of other files return (parser, configuration,
    Diffie-Hellman, key derivation, generator, session bookkeeping) is given
    by the fields of a record [collaborators]; the logger does not influence
    behaviour and is left out. *)

From Stdlib Require Import List Arith NArith Bool Lia Permutation.
From Stdlib.Strings Require Import Byte.
From Stdlib.Strings Require String.
Import String.StringSyntax.
Import ListNotations.

Set Implicit Arguments.

(* ------------------------------------------------------------------------- *)
(** ** Enumerations declared in headers *)

(** Modelled from the spec: [types.h] is not among the sources.  [status_t]
    has [SUCCESS], [FAILED] and further failure codes, which the parser and the
    other collaborators may return. *)
Inductive status_t : Type :=
| SUCCESS
| FAILED
| STATUS_OTHER (code : nat).

Definition is_SUCCESS (status : status_t) : bool :=
  match status with SUCCESS => true | _ => false end.

(** Modelled from the spec: [message.h] is not among the sources.  The two
    exchange types this state names, and all the others. *)
Inductive exchange_type_t : Type :=
| IKE_SA_INIT
| IKE_AUTH
| EXCHANGE_TYPE_OTHER (code : nat).

Definition is_IKE_SA_INIT (e : exchange_type_t) : bool :=
  match e with IKE_SA_INIT => true | _ => false end.

(** Modelled from the spec: [payload.h] is not among the sources.  The payload
    types this file names or builds, and all the others. *)
Inductive payload_type_t : Type :=
| SECURITY_ASSOCIATION
| KEY_EXCHANGE
| ID_INITIATOR
| ID_RESPONDER
| AUTHENTICATION
| NONCE
| PAYLOAD_TYPE_OTHER (code : nat).

(** Modelled from the spec: [ike_sa.h] is not among the sources.  The protocol
    states of section 3 of the specification. *)
Inductive ike_sa_state_t : Type :=
| IKE_SA_INIT_REQUESTED
| IKE_SA_INIT_RESPONDED
| IKE_AUTH_REQUESTED
| IKE_AUTH_RESPONDED
| IKE_SA_ESTABLISHED.

(** Modelled from the spec: [id_payload.h] and [auth_payload.h] are not among
    the sources.  The identity type and the authentication method this file
    names, and all the others. *)
Inductive id_type_t : Type :=
| ID_RFC822_ADDR
| ID_TYPE_OTHER (code : nat).

Inductive auth_method_t : Type :=
| RSA_DIGITAL_SIGNATURE
| AUTH_METHOD_OTHER (code : nat).

(* ------------------------------------------------------------------------- *)
(** ** Data *)

(** Modelled from the spec: [types.h] is not among the sources.  [chunk_t] is
    a pointer and a length; here the bytes the pointer points to stand for the
    length, [len] is their number.  Address [0] is [NULL].  No buffer is
    written after it was allocated, so the bytes travel with the pointer. *)
Record chunk_t : Type := mk_chunk {
  ptr : N;
  data : list byte
}.

Definition len (c : chunk_t) : N := N.of_nat (List.length (data c)).

Definition NULL : N := 0%N.

Definition CHUNK_INITIALIZER : chunk_t := {| ptr := NULL; data := [] |}.

(** Modelled from the spec: [ike_proposal_t] is declared in a header that is
    not among the sources; one combination of transform identifiers. *)
Record ike_proposal_t : Type := mk_proposal {
  encryption_algorithm : nat;
  integrity_algorithm : nat;
  pseudo_random_function : nat;
  diffie_hellman_group : nat
}.

(** Modelled from the spec: the payload headers are not among the sources.
    The payloads of a message, as the union the C code casts [payload_t] to:
    an SA payload carries what [get_ike_proposals] yields on it, a KE payload
    its key exchange data, a NONCE payload its nonce; the ID and AUTH
    payloads are the ones [build_id_payload] and [build_auth_payload] fill. *)
Inductive payload_t : Type :=
| Sa_payload (get_ike_proposals_status : status_t)
             (ike_proposals : list ike_proposal_t)
| Ke_payload (key_exchange_data : list byte)
| Nonce_payload (nonce : list byte)
| Id_payload (is_initiator : bool) (id_type : id_type_t) (id_data : list byte)
| Auth_payload (auth_method : auth_method_t) (auth_data : list byte)
| Unknown_payload (code : nat).

Definition get_type (payload : payload_t) : payload_type_t :=
  match payload with
  | Sa_payload _ _ => SECURITY_ASSOCIATION
  | Ke_payload _ => KEY_EXCHANGE
  | Nonce_payload _ => NONCE
  | Id_payload true _ _ => ID_INITIATOR
  | Id_payload false _ _ => ID_RESPONDER
  | Auth_payload _ _ => AUTHENTICATION
  | Unknown_payload code => PAYLOAD_TYPE_OTHER code
  end.

(** Modelled from the spec: [message.h] is not among the sources.
    [message_t], as far as this state looks at it: exchange type, direction,
    responder SPI and the payloads the iterator hands out. *)
Record message_t : Type := mk_message {
  get_exchange_type : exchange_type_t;
  get_request : bool;
  get_responder_spi : N;
  get_payloads : list payload_t
}.

(** Modelled from the spec: [packet.h] is not among the sources.  A packet
    is the bytes [generate] produced. *)
Definition packet_t : Type := list byte.

(** Modelled from the spec: [diffie_hellman.h] is not among the sources.
    [diffie_hellman_t]: the group, and the peer's public value once
    [set_other_public_value] was called. *)
Record diffie_hellman_t : Type := mk_dh {
  dh_group : nat;
  other_public_value : option (list byte)
}.

(** Modelled from the spec: [ike_sa_id.h] is not among the sources.  The
    identifier pair of section 3 of the specification. *)
Record ike_sa_id_t : Type := mk_ike_sa_id {
  initiator_spi : N;
  responder_spi : N
}.

(** Modelled from the spec: the crypter and signer headers are not among the
    sources.  What [get_crypter_initiator] and [get_signer_initiator] hand
    out: the proposal the transforms were created from and the keys they were
    given. *)
Definition crypter_t : Type := (option ike_proposal_t * option (list byte))%type.
Definition signer_t : Type := (option ike_proposal_t * option (list byte))%type.

(** Modelled from the spec: [ike_sa.c] is not among the sources.  The session
    of section 3: identifier pair, configuration, transforms, keys, the last
    requested message and the current state. *)
Record protected_ike_sa_t : Type := mk_ike_sa {
  ike_sa_id : ike_sa_id_t;
  init_config : list ike_proposal_t;
  transforms : option ike_proposal_t;
  key_material : option (list byte);
  last_requested_message : option message_t;
  current_state : ike_sa_state_t
}.

(** [private_ike_sa_init_requested_t], without the method table and the
    logger; [ike_sa] is a field of the world. *)
Record private_ike_sa_init_requested_t : Type := mk_this {
  diffie_hellman : diffie_hellman_t;
  shared_secret : chunk_t;
  sent_nonce : chunk_t;
  received_nonce : chunk_t;
  dh_group_priority : N
}.

(** The calls [process_message] makes on its collaborators, with what they
    return, in program order.  The trace is a ghost field: no function reads
    it. *)
Inductive event : Type :=
| Parse_body (status : status_t)
| Set_responder_spi (spi : N)
| Iterator_current (payload : payload_t)
| Iterator_destroy
| Get_ike_proposals (status : status_t) (ike_proposals : N) (proposal_count : nat)
| Select_proposal (status : status_t)
| Create_transforms_from_proposal (status : status_t)
| Set_other_public_value (value : list byte)
| Get_nonce (nonce : chunk_t)
| Get_shared_secret (status : status_t)
| Compute_secrets (shared_secret sent_nonce received_nonce : chunk_t)
| Generate (request : message_t) (status : status_t)
| Message_destroy (message : message_t)
| Send_queue_add (packet : packet_t)
| State_create (state : ike_sa_state_t)
| State_destroy (state : ike_sa_state_t)
| Set_last_requested_message (request : message_t) (status : status_t)
| Set_new_state (state : ike_sa_state_t)
| Diffie_hellman_destroy
| Allocator_free (p : N)
| Allocator_free_this.

Record world : Type := mk_world {
  this : private_ike_sa_init_requested_t;
  ike_sa : protected_ike_sa_t;
  send_queue : list packet_t;
  allocator_next : N;
  trace : list event
}.

(** The collaborators of other files, as functions of what they are given:
    what they return is a parameter of every property. *)
Record collaborators : Type := mk_collaborators {
  parse_body : message_t -> status_t;
  select_proposal :
    list ike_proposal_t -> list ike_proposal_t -> nat -> status_t * ike_proposal_t;
  create_transforms_from_proposal :
    protected_ike_sa_t -> ike_proposal_t -> status_t;
  get_shared_secret : diffie_hellman_t -> status_t * list byte;
  derive_keys : list byte -> list byte -> list byte -> list byte;
  generate : message_t -> crypter_t -> signer_t -> status_t * packet_t;
  set_last_requested_message : protected_ike_sa_t -> message_t -> status_t
}.

(* ------------------------------------------------------------------------- *)
(** ** The monad: a world, and C's early return *)

Inductive outcome (A : Type) : Type :=
| Return (status : status_t)
| Next (a : A).

Arguments Return {A} status.
Arguments Next {A} a.

Definition M (A : Type) : Type := world -> outcome A * world.

Definition next {A : Type} (a : A) : M A := fun w => (Next a, w).

Definition return_ {A : Type} (status : status_t) : M A :=
  fun w => (Return status, w).

Definition bind {A B : Type} (c : M A) (k : A -> M B) : M B :=
  fun w =>
    match c w with
    | (Return status, w') => (Return status, w')
    | (Next a, w') => k a w'
    end.

Declare Scope c_scope.
Delimit Scope c_scope with c.
Notation "x <- c ;; k" := (bind c (fun x => k))
  (at level 100, c at next level, right associativity) : c_scope.
Notation "c ;; k" := (bind c (fun _ => k))
  (at level 100, right associativity) : c_scope.
Local Open Scope c_scope.

Definition get_this : M private_ike_sa_init_requested_t :=
  fun w => (Next (this w), w).

Definition get_ike_sa : M protected_ike_sa_t :=
  fun w => (Next (ike_sa w), w).

Definition set_this (t : private_ike_sa_init_requested_t) : M unit :=
  fun w => (Next tt, {| this := t; ike_sa := ike_sa w; send_queue := send_queue w;
                        allocator_next := allocator_next w; trace := trace w |}).

Definition set_ike_sa (s : protected_ike_sa_t) : M unit :=
  fun w => (Next tt, {| this := this w; ike_sa := s; send_queue := send_queue w;
                        allocator_next := allocator_next w; trace := trace w |}).

(** The world after one more call. *)
Definition record_call (e : event) (w : world) : world :=
  {| this := this w; ike_sa := ike_sa w; send_queue := send_queue w;
     allocator_next := allocator_next w; trace := trace w ++ [e] |}.

Definition emit (e : event) : M unit :=
  fun w => (Next tt, record_call e w).

(** Modelled from the spec: [allocator.c] is not among the sources.  An
    allocation yields a buffer at the next address never handed out. *)
Definition allocator_alloc : M N :=
  fun w => (Next (allocator_next w),
            {| this := this w; ike_sa := ike_sa w; send_queue := send_queue w;
               allocator_next := N.succ (allocator_next w); trace := trace w |}).

Definition allocator_free (p : N) : M unit := emit (Allocator_free p).

(** [charon->send_queue->add]. *)
Definition send_queue_add (packet : packet_t) : M unit :=
  fun w => (Next tt, {| this := this w; ike_sa := ike_sa w;
                        send_queue := send_queue w ++ [packet];
                        allocator_next := allocator_next w;
                        trace := trace w ++ [Send_queue_add packet] |}).

(** Field updates of the state object and of the session. *)
Definition with_diffie_hellman (t : private_ike_sa_init_requested_t) (d : diffie_hellman_t) :=
  {| diffie_hellman := d; shared_secret := shared_secret t; sent_nonce := sent_nonce t;
     received_nonce := received_nonce t; dh_group_priority := dh_group_priority t |}.

Definition with_shared_secret (t : private_ike_sa_init_requested_t) (c : chunk_t) :=
  {| diffie_hellman := diffie_hellman t; shared_secret := c; sent_nonce := sent_nonce t;
     received_nonce := received_nonce t; dh_group_priority := dh_group_priority t |}.

Definition with_received_nonce (t : private_ike_sa_init_requested_t) (c : chunk_t) :=
  {| diffie_hellman := diffie_hellman t; shared_secret := shared_secret t;
     sent_nonce := sent_nonce t; received_nonce := c;
     dh_group_priority := dh_group_priority t |}.

Definition with_responder_spi (s : protected_ike_sa_t) (spi : N) :=
  {| ike_sa_id := {| initiator_spi := initiator_spi (ike_sa_id s); responder_spi := spi |};
     init_config := init_config s; transforms := transforms s;
     key_material := key_material s; last_requested_message := last_requested_message s;
     current_state := current_state s |}.

Definition with_transforms (s : protected_ike_sa_t) (p : ike_proposal_t) :=
  {| ike_sa_id := ike_sa_id s; init_config := init_config s; transforms := Some p;
     key_material := key_material s; last_requested_message := last_requested_message s;
     current_state := current_state s |}.

Definition with_key_material (s : protected_ike_sa_t) (k : list byte) :=
  {| ike_sa_id := ike_sa_id s; init_config := init_config s; transforms := transforms s;
     key_material := Some k; last_requested_message := last_requested_message s;
     current_state := current_state s |}.

Definition with_last_requested_message (s : protected_ike_sa_t) (m : message_t) :=
  {| ike_sa_id := ike_sa_id s; init_config := init_config s; transforms := transforms s;
     key_material := key_material s; last_requested_message := Some m;
     current_state := current_state s |}.

Definition with_current_state (s : protected_ike_sa_t) (st : ike_sa_state_t) :=
  {| ike_sa_id := ike_sa_id s; init_config := init_config s; transforms := transforms s;
     key_material := key_material s; last_requested_message := last_requested_message s;
     current_state := st |}.

(* ------------------------------------------------------------------------- *)
(** ** The state [ike_sa_init_requested_t] *)

Section Ike_sa_init_requested.

Variable env : collaborators.

(** *** Methods of the collaborators, acting on the world *)

(** Modelled from the spec: [message.c] is not among the sources.
    [reply->parse_body(reply, NULL, NULL)]. *)
Definition message_parse_body (reply : message_t) : M status_t :=
  let status := parse_body env reply in
  emit (Parse_body status) ;;
  next status.

(** Modelled from the spec: [ike_sa_id.c] is not among the sources.
    [ike_sa_id->set_responder_spi(ike_sa_id, responder_spi)], on the
    identifier [get_id] hands out, which is the session's own. *)
Definition set_responder_spi (spi : N) : M unit :=
  s <- get_ike_sa ;;
  set_ike_sa (with_responder_spi s spi) ;;
  emit (Set_responder_spi spi).

(** Modelled from the spec: the iterator is not among the sources.
    [payloads->current(payloads, &payload)]. *)
Definition iterator_current (payload : payload_t) : M payload_t :=
  emit (Iterator_current payload) ;;
  next payload.

(** Modelled from the spec: [sa_payload.c] is not among the sources.
    [sa_payload->get_ike_proposals]: on success the proposals come in an array
    allocated for the caller, who has to free it. *)
Definition get_ike_proposals (sa_status : status_t) (sa_proposals : list ike_proposal_t)
  : M (status_t * N * list ike_proposal_t) :=
  if is_SUCCESS sa_status then
    p <- allocator_alloc ;;
    emit (Get_ike_proposals sa_status p (List.length sa_proposals)) ;;
    next (sa_status, p, sa_proposals)
  else
    emit (Get_ike_proposals sa_status NULL 0) ;;
    next (sa_status, NULL, []).

(** Modelled from the spec: [init_config.c] is not among the sources.
    [init_config->select_proposal(init_config, ike_proposals, 1, &selected)]. *)
Definition init_config_select_proposal (ike_proposals : list ike_proposal_t) (count : nat)
  : M (status_t * ike_proposal_t) :=
  s <- get_ike_sa ;;
  let r := select_proposal env (init_config s) ike_proposals count in
  emit (Select_proposal (fst r)) ;;
  next r.

(** Modelled from the spec: [ike_sa.c] is not among the sources.
    [ike_sa->create_transforms_from_proposal]: on success the session holds
    the transforms of that proposal. *)
Definition ike_sa_create_transforms_from_proposal (proposal : ike_proposal_t) : M status_t :=
  s <- get_ike_sa ;;
  let status := create_transforms_from_proposal env s proposal in
  (if is_SUCCESS status then set_ike_sa (with_transforms s proposal) else next tt) ;;
  emit (Create_transforms_from_proposal status) ;;
  next status.

(** Modelled from the spec: [diffie_hellman.c] is not among the sources.
    [diffie_hellman->set_other_public_value]. *)
Definition diffie_hellman_set_other_public_value (value : list byte) : M unit :=
  t <- get_this ;;
  set_this (with_diffie_hellman t
              {| dh_group := dh_group (diffie_hellman t);
                 other_public_value := Some value |}) ;;
  emit (Set_other_public_value value).

(** Modelled from the spec: [nonce_payload.c] is not among the sources.
    [nonce_payload->get_nonce(nonce_payload, &this->received_nonce)]: the
    nonce is copied into a buffer allocated for the caller, which is why the
    state frees it. *)
Definition nonce_payload_get_nonce (nonce : list byte) : M unit :=
  p <- allocator_alloc ;;
  let c := {| ptr := p; data := nonce |} in
  t <- get_this ;;
  set_this (with_received_nonce t c) ;;
  emit (Get_nonce c).

(** Modelled from the spec: [diffie_hellman.c] is not among the sources.
    [diffie_hellman->get_shared_secret(dh, &this->shared_secret)]: on success
    the secret is copied into a buffer allocated for the caller; otherwise the
    chunk is left as it is. *)
Definition diffie_hellman_get_shared_secret : M status_t :=
  t <- get_this ;;
  let r := get_shared_secret env (diffie_hellman t) in
  (if is_SUCCESS (fst r) then
     p <- allocator_alloc ;;
     set_this (with_shared_secret t {| ptr := p; data := snd r |})
   else next tt) ;;
  emit (Get_shared_secret (fst r)) ;;
  next (fst r).

(** Modelled from the spec: [ike_sa.c] is not among the sources.
    [ike_sa->compute_secrets(ike_sa, shared_secret, sent_nonce, received_nonce)]
    derives the key material of the session from the bytes of the three
    chunks. *)
Definition ike_sa_compute_secrets (shared sent received : chunk_t) : M unit :=
  s <- get_ike_sa ;;
  set_ike_sa (with_key_material s
                (derive_keys env (data shared) (data sent) (data received))) ;;
  emit (Compute_secrets shared sent received).

(** Modelled from the spec: [ike_sa.c] is not among the sources.
    [ike_sa->build_message(ike_sa, type, request, &message)]: an empty message
    of the session, of the given exchange type and direction. *)
Definition ike_sa_build_message (type : exchange_type_t) (request : bool) : M message_t :=
  s <- get_ike_sa ;;
  next {| get_exchange_type := type; get_request := request;
          get_responder_spi := responder_spi (ike_sa_id s);
          get_payloads := [] |}.

Definition add_payload (message : message_t) (payload : payload_t) : message_t :=
  {| get_exchange_type := get_exchange_type message;
     get_request := get_request message;
     get_responder_spi := get_responder_spi message;
     get_payloads := get_payloads message ++ [payload] |}.

Definition get_crypter_initiator (s : protected_ike_sa_t) : crypter_t :=
  (transforms s, key_material s).

Definition get_signer_initiator (s : protected_ike_sa_t) : signer_t :=
  (transforms s, key_material s).

(** Modelled from the spec: [message.c] is not among the sources.
    [request->generate(request, crypter, signer, &packet)]. *)
Definition message_generate (request : message_t) (crypter : crypter_t) (signer : signer_t)
  : M (status_t * packet_t) :=
  let r := generate env request crypter signer in
  emit (Generate request (fst r)) ;;
  next r.

(** Modelled from the spec: [ike_auth_requested.c] is not among the sources.
    [ike_auth_requested_create(this->ike_sa)]. *)
Definition ike_auth_requested_create : M ike_sa_state_t :=
  emit (State_create IKE_AUTH_REQUESTED) ;;
  next IKE_AUTH_REQUESTED.

(** Modelled from the spec: [ike_sa.c] is not among the sources.
    [ike_sa->set_last_requested_message(ike_sa, request)]: on success the
    session keeps the message. *)
Definition ike_sa_set_last_requested_message (request : message_t) : M status_t :=
  s <- get_ike_sa ;;
  let status := set_last_requested_message env s request in
  (if is_SUCCESS status then set_ike_sa (with_last_requested_message s request)
   else next tt) ;;
  emit (Set_last_requested_message request status) ;;
  next status.

(** Modelled from the spec: [ike_sa.c] is not among the sources.
    [ike_sa->set_new_state(ike_sa, next_state)]: the session's current state
    is the new one. *)
Definition ike_sa_set_new_state (next_state : ike_sa_state_t) : M unit :=
  s <- get_ike_sa ;;
  set_ike_sa (with_current_state s next_state) ;;
  emit (Set_new_state next_state).

(** *** The functions of [ike_sa_init_requested.c] *)

Definition email : list byte :=
  String.list_byte_of_string "moerdi@hsr.ch".

(** [build_id_payload]: [email.len = strlen(email.ptr)+1], the terminating
    zero byte is part of the data. *)
Definition build_id_payload : payload_t :=
  Id_payload true ID_RFC822_ADDR (email ++ [x00]).

(** [build_auth_payload]: [auth_data.len = strlen(auth_data.ptr)]. *)
Definition build_auth_payload : payload_t :=
  Auth_payload RSA_DIGITAL_SIGNATURE (String.list_byte_of_string "this is the key").

Definition build_ike_auth_request : M message_t :=
  message <- ike_sa_build_message IKE_AUTH true ;;
  let message := add_payload message build_id_payload in
  let message := add_payload message build_auth_payload in
  next message.

(** [destroy_after_state_change]. *)
Definition destroy_after_state_change : M unit :=
  emit Diffie_hellman_destroy ;;
  t <- get_this ;;
  allocator_free (ptr (sent_nonce t)) ;;
  allocator_free (ptr (received_nonce t)) ;;
  allocator_free (ptr (shared_secret t)) ;;
  emit Allocator_free_this.

(** [destroy]. *)
Definition destroy : M unit :=
  emit Diffie_hellman_destroy ;;
  t <- get_this ;;
  allocator_free (ptr (sent_nonce t)) ;;
  allocator_free (ptr (received_nonce t)) ;;
  allocator_free (ptr (shared_secret t)) ;;
  emit Allocator_free_this.

Definition get_state (t : private_ike_sa_init_requested_t) : ike_sa_state_t :=
  IKE_SA_INIT_REQUESTED.

(** [ike_sa_init_requested_create]. *)
Definition ike_sa_init_requested_create (dh_group_priority : N)
    (diffie_hellman : diffie_hellman_t) (sent_nonce : chunk_t)
  : private_ike_sa_init_requested_t :=
  {| diffie_hellman := diffie_hellman;
     shared_secret := CHUNK_INITIALIZER;
     sent_nonce := sent_nonce;
     received_nonce := CHUNK_INITIALIZER;
     dh_group_priority := dh_group_priority |}.

(** The [switch] in the loop of [process_message]: the three [case]s end in
    [break], the [default] and the failures in [return].  The constructor of
    the payload is the type [get_type] returns, so the match on the payload is
    the [switch] on its type together with the cast of the [case]. *)
Definition process_payload (payload : payload_t) : M unit :=
  match payload with
  | Sa_payload sa_status sa_proposals =>
      r <- get_ike_proposals sa_status sa_proposals ;;
      let '(status, ike_proposals_ptr, ike_proposals) := r in
      let proposal_count := List.length ike_proposals in
      if negb (is_SUCCESS status) then
        emit Iterator_destroy ;;
        return_ status
      else if negb (Nat.eqb proposal_count 1) then
        allocator_free ike_proposals_ptr ;;
        emit Iterator_destroy ;;
        return_ status
      else
        r <- init_config_select_proposal ike_proposals 1 ;;
        let '(status, selected_proposal) := r in
        allocator_free ike_proposals_ptr ;;
        if negb (is_SUCCESS status) then
          emit Iterator_destroy ;;
          return_ status
        else
          status <- ike_sa_create_transforms_from_proposal selected_proposal ;;
          if negb (is_SUCCESS status) then
            emit Iterator_destroy ;;
            return_ status
          else
            next tt
  | Ke_payload key_exchange_data =>
      diffie_hellman_set_other_public_value key_exchange_data
  | Nonce_payload nonce =>
      t <- get_this ;;
      allocator_free (ptr (received_nonce t)) ;;
      set_this (with_received_nonce t CHUNK_INITIALIZER) ;;
      nonce_payload_get_nonce nonce
  | _ =>
      emit Iterator_destroy ;;
      return_ FAILED
  end.

(** [while (payloads->has_next(payloads))]: the payloads in wire order. *)
Fixpoint iterate (payloads : list payload_t) : M unit :=
  match payloads with
  | [] => next tt
  | payload :: rest =>
      payload <- iterator_current payload ;;
      process_payload payload ;;
      iterate rest
  end.

(** What follows the loop in [process_message]. *)
Definition after_payloads (reply : message_t) : M status_t :=
  emit Iterator_destroy ;;
  t <- get_this ;;
  allocator_free (ptr (shared_secret t)) ;;
  set_this (with_shared_secret t CHUNK_INITIALIZER) ;;
  status <- diffie_hellman_get_shared_secret ;;
  t <- get_this ;;
  ike_sa_compute_secrets (shared_secret t) (sent_nonce t) (received_nonce t) ;;
  request <- build_ike_auth_request ;;
  s <- get_ike_sa ;;
  r <- message_generate request (get_crypter_initiator s) (get_signer_initiator s) ;;
  let '(status, packet) := r in
  if negb (is_SUCCESS status) then
    emit (Message_destroy reply) ;;
    return_ status
  else
    send_queue_add packet ;;
    next_state <- ike_auth_requested_create ;;
    status <- ike_sa_set_last_requested_message request ;;
    if negb (is_SUCCESS status) then
      emit (State_destroy next_state) ;;
      emit (Message_destroy request) ;;
      return_ status
    else
      ike_sa_set_new_state next_state ;;
      destroy_after_state_change ;;
      return_ SUCCESS.

Definition process_message_body (reply : message_t) : M status_t :=
  let exchange_type := get_exchange_type reply in
  if negb (is_IKE_SA_INIT exchange_type) then
    return_ FAILED
  else if get_request reply then
    return_ FAILED
  else
    status <- message_parse_body reply ;;
    if negb (is_SUCCESS status) then
      return_ status
    else
      let responder_spi := get_responder_spi reply in
      set_responder_spi responder_spi ;;
      iterate (get_payloads reply) ;;
      after_payloads reply.

(** [process_message]: the status returned and the world left behind. *)
Definition process_message (reply : message_t) (w : world) : status_t * world :=
  match process_message_body reply w with
  | (Return status, w') => (status, w')
  | (Next status, w') => (status, w')
  end.

End Ike_sa_init_requested.

(* ------------------------------------------------------------------------- *)
(** ** Vocabulary of the properties *)

(** The payload types the [switch] has a [case] for. *)
Definition is_supported (payload : payload_t) : bool :=
  match get_type payload with
  | SECURITY_ASSOCIATION | KEY_EXCHANGE | NONCE => true
  | _ => false
  end.

Definition is_ke_or_nonce (payload : payload_t) : bool :=
  match get_type payload with
  | KEY_EXCHANGE | NONCE => true
  | _ => false
  end.

Definition is_nonce (payload : payload_t) : bool :=
  match get_type payload with
  | NONCE => true
  | _ => false
  end.

(** The payloads of the expected reply: an SA payload with one proposal, a
    KE payload, a NONCE payload. *)
Definition is_expected (payload : payload_t) : bool :=
  match payload with
  | Sa_payload _ proposals => Nat.eqb (List.length proposals) 1
  | Ke_payload _ | Nonce_payload _ => true
  | _ => false
  end.

Definition without_nonce (payloads : list payload_t) : bool :=
  forallb (fun payload => negb (is_nonce payload)) payloads.

Definition without_ke_and_nonce (payloads : list payload_t) : bool :=
  forallb (fun payload => negb (is_ke_or_nonce payload)) payloads.

(** A collaborator call that returns a status did return [SUCCESS]; the
    calls without a status count as succeeded. *)
Definition succeeded (e : event) : bool :=
  match e with
  | Parse_body status
  | Get_ike_proposals status _ _
  | Select_proposal status
  | Create_transforms_from_proposal status
  | Get_shared_secret status
  | Generate _ status
  | Set_last_requested_message _ status => is_SUCCESS status
  | _ => true
  end.

(** The calls made inside the payload loop. *)
Definition loop_event (e : event) : bool :=
  match e with
  | Iterator_current _ | Iterator_destroy | Get_ike_proposals _ _ _
  | Select_proposal _ | Create_transforms_from_proposal _
  | Set_other_public_value _ | Get_nonce _ | Allocator_free _ => true
  | _ => false
  end.

(** The releases [destroy_after_state_change] and [destroy] are made of,
    apart from the three chunks. *)
Definition is_state_release (e : event) : bool :=
  match e with
  | Diffie_hellman_destroy | Allocator_free_this => true
  | _ => false
  end.

Definition is_set_new_state (e : event) : bool :=
  match e with Set_new_state _ => true | _ => false end.

Definition is_send_queue_add (e : event) : bool :=
  match e with Send_queue_add _ => true | _ => false end.

Definition is_get_nonce (e : event) : bool :=
  match e with Get_nonce _ => true | _ => false end.

Definition is_free_of (p : N) (e : event) : bool :=
  match e with Allocator_free q => N.eqb p q | _ => false end.

(** How often a call satisfying [f] was made. *)
Definition count (f : event -> bool) (evs : list event) : nat :=
  List.length (filter f evs).

(** The allocator has handed out the buffers the state object holds, and
    never hands out [NULL]. *)
Definition well_formed (w : world) : Prop :=
  (0 < allocator_next w)%N
  /\ (ptr (shared_secret (this w)) < allocator_next w)%N
  /\ (ptr (sent_nonce (this w)) < allocator_next w)%N
  /\ (ptr (received_nonce (this w)) < allocator_next w)%N.

(** The reply [reply] with other payloads. *)
Definition with_payloads (reply : message_t) (payloads : list payload_t) : message_t :=
  {| get_exchange_type := get_exchange_type reply;
     get_request := get_request reply;
     get_responder_spi := get_responder_spi reply;
     get_payloads := payloads |}.

(** What [process_message] returns, the world it leaves behind, and the calls
    it made. *)
Definition returned (env : collaborators) (reply : message_t) (w : world) : status_t :=
  fst (process_message env reply w).

Definition left_behind (env : collaborators) (reply : message_t) (w : world) : world :=
  snd (process_message env reply w).

Definition calls (env : collaborators) (reply : message_t) (w : world) : list event :=
  skipn (List.length (trace w)) (trace (left_behind env reply w)).

(** The request [build_ike_auth_request] builds for a session. *)
Definition ike_auth_request_of (s : protected_ike_sa_t) : message_t :=
  add_payload
    (add_payload
       {| get_exchange_type := IKE_AUTH; get_request := true;
          get_responder_spi := responder_spi (ike_sa_id s);
          get_payloads := [] |}
       build_id_payload)
    build_auth_payload.

(** Two worlds that differ at most in addresses, in the send queue and in
    the calls made so far. *)
Definition agree (a b : world) : Prop :=
  diffie_hellman (this a) = diffie_hellman (this b)
  /\ data (shared_secret (this a)) = data (shared_secret (this b))
  /\ data (sent_nonce (this a)) = data (sent_nonce (this b))
  /\ data (received_nonce (this a)) = data (received_nonce (this b))
  /\ ike_sa a = ike_sa b.

(** What the payload loop leaves alone: the send queue, the session apart
    from its transforms, the sent nonce and the shared secret; and the calls
    it makes are calls of the loop. *)
Record loop_frame (w w' : world) : Prop := {
  frame_send_queue : send_queue w' = send_queue w;
  frame_ike_sa_id : ike_sa_id (ike_sa w') = ike_sa_id (ike_sa w);
  frame_init_config : init_config (ike_sa w') = init_config (ike_sa w);
  frame_key_material : key_material (ike_sa w') = key_material (ike_sa w);
  frame_last_requested_message :
    last_requested_message (ike_sa w') = last_requested_message (ike_sa w);
  frame_current_state : current_state (ike_sa w') = current_state (ike_sa w);
  frame_shared_secret : shared_secret (this w') = shared_secret (this w);
  frame_sent_nonce : sent_nonce (this w') = sent_nonce (this w);
  frame_calls : exists evs, trace w' = trace w ++ evs /\ forallb loop_event evs = true
}.

(** *** The paths through the [switch], as a relation

    [payload_run env payload w o w'] lists, path by path, what
    [process_payload] returns and what it leaves behind. *)

Section Paths.

Variable env : collaborators.

Inductive payload_run : payload_t -> world -> outcome unit -> world -> Prop :=
| run_sa_without_proposals status proposals w w' :
    is_SUCCESS status = false ->
    this w' = this w -> ike_sa w' = ike_sa w -> send_queue w' = send_queue w ->
    allocator_next w' = allocator_next w ->
    trace w' = trace w ++ [Get_ike_proposals status NULL 0; Iterator_destroy] ->
    payload_run (Sa_payload status proposals) w (Return status) w'
| run_sa_proposal_count proposals w w' :
    List.length proposals <> 1 ->
    this w' = this w -> ike_sa w' = ike_sa w -> send_queue w' = send_queue w ->
    allocator_next w' = N.succ (allocator_next w) ->
    trace w' = trace w ++ [Get_ike_proposals SUCCESS (allocator_next w) (List.length proposals);
                            Allocator_free (allocator_next w); Iterator_destroy] ->
    payload_run (Sa_payload SUCCESS proposals) w (Return SUCCESS) w'
| run_sa_rejected proposals status selected w w' :
    List.length proposals = 1 ->
    select_proposal env (init_config (ike_sa w)) proposals 1 = (status, selected) ->
    is_SUCCESS status = false ->
    this w' = this w -> ike_sa w' = ike_sa w -> send_queue w' = send_queue w ->
    allocator_next w' = N.succ (allocator_next w) ->
    trace w' = trace w ++ [Get_ike_proposals SUCCESS (allocator_next w) 1; Select_proposal status;
                            Allocator_free (allocator_next w); Iterator_destroy] ->
    payload_run (Sa_payload SUCCESS proposals) w (Return status) w'
| run_sa_without_transforms proposals selected status w w' :
    List.length proposals = 1 ->
    select_proposal env (init_config (ike_sa w)) proposals 1 = (SUCCESS, selected) ->
    create_transforms_from_proposal env (ike_sa w) selected = status ->
    is_SUCCESS status = false ->
    this w' = this w -> ike_sa w' = ike_sa w -> send_queue w' = send_queue w ->
    allocator_next w' = N.succ (allocator_next w) ->
    trace w' = trace w ++ [Get_ike_proposals SUCCESS (allocator_next w) 1; Select_proposal SUCCESS;
                            Allocator_free (allocator_next w);
                            Create_transforms_from_proposal status; Iterator_destroy] ->
    payload_run (Sa_payload SUCCESS proposals) w (Return status) w'
| run_sa proposals selected w w' :
    List.length proposals = 1 ->
    select_proposal env (init_config (ike_sa w)) proposals 1 = (SUCCESS, selected) ->
    create_transforms_from_proposal env (ike_sa w) selected = SUCCESS ->
    this w' = this w -> ike_sa w' = with_transforms (ike_sa w) selected ->
    send_queue w' = send_queue w ->
    allocator_next w' = N.succ (allocator_next w) ->
    trace w' = trace w ++ [Get_ike_proposals SUCCESS (allocator_next w) 1; Select_proposal SUCCESS;
                            Allocator_free (allocator_next w);
                            Create_transforms_from_proposal SUCCESS] ->
    payload_run (Sa_payload SUCCESS proposals) w (Next tt) w'
| run_ke value w w' :
    this w' = with_diffie_hellman (this w)
                {| dh_group := dh_group (diffie_hellman (this w));
                   other_public_value := Some value |} ->
    ike_sa w' = ike_sa w -> send_queue w' = send_queue w ->
    allocator_next w' = allocator_next w ->
    trace w' = trace w ++ [Set_other_public_value value] ->
    payload_run (Ke_payload value) w (Next tt) w'
| run_nonce nonce w w' :
    this w' = with_received_nonce (this w) {| ptr := allocator_next w; data := nonce |} ->
    ike_sa w' = ike_sa w -> send_queue w' = send_queue w ->
    allocator_next w' = N.succ (allocator_next w) ->
    trace w' = trace w ++ [Allocator_free (ptr (received_nonce (this w)));
                            Get_nonce {| ptr := allocator_next w; data := nonce |}] ->
    payload_run (Nonce_payload nonce) w (Next tt) w'
| run_unsupported payload w w' :
    is_supported payload = false ->
    this w' = this w -> ike_sa w' = ike_sa w -> send_queue w' = send_queue w ->
    allocator_next w' = allocator_next w ->
    trace w' = trace w ++ [Iterator_destroy] ->
    payload_run payload w (Return FAILED) w'.

(** The paths through what follows the loop. *)
Inductive after_run (reply : message_t) : world -> status_t -> world -> Prop :=
| run_generate_failed w w' shared request status packet :
    let secret := get_shared_secret env (diffie_hellman (this w)) in
    shared = (if is_SUCCESS (fst secret)
              then {| ptr := allocator_next w; data := snd secret |}
              else CHUNK_INITIALIZER) ->
    this w' = with_shared_secret (this w) shared ->
    ike_sa w' = with_key_material (ike_sa w)
                  (derive_keys env (data shared) (data (sent_nonce (this w)))
                     (data (received_nonce (this w)))) ->
    request = ike_auth_request_of (ike_sa w) ->
    get_exchange_type request = IKE_AUTH -> get_request request = true ->
    generate env request (get_crypter_initiator (ike_sa w'))
      (get_signer_initiator (ike_sa w')) = (status, packet) ->
    is_SUCCESS status = false ->
    send_queue w' = send_queue w ->
    trace w' = trace w ++ [Iterator_destroy;
                            Allocator_free (ptr (shared_secret (this w)));
                            Get_shared_secret (fst secret);
                            Compute_secrets shared (sent_nonce (this w))
                              (received_nonce (this w));
                            Generate request status;
                            Message_destroy reply] ->
    after_run reply w status w'
| run_set_last_failed w w' shared session request packet status :
    let secret := get_shared_secret env (diffie_hellman (this w)) in
    shared = (if is_SUCCESS (fst secret)
              then {| ptr := allocator_next w; data := snd secret |}
              else CHUNK_INITIALIZER) ->
    this w' = with_shared_secret (this w) shared ->
    session = with_key_material (ike_sa w)
                (derive_keys env (data shared) (data (sent_nonce (this w)))
                   (data (received_nonce (this w)))) ->
    ike_sa w' = session ->
    request = ike_auth_request_of (ike_sa w) ->
    get_exchange_type request = IKE_AUTH -> get_request request = true ->
    generate env request (get_crypter_initiator session)
      (get_signer_initiator session) = (SUCCESS, packet) ->
    set_last_requested_message env session request = status ->
    is_SUCCESS status = false ->
    send_queue w' = send_queue w ++ [packet] ->
    trace w' = trace w ++ [Iterator_destroy;
                            Allocator_free (ptr (shared_secret (this w)));
                            Get_shared_secret (fst secret);
                            Compute_secrets shared (sent_nonce (this w))
                              (received_nonce (this w));
                            Generate request SUCCESS;
                            Send_queue_add packet;
                            State_create IKE_AUTH_REQUESTED;
                            Set_last_requested_message request status;
                            State_destroy IKE_AUTH_REQUESTED;
                            Message_destroy request] ->
    after_run reply w status w'
| run_state_changed w w' shared session request packet :
    let secret := get_shared_secret env (diffie_hellman (this w)) in
    shared = (if is_SUCCESS (fst secret)
              then {| ptr := allocator_next w; data := snd secret |}
              else CHUNK_INITIALIZER) ->
    this w' = with_shared_secret (this w) shared ->
    session = with_key_material (ike_sa w)
                (derive_keys env (data shared) (data (sent_nonce (this w)))
                   (data (received_nonce (this w)))) ->
    ike_sa w' = with_current_state (with_last_requested_message session request)
                  IKE_AUTH_REQUESTED ->
    request = ike_auth_request_of (ike_sa w) ->
    get_exchange_type request = IKE_AUTH -> get_request request = true ->
    generate env request (get_crypter_initiator session)
      (get_signer_initiator session) = (SUCCESS, packet) ->
    set_last_requested_message env session request = SUCCESS ->
    send_queue w' = send_queue w ++ [packet] ->
    trace w' = trace w ++ [Iterator_destroy;
                            Allocator_free (ptr (shared_secret (this w)));
                            Get_shared_secret (fst secret);
                            Compute_secrets shared (sent_nonce (this w))
                              (received_nonce (this w));
                            Generate request SUCCESS;
                            Send_queue_add packet;
                            State_create IKE_AUTH_REQUESTED;
                            Set_last_requested_message request SUCCESS;
                            Set_new_state IKE_AUTH_REQUESTED;
                            Diffie_hellman_destroy;
                            Allocator_free (ptr (sent_nonce (this w)));
                            Allocator_free (ptr (received_nonce (this w)));
                            Allocator_free (ptr shared);
                            Allocator_free_this] ->
    after_run reply w SUCCESS w'.

(** The paths through the loop: it runs to its end, or a payload returns. *)
Inductive loop_run : list payload_t -> world -> outcome unit -> world -> Prop :=
| run_loop_end w :
    loop_run [] w (Next tt) w
| run_loop_return payload rest w status w' :
    payload_run payload (record_call (Iterator_current payload) w) (Return status) w' ->
    loop_run (payload :: rest) w (Return status) w'
| run_loop_next payload rest w w1 o w' :
    payload_run payload (record_call (Iterator_current payload) w) (Next tt) w1 ->
    loop_run rest w1 o w' ->
    loop_run (payload :: rest) w o w'.

(** The paths through [process_message]. *)
Inductive message_run (reply : message_t) : world -> status_t -> world -> Prop :=
| run_wrong_exchange_type w :
    is_IKE_SA_INIT (get_exchange_type reply) = false ->
    message_run reply w FAILED w
| run_request w :
    get_exchange_type reply = IKE_SA_INIT ->
    get_request reply = true ->
    message_run reply w FAILED w
| run_parse_failed w :
    get_exchange_type reply = IKE_SA_INIT ->
    get_request reply = false ->
    is_SUCCESS (parse_body env reply) = false ->
    message_run reply w (parse_body env reply)
      (record_call (Parse_body (parse_body env reply)) w)
| run_payload_returned w w1 status w' :
    get_exchange_type reply = IKE_SA_INIT ->
    get_request reply = false ->
    parse_body env reply = SUCCESS ->
    this w1 = this w ->
    ike_sa w1 = with_responder_spi (ike_sa w) (get_responder_spi reply) ->
    send_queue w1 = send_queue w ->
    allocator_next w1 = allocator_next w ->
    trace w1 = trace w ++ [Parse_body SUCCESS; Set_responder_spi (get_responder_spi reply)] ->
    loop_run (get_payloads reply) w1 (Return status) w' ->
    message_run reply w status w'
| run_payloads_done w w1 w2 status w' :
    get_exchange_type reply = IKE_SA_INIT ->
    get_request reply = false ->
    parse_body env reply = SUCCESS ->
    this w1 = this w ->
    ike_sa w1 = with_responder_spi (ike_sa w) (get_responder_spi reply) ->
    send_queue w1 = send_queue w ->
    allocator_next w1 = allocator_next w ->
    trace w1 = trace w ++ [Parse_body SUCCESS; Set_responder_spi (get_responder_spi reply)] ->
    loop_run (get_payloads reply) w1 (Next tt) w2 ->
    after_run reply w2 status w' ->
    message_run reply w status w'.

End Paths.

(* ------------------------------------------------------------------------- *)
(** ** Concrete collaborators, sessions and replies *)

Module Fixture.

Definition aes_sha1_modp1024 : ike_proposal_t :=
  {| encryption_algorithm := 12; integrity_algorithm := 2;
     pseudo_random_function := 2; diffie_hellman_group := 2 |}.

Definition des_md5_modp768 : ike_proposal_t :=
  {| encryption_algorithm := 2; integrity_algorithm := 1;
     pseudo_random_function := 1; diffie_hellman_group := 1 |}.

Definition proposal_eqb (p q : ike_proposal_t) : bool :=
  Nat.eqb (encryption_algorithm p) (encryption_algorithm q)
  && Nat.eqb (integrity_algorithm p) (integrity_algorithm q)
  && Nat.eqb (pseudo_random_function p) (pseudo_random_function q)
  && Nat.eqb (diffie_hellman_group p) (diffie_hellman_group q).

(** A proposal is selected when the configuration knows it; the shared secret
    exists once the peer's public value was set; everything else succeeds. *)
Definition env : collaborators :=
  {| parse_body := fun _ => SUCCESS;
     select_proposal := fun config offered count =>
       match firstn count offered with
       | p :: _ => if existsb (proposal_eqb p) config then (SUCCESS, p) else (FAILED, p)
       | [] => (FAILED, aes_sha1_modp1024)
       end;
     create_transforms_from_proposal := fun _ _ => SUCCESS;
     get_shared_secret := fun dh =>
       match other_public_value dh with
       | Some value => (SUCCESS, rev value)
       | None => (FAILED, [])
       end;
     derive_keys := fun shared sent received => shared ++ sent ++ received;
     generate := fun request _ _ => (SUCCESS, [x2e; x23; x08]);
     set_last_requested_message := fun _ _ => SUCCESS |}.

(** The same, with a generator that cannot sign. *)
Definition env_generate_fails : collaborators :=
  {| parse_body := parse_body env;
     select_proposal := select_proposal env;
     create_transforms_from_proposal := create_transforms_from_proposal env;
     get_shared_secret := get_shared_secret env;
     derive_keys := derive_keys env;
     generate := fun request _ _ => (FAILED, []);
     set_last_requested_message := set_last_requested_message env |}.

(** The same, with a session that cannot keep the last requested message. *)
Definition env_set_last_fails : collaborators :=
  {| parse_body := parse_body env;
     select_proposal := select_proposal env;
     create_transforms_from_proposal := create_transforms_from_proposal env;
     get_shared_secret := get_shared_secret env;
     derive_keys := derive_keys env;
     generate := generate env;
     set_last_requested_message := fun _ _ => FAILED |}.

(** The same, with a session that cannot create the transforms. *)
Definition env_transforms_fail : collaborators :=
  {| parse_body := parse_body env;
     select_proposal := select_proposal env;
     create_transforms_from_proposal := fun _ _ => STATUS_OTHER 4;
     get_shared_secret := get_shared_secret env;
     derive_keys := derive_keys env;
     generate := generate env;
     set_last_requested_message := set_last_requested_message env |}.

Definition session : protected_ike_sa_t :=
  {| ike_sa_id := {| initiator_spi := 4242; responder_spi := 0 |};
     init_config := [aes_sha1_modp1024];
     transforms := None;
     key_material := None;
     last_requested_message := None;
     current_state := IKE_SA_INIT_REQUESTED |}.

(** A state object fresh from [ike_sa_init_requested_create]; the sent nonce
    lives at address 1, the allocator hands out addresses from 2 on. *)
Definition w0 : world :=
  {| this := ike_sa_init_requested_create 1
               {| dh_group := 2; other_public_value := None |}
               {| ptr := 1; data := [x11; x12; x13] |};
     ike_sa := session;
     send_queue := [];
     allocator_next := 2;
     trace := [] |}.

Definition reply_with (payloads : list payload_t) : message_t :=
  {| get_exchange_type := IKE_SA_INIT; get_request := false;
     get_responder_spi := 777; get_payloads := payloads |}.

Definition sa1 : payload_t := Sa_payload SUCCESS [aes_sha1_modp1024].
Definition sa2 : payload_t := Sa_payload SUCCESS [aes_sha1_modp1024; des_md5_modp768].
Definition sa_rejected : payload_t := Sa_payload SUCCESS [des_md5_modp768].
Definition ke : payload_t := Ke_payload [x01; x02; x03].
Definition nonce_a : payload_t := Nonce_payload [xa1; xa2].
Definition nonce_b : payload_t := Nonce_payload [xb1; xb2; xb3].

Definition request_instead_of_response : message_t :=
  {| get_exchange_type := IKE_SA_INIT; get_request := true;
     get_responder_spi := 777; get_payloads := [sa1; ke; nonce_a] |}.

Definition notify : payload_t := Unknown_payload 41.

(** The request built for the fixture session once it knows the responder SPI. *)
Definition ike_auth_request : message_t :=
  ike_auth_request_of (with_responder_spi session 777).

End Fixture.

(* ------------------------------------------------------------------------- *)
(** ** Vocabulary of the further properties *)

(** The world once the reply was parsed and its responder SPI recorded. *)
Definition header_done (reply : message_t) (w w1 : world) : Prop :=
  this w1 = this w
  /\ ike_sa w1 = with_responder_spi (ike_sa w) (get_responder_spi reply)
  /\ send_queue w1 = send_queue w
  /\ allocator_next w1 = allocator_next w.

Section Shapes.

Variable env : collaborators.

(** The four shapes of a run of [process_message], with the calls made:
    rejected before parsing, rejected by the parser, left from inside the
    payload loop, left after the loop. *)
Inductive run_shape (reply : message_t) (w : world)
  : status_t -> world -> list event -> Prop :=
| shape_mismatch :
    is_IKE_SA_INIT (get_exchange_type reply) = false \/ get_request reply = true ->
    run_shape reply w FAILED w []
| shape_parse_failed :
    get_exchange_type reply = IKE_SA_INIT ->
    get_request reply = false ->
    is_SUCCESS (parse_body env reply) = false ->
    run_shape reply w (parse_body env reply)
      (record_call (Parse_body (parse_body env reply)) w)
      [Parse_body (parse_body env reply)]
| shape_payload_returned w1 status w' evs :
    get_exchange_type reply = IKE_SA_INIT ->
    get_request reply = false ->
    parse_body env reply = SUCCESS ->
    header_done reply w w1 ->
    loop_run env (get_payloads reply) w1 (Return status) w' ->
    trace w' = trace w1 ++ evs ->
    run_shape reply w status w'
      (Parse_body SUCCESS :: Set_responder_spi (get_responder_spi reply) :: evs)
| shape_payloads_done w1 w2 status w' evs evs' :
    get_exchange_type reply = IKE_SA_INIT ->
    get_request reply = false ->
    parse_body env reply = SUCCESS ->
    header_done reply w w1 ->
    loop_run env (get_payloads reply) w1 (Next tt) w2 ->
    trace w2 = trace w1 ++ evs ->
    after_run env reply w2 status w' ->
    trace w' = trace w2 ++ evs' ->
    run_shape reply w status w'
      (Parse_body SUCCESS :: Set_responder_spi (get_responder_spi reply) :: evs ++ evs').

End Shapes.

Definition is_iterator_destroy (e : event) : bool :=
  match e with Iterator_destroy => true | _ => false end.

Definition is_get_shared_secret (e : event) : bool :=
  match e with Get_shared_secret _ => true | _ => false end.

(** The calls that hand out a buffer allocated for the caller. *)
Definition is_handed_out (e : event) : bool :=
  match e with
  | Get_ike_proposals status _ _ => is_SUCCESS status
  | Get_nonce _ => true
  | Get_shared_secret status => is_SUCCESS status
  | _ => false
  end.

(** The five ways out of the payload loop: for the payload the iterator
    handed out last, the status returned and the calls made on it. *)
Inductive loop_exit : payload_t -> status_t -> list event -> Prop :=
| exit_unsupported payload :
    is_supported payload = false ->
    loop_exit payload FAILED [Iterator_destroy]
| exit_without_proposals status proposals :
    is_SUCCESS status = false ->
    loop_exit (Sa_payload status proposals) status
      [Get_ike_proposals status NULL 0; Iterator_destroy]
| exit_proposal_count proposals p :
    List.length proposals <> 1 ->
    loop_exit (Sa_payload SUCCESS proposals) SUCCESS
      [Get_ike_proposals SUCCESS p (List.length proposals); Allocator_free p;
       Iterator_destroy]
| exit_rejected proposals p status :
    List.length proposals = 1 ->
    is_SUCCESS status = false ->
    loop_exit (Sa_payload SUCCESS proposals) status
      [Get_ike_proposals SUCCESS p 1; Select_proposal status; Allocator_free p;
       Iterator_destroy]
| exit_without_transforms proposals p status :
    List.length proposals = 1 ->
    is_SUCCESS status = false ->
    loop_exit (Sa_payload SUCCESS proposals) status
      [Get_ike_proposals SUCCESS p 1; Select_proposal SUCCESS; Allocator_free p;
       Create_transforms_from_proposal status; Iterator_destroy].

(** The key exchange data of the last KE payload, if there is one. *)
Fixpoint last_key_exchange_data (payloads : list payload_t) : option (list byte) :=
  match payloads with
  | [] => None
  | payload :: rest =>
      match last_key_exchange_data rest, payload with
      | Some value, _ => Some value
      | None, Ke_payload value => Some value
      | None, _ => None
      end
  end.

(** How many of three pointers point to [p]. *)
Definition pointing (shared sent received p : N) : nat :=
  Nat.b2n (N.eqb p shared) + Nat.b2n (N.eqb p sent) + Nat.b2n (N.eqb p received).

(** How many chunks of the state object point to the buffer at [p]. *)
Definition held (w : world) (p : N) : nat :=
  pointing (ptr (shared_secret (this w))) (ptr (sent_nonce (this w)))
    (ptr (received_nonce (this w))) p.

(** The state object holds the buffer at [p]: one of its three chunks points
    to it, and it is not [NULL]. *)
Definition holds (w : world) (p : N) : bool :=
  negb (N.eqb p NULL)
  && (N.eqb p (ptr (shared_secret (this w))) || N.eqb p (ptr (sent_nonce (this w)))
      || N.eqb p (ptr (received_nonce (this w)))).

(** No two chunks of the state object share a buffer. *)
Definition unshared (w : world) : Prop :=
  (ptr (shared_secret (this w)) = ptr (sent_nonce (this w)) ->
   ptr (shared_secret (this w)) = NULL)
  /\ (ptr (shared_secret (this w)) = ptr (received_nonce (this w)) ->
      ptr (shared_secret (this w)) = NULL)
  /\ (ptr (sent_nonce (this w)) = ptr (received_nonce (this w)) ->
      ptr (sent_nonce (this w)) = NULL).

(** The buffer at [p] was allocated while the allocator went from
    [allocator_next w0] to [next]. *)
Definition allocated_since (w0 : world) (next : N) (p : N) : bool :=
  N.leb (allocator_next w0) p && N.ltb p next.

(** Every buffer is accounted for: the frees of a buffer and the chunks that
    still point to it are as many as the chunks that pointed to it at the
    start, and one more if it was allocated since. *)
Definition accounted (w0 : world) (next : N) (w : world) (evs : list event) : Prop :=
  forall p, p <> NULL ->
    count (is_free_of p) evs + held w p
    = held w0 p + Nat.b2n (allocated_since w0 next p).

(** The invariant of the allocator discipline, for the calls [evs] made
    since the world was [w0], with the allocator now at [next]. *)
Record sound (w0 : world) (next : N) (w : world) (evs : list event) : Prop := {
  sound_start : well_formed w0;
  sound_next : (allocator_next w0 <= next)%N;
  sound_shared : (ptr (shared_secret (this w)) < next)%N;
  sound_sent : (ptr (sent_nonce (this w)) < next)%N;
  sound_received : (ptr (received_nonce (this w)) < next)%N;
  sound_accounted : accounted w0 next w evs;
  sound_arrays :
    forall p n, In (Get_ike_proposals SUCCESS p n) evs ->
                (allocator_next w0 <= p)%N /\ In (Allocator_free p) evs;
  sound_nonces :
    forall c, In (Get_nonce c) evs ->
              (allocator_next w0 <= ptr c)%N
              /\ (In (Allocator_free (ptr c)) evs \/ received_nonce (this w) = c)
}.

(** The calls that release the state object. *)
Definition release_calls (t : private_ike_sa_init_requested_t) : list event :=
  [Diffie_hellman_destroy; Allocator_free (ptr (sent_nonce t));
   Allocator_free (ptr (received_nonce t)); Allocator_free (ptr (shared_secret t));
   Allocator_free_this].

(** The calls of [destroy] in a world. *)
Definition destroy_calls (w : world) : list event :=
  skipn (List.length (trace w)) (trace (snd (destroy w))).

(** *** Further collaborators and replies *)

Module Replies.

Import Fixture.

(** The collaborators of the fixture, with a parser that rejects the reply. *)
Definition env_parse_fails : collaborators :=
  {| parse_body := fun _ => FAILED;
     select_proposal := select_proposal env;
     create_transforms_from_proposal := create_transforms_from_proposal env;
     get_shared_secret := get_shared_secret env;
     derive_keys := derive_keys env;
     generate := generate env;
     set_last_requested_message := set_last_requested_message env |}.

Definition valid_reply : message_t := reply_with [sa1; ke; nonce_a].
Definition notify_reply : message_t := reply_with [ke; notify; nonce_a].
Definition rejected_reply : message_t := reply_with [ke; sa_rejected; nonce_a].
Definition two_ke_reply : message_t :=
  reply_with [ke; sa1; Ke_payload [x09; x08]; nonce_a].
Definition bare_reply : message_t := reply_with [ke; nonce_a].
Definition two_nonce_reply : message_t := reply_with [nonce_a; sa1; ke; nonce_b].
Definition two_proposal_reply : message_t := reply_with [nonce_a; sa2; ke].
Definition short_reply : message_t := reply_with [nonce_a; notify].

End Replies.

(* ------------------------------------------------------------------------- *)
(** ** Running the code *)

Unset Implicit Arguments.

Ltac unfold_calls :=
  cbv [process_payload get_ike_proposals init_config_select_proposal
       ike_sa_create_transforms_from_proposal diffie_hellman_set_other_public_value
       nonce_payload_get_nonce diffie_hellman_get_shared_secret ike_sa_compute_secrets
       build_ike_auth_request ike_sa_build_message message_generate
       ike_auth_requested_create ike_sa_set_last_requested_message ike_sa_set_new_state
       destroy_after_state_change message_parse_body set_responder_spi iterator_current
       allocator_free allocator_alloc send_queue_add emit record_call
       bind next return_ get_this get_ike_sa set_this set_ike_sa].

Ltac fields :=
  cbn [this ike_sa send_queue allocator_next trace
       diffie_hellman shared_secret sent_nonce received_nonce dh_group_priority
       ike_sa_id init_config transforms key_material last_requested_message current_state
       with_diffie_hellman with_shared_secret with_received_nonce
       with_responder_spi with_transforms with_key_material
       with_last_requested_message with_current_state
       ptr data fst snd negb is_SUCCESS].

Ltac resolve_call :=
  match goal with
  | H : ?call = _ |- context [?call] => rewrite H
  end.

(** Unfold, simplify the field accesses, and decide the tests on what the
    context says the collaborators returned. *)
Ltac run := repeat (unfold_calls; fields; try resolve_call).

(** Decide membership in an explicit list of calls. *)
Ltac in_calls H :=
  cbn [app In] in H;
  repeat (destruct H as [H | H]; try discriminate H); try contradiction.

Section Running.

Variable env : collaborators.

Lemma app_assoc_cons (A : Type) (l : list A) (a : A) (l' : list A) :
  (l ++ [a]) ++ l' = l ++ a :: l'.
Proof. rewrite <- app_assoc. reflexivity. Qed.

Lemma process_payload_run payload w o w' :
  process_payload env payload w = (o, w') -> payload_run env payload w o w'.
Proof.
  destruct payload as [status proposals | value | nonce | b t d | m d | code].
  - destruct (is_SUCCESS status) eqn:Hstatus.
    + destruct status; try discriminate. clear Hstatus.
      destruct (Nat.eqb (List.length proposals) 1) eqn:Hcount.
      * destruct (select_proposal env (init_config (ike_sa w)) proposals 1)
          as [status selected] eqn:Hselect.
        destruct (is_SUCCESS status) eqn:Hstatus.
        -- destruct status; try discriminate. clear Hstatus.
           destruct (create_transforms_from_proposal env (ike_sa w) selected)
             as [ | | code] eqn:Hcreate;
             run; intros H; inversion H; subst; clear H;
             apply Nat.eqb_eq in Hcount;
             [ eapply run_sa | eapply run_sa_without_transforms
             | eapply run_sa_without_transforms ];
             eauto; fields; rewrite ?Hcount, ?Hcreate, ?app_assoc_cons; reflexivity.
        -- run. intros H; inversion H; subst; clear H.
           apply Nat.eqb_eq in Hcount.
           eapply run_sa_rejected; eauto; fields; rewrite ?Hcount, ?app_assoc_cons;
             reflexivity.
      * run. intros H; inversion H; subst; clear H.
        apply Nat.eqb_neq in Hcount.
        eapply run_sa_proposal_count; eauto; fields; rewrite ?app_assoc_cons; reflexivity.
    + run. intros H; inversion H; subst; clear H.
      eapply run_sa_without_proposals; eauto; fields; rewrite ?app_assoc_cons;
        reflexivity.
  - run. intros H; inversion H; subst; clear H.
    eapply run_ke; fields; reflexivity.
  - run. intros H; inversion H; subst; clear H.
    eapply run_nonce; fields; rewrite ?app_assoc_cons; reflexivity.
  - run. intros H; inversion H; subst; clear H.
    eapply run_unsupported; try reflexivity. destruct b; reflexivity.
  - run. intros H; inversion H; subst; clear H.
    eapply run_unsupported; reflexivity.
  - run. intros H; inversion H; subst; clear H.
    eapply run_unsupported; reflexivity.
Qed.

Lemma after_payloads_run reply w o w' :
  after_payloads env reply w = (o, w') ->
  exists status, o = Return status /\ after_run env reply w status w'.
Proof.
  destruct (get_shared_secret env (diffie_hellman (this w))) as [st secret] eqn:Hsecret.
  pose (shared := if is_SUCCESS st
                  then {| ptr := allocator_next w; data := secret |}
                  else CHUNK_INITIALIZER).
  pose (session := with_key_material (ike_sa w)
                     (derive_keys env (data shared) (data (sent_nonce (this w)))
                        (data (received_nonce (this w))))).
  pose (request := ike_auth_request_of (ike_sa w)).
  destruct (generate env request (get_crypter_initiator session)
              (get_signer_initiator session)) as [gst packet] eqn:Hgenerate.
  destruct (set_last_requested_message env session request) as [ | | code] eqn:Hlast;
    destruct gst as [ | | gcode]; destruct st as [ | | scode];
    subst shared session request;
    cbv [get_crypter_initiator get_signer_initiator with_key_material
         ike_auth_request_of] in Hgenerate, Hlast;
    fields; cbn [transforms key_material data fst snd is_SUCCESS] in Hgenerate, Hlast;
    unfold after_payloads; run;
    cbv [get_crypter_initiator get_signer_initiator with_key_material];
    cbn [transforms key_material data ike_sa_id fst snd is_SUCCESS]; run;
    intros H; inversion H; subst; clear H;
    eexists; (split; [reflexivity | ]).
  all: try solve
    [ eapply run_state_changed; fields; rewrite ?Hsecret; fields;
      try reflexivity; try eassumption;
      rewrite ?app_assoc_cons; reflexivity ].
  all: try solve
    [ eapply run_set_last_failed; fields; rewrite ?Hsecret; fields;
      try reflexivity; try eassumption;
      rewrite ?app_assoc_cons; reflexivity ].
  all: try solve
    [ eapply run_generate_failed; fields; rewrite ?Hsecret; fields;
      try reflexivity; try eassumption;
      rewrite ?app_assoc_cons; reflexivity ].
Qed.

Lemma iterate_run payloads : forall w o w',
  iterate env payloads w = (o, w') -> loop_run env payloads w o w'.
Proof.
  induction payloads as [ | payload rest IH]; intros w o w' H.
  - inversion H; subst. constructor.
  - cbn [iterate] in H. unfold bind at 1 in H.
    unfold iterator_current at 1 in H. unfold bind at 1, emit, next in H.
    unfold bind at 1 in H.
    destruct (process_payload env payload (record_call (Iterator_current payload) w))
      as [[status | []] w1] eqn:Hpayload;
      apply process_payload_run in Hpayload.
    + inversion H; subst. now apply run_loop_return.
    + eapply run_loop_next; eauto.
Qed.

Lemma process_message_run reply w status w' :
  process_message env reply w = (status, w') -> message_run env reply w status w'.
Proof.
  unfold process_message, process_message_body.
  destruct (is_IKE_SA_INIT (get_exchange_type reply)) eqn:Htype; cbn [negb].
  2:{ unfold return_. intros H; inversion H; subst. now apply run_wrong_exchange_type. }
  assert (Htype' : get_exchange_type reply = IKE_SA_INIT)
    by (destruct (get_exchange_type reply); try discriminate; reflexivity).
  destruct (get_request reply) eqn:Hrequest.
  { unfold return_. intros H; inversion H; subst. now apply run_request. }
  destruct (is_SUCCESS (parse_body env reply)) eqn:Hparse.
  2:{ run. intros H; inversion H; subst. now apply run_parse_failed. }
  assert (Hparse' : parse_body env reply = SUCCESS)
    by (destruct (parse_body env reply); try discriminate; reflexivity).
  run.
  match goal with
  | |- context [iterate env _ ?w1] =>
      remember w1 as w1' eqn:Hw1;
      destruct (iterate env (get_payloads reply) w1') as [[st | []] w2] eqn:Hloop
  end; apply iterate_run in Hloop.
  - intros H; inversion H; subst status w'.
    eapply run_payload_returned with (w1 := w1'); eauto; subst w1'; fields;
      rewrite ?app_assoc_cons; reflexivity.
  - destruct (after_payloads env reply w2) as [o w3] eqn:Hafter.
    apply after_payloads_run in Hafter. destruct Hafter as [st [-> Hafter]].
    intros H; inversion H; subst status w'.
    eapply run_payloads_done with (w1 := w1') (w2 := w2); eauto; subst w1'; fields;
      rewrite ?app_assoc_cons; reflexivity.
Qed.

(** *** The calls of a run *)

Lemma skipn_app_length (A : Type) (l l' : list A) :
  skipn (List.length l) (l ++ l') = l'.
Proof. induction l; cbn; auto. Qed.

Lemma run_of reply w :
  message_run env reply w (returned env reply w) (left_behind env reply w).
Proof.
  apply process_message_run. unfold returned, left_behind.
  destruct (process_message env reply w); reflexivity.
Qed.

Lemma calls_of reply w evs :
  trace (left_behind env reply w) = trace w ++ evs -> calls env reply w = evs.
Proof. unfold calls. intros ->. apply skipn_app_length. Qed.

(** *** What the loop leaves alone *)

Lemma loop_frame_refl w : loop_frame w w.
Proof.
  constructor; try reflexivity. exists []. now rewrite app_nil_r.
Qed.

Lemma loop_frame_trans w1 w2 w3 : loop_frame w1 w2 -> loop_frame w2 w3 -> loop_frame w1 w3.
Proof.
  intros [A1 A2 A3 A4 A5 A6 A7 A8 [e1 [A9 A10]]] [B1 B2 B3 B4 B5 B6 B7 B8 [e2 [B9 B10]]].
  constructor; try congruence.
  exists (e1 ++ e2). split.
  - rewrite B9, A9. now rewrite app_assoc.
  - rewrite forallb_app, A10, B10. reflexivity.
Qed.

Lemma record_call_frame e w : loop_event e = true -> loop_frame w (record_call e w).
Proof.
  intros He. constructor; try reflexivity.
  exists [e]. split; [reflexivity | cbn; now rewrite He].
Qed.

Lemma payload_run_frame payload w o w' :
  payload_run env payload w o w' -> loop_frame w w'.
Proof.
  intros H; inversion H; subst; constructor;
    repeat match goal with
           | E : this _ = _ |- _ => rewrite E
           | E : ike_sa _ = _ |- _ => rewrite E
           end;
    try assumption; try reflexivity;
    eexists; (split; [eassumption | reflexivity]).
Qed.

Lemma loop_run_frame payloads w o w' :
  loop_run env payloads w o w' -> loop_frame w w'.
Proof.
  induction 1 as [w | payload rest w status w' Hp | payload rest w w1 o w' Hp Hl IH].
  - apply loop_frame_refl.
  - eapply loop_frame_trans; [ | eapply payload_run_frame; eassumption].
    now apply record_call_frame.
  - eapply loop_frame_trans; [ | eassumption].
    eapply loop_frame_trans; [ | eapply payload_run_frame; eassumption].
    now apply record_call_frame.
Qed.

Lemma after_run_trace reply w status w' :
  after_run env reply w status w' -> exists evs, trace w' = trace w ++ evs.
Proof. intros H; inversion H; subst; eexists; eassumption. Qed.

Lemma message_run_trace reply w status w' :
  message_run env reply w status w' -> exists evs, trace w' = trace w ++ evs.
Proof.
  intros H; inversion H; subst.
  - exists []. now rewrite app_nil_r.
  - exists []. now rewrite app_nil_r.
  - eexists. reflexivity.
  - match goal with Hl : loop_run _ _ _ _ _ |- _ =>
      destruct (loop_run_frame _ _ _ _ Hl) as [_ _ _ _ _ _ _ _ [evs [-> _]]] end.
    match goal with E : trace w1 = _ |- _ => rewrite E end.
    rewrite <- app_assoc. eexists. reflexivity.
  - match goal with Ha : after_run _ _ _ _ _ |- _ =>
      destruct (after_run_trace _ _ _ _ Ha) as [evs3 ->] end.
    match goal with Hl : loop_run _ _ _ _ _ |- _ =>
      destruct (loop_run_frame _ _ _ _ Hl) as [_ _ _ _ _ _ _ _ [evs [-> _]]] end.
    match goal with E : trace w1 = _ |- _ => rewrite E end.
    rewrite <- !app_assoc. eexists. reflexivity.
Qed.

Lemma trace_of reply w :
  trace (left_behind env reply w) = trace w ++ calls env reply w.
Proof.
  destruct (message_run_trace _ _ _ _ (run_of reply w)) as [evs H].
  now rewrite (calls_of reply w evs H).
Qed.

(** *** Counting calls *)

Lemma count_app f evs evs' : count f (evs ++ evs') = count f evs + count f evs'.
Proof. unfold count. now rewrite filter_app, length_app. Qed.

Lemma count_none f evs :
  (forall e, In e evs -> f e = false) -> count f evs = 0.
Proof.
  unfold count. induction evs as [ | e evs IH]; intros H; [reflexivity | ].
  cbn [filter]. rewrite (H e) by (left; reflexivity).
  apply IH. intros e' He'. apply H. now right.
Qed.

Lemma count_loop_calls f evs :
  (forall e, loop_event e = true -> f e = false) ->
  forallb loop_event evs = true ->
  count f evs = 0.
Proof.
  intros Hf Hevs. apply count_none. intros e He.
  apply Hf. rewrite forallb_forall in Hevs. now apply Hevs.
Qed.

Lemma in_loop_calls e evs :
  forallb loop_event evs = true -> In e evs -> loop_event e = true.
Proof. intros Hevs Hin. rewrite forallb_forall in Hevs. now apply Hevs. Qed.

(** *** The loop, piece by piece *)

Lemma loop_run_app payloads payloads' w o w' :
  loop_run env (payloads ++ payloads') w o w' ->
  (exists status, o = Return status /\ loop_run env payloads w (Return status) w')
  \/ (exists w1, loop_run env payloads w (Next tt) w1 /\ loop_run env payloads' w1 o w').
Proof.
  revert w. induction payloads as [ | p rest IH]; intros w H.
  - right. exists w. split; [constructor | exact H].
  - cbn [app] in H. inversion H; subst.
    + left. eexists. split; [reflexivity | ]. now apply run_loop_return.
    + match goal with Hl : loop_run _ (rest ++ _) _ _ _ |- _ =>
        destruct (IH _ Hl) as [[status [-> Hr]] | [w2 [Hr Hr']]] end.
      * left. eexists. split; [reflexivity | ]. eapply run_loop_next; eauto.
      * right. exists w2. split; [ | exact Hr']. eapply run_loop_next; eauto.
Qed.

(** *** Addresses *)

Lemma payload_run_bounds payload w o w' :
  payload_run env payload w o w' ->
  well_formed w ->
  well_formed w'
  /\ (allocator_next w <= allocator_next w')%N
  /\ forall evs,
       trace w' = trace w ++ evs ->
       forall q, In (Allocator_free q) evs -> (q < allocator_next w')%N.
Proof.
  unfold well_formed.
  intros H [Hnull [Hshared [Hsent Hreceived]]]; inversion H; subst;
    repeat match goal with
           | E : this w' = _ |- _ => rewrite E
           | E : allocator_next w' = _ |- _ => rewrite E
           end;
    cbn [with_diffie_hellman with_received_nonce shared_secret sent_nonce
         received_nonce ptr];
    (split; [lia | ]); (split; [lia | ]);
    intros evs Htrace q Hin;
    match goal with
    | E : trace w' = _ |- _ =>
        tryif constr_eq E Htrace then fail
        else (rewrite E in Htrace; apply app_inv_head in Htrace)
    end;
    subst evs; in_calls Hin; inversion Hin; subst; unfold NULL; lia.
Qed.

Lemma loop_run_bounds payloads w o w' :
  loop_run env payloads w o w' ->
  well_formed w ->
  well_formed w'
  /\ (allocator_next w <= allocator_next w')%N
  /\ forall evs,
       trace w' = trace w ++ evs ->
       forall q, In (Allocator_free q) evs -> (q < allocator_next w')%N.
Proof.
  induction 1 as [w | p rest w st w' Hp | p rest w w1 o w' Hp Hl IH]; intros Hwf.
  - split; [exact Hwf | ]. split; [lia | ].
    intros evs Htrace q Hin.
    rewrite <- (app_nil_r (trace w)) in Htrace at 1.
    apply app_inv_head in Htrace. subst evs. destruct Hin.
  - destruct (payload_run_bounds _ _ _ _ Hp Hwf) as [Hwf' [Hle Hfree]].
    split; [exact Hwf' | ]. split; [exact Hle | ].
    intros evs Htrace q Hin.
    destruct (payload_run_frame _ _ _ _ Hp) as [_ _ _ _ _ _ _ _ [evs1 [Htrace1 _]]].
    pose proof Htrace1 as Htrace1'.
    cbn [record_call trace] in Htrace1. rewrite Htrace1, app_assoc_cons in Htrace.
    apply app_inv_head in Htrace. subst evs.
    destruct Hin as [Hin | Hin]; [discriminate Hin | ].
    eapply Hfree; eauto.
  - destruct (payload_run_bounds _ _ _ _ Hp Hwf) as [Hwf1 [Hle1 Hfree1]].
    destruct (IH Hwf1) as [Hwf' [Hle Hfree]].
    cbn [record_call allocator_next] in Hle1.
    split; [exact Hwf' | ]. split; [lia | ].
    intros evs Htrace q Hin.
    destruct (payload_run_frame _ _ _ _ Hp) as [_ _ _ _ _ _ _ _ [evs1 [Htrace1 _]]].
    destruct (loop_run_frame _ _ _ _ Hl) as [_ _ _ _ _ _ _ _ [evs2 [Htrace2 _]]].
    pose proof Htrace1 as Htrace1'.
    cbn [record_call trace] in Htrace1.
    rewrite Htrace2, Htrace1, app_assoc_cons, <- app_assoc in Htrace.
    apply app_inv_head in Htrace. subst evs.
    cbn [app In] in Hin. destruct Hin as [Hin | Hin]; [discriminate Hin | ].
    apply in_app_or in Hin. destruct Hin as [Hin | Hin].
    + specialize (Hfree1 _ Htrace1' _ Hin). lia.
    + eapply Hfree; eauto.
Qed.

Lemma loop_run_without_nonce payloads w o w' :
  loop_run env payloads w o w' ->
  without_nonce payloads = true ->
  received_nonce (this w') = received_nonce (this w)
  /\ (allocator_next w <= allocator_next w')%N
  /\ forall evs,
       trace w' = trace w ++ evs ->
       count is_get_nonce evs = 0
       /\ forall q, In (Allocator_free q) evs -> (allocator_next w <= q)%N.
Proof.
  unfold without_nonce.
  induction 1 as [w | p rest w st w' Hp | p rest w w1 o w' Hp Hl IH]; intros Hnone.
  - split; [reflexivity | ]. split; [lia | ].
    intros evs Htrace.
    rewrite <- (app_nil_r (trace w)) in Htrace at 1.
    apply app_inv_head in Htrace. subst evs. split; [reflexivity | intros q []].
  - cbn [forallb] in Hnone. apply andb_true_iff in Hnone. destruct Hnone as [Hp' _].
    inversion Hp; subst;
      repeat match goal with
             | E : this w' = _ |- _ => rewrite E
             | E : allocator_next w' = _ |- _ => rewrite E
             end;
      cbn [record_call this allocator_next];
      (split; [reflexivity | ]); (split; [lia | ]);
      intros evs Htrace;
      match goal with
      | E : trace w' = _ |- _ =>
          rewrite E in Htrace; cbn [record_call trace] in Htrace;
          rewrite app_assoc_cons in Htrace; apply app_inv_head in Htrace; subst evs
      end;
      (split; [reflexivity | ]);
      intros q Hin; in_calls Hin; inversion Hin; subst; lia.
  - cbn [forallb] in Hnone. apply andb_true_iff in Hnone.
    destruct Hnone as [Hp' Hrest].
    destruct (IH Hrest) as [Hreceived [Hle Hevs]].
    assert (Hstep : received_nonce (this w1) = received_nonce (this w)
                    /\ (allocator_next w <= allocator_next w1)%N
                    /\ exists evs1,
                         trace w1 = trace w ++ evs1
                         /\ count is_get_nonce evs1 = 0
                         /\ forall q, In (Allocator_free q) evs1 ->
                                      (allocator_next w <= q)%N).
    { inversion Hp; subst; try discriminate Hp';
        repeat match goal with
               | E : this w1 = _ |- _ => rewrite E
               | E : allocator_next w1 = _ |- _ => rewrite E
               | E : trace w1 = _ |- _ => rewrite E
               end;
        cbn [record_call this allocator_next trace with_diffie_hellman received_nonce];
        (split; [reflexivity | ]); (split; [lia | ]);
        rewrite app_assoc_cons; eexists; (split; [reflexivity | ]);
        (split; [reflexivity | ]);
        intros q Hin; in_calls Hin; inversion Hin; subst; lia. }
    destruct Hstep as [Hreceived1 [Hle1 [evs1 [Htrace1 [Hcount1 Hfree1]]]]].
    split; [congruence | ]. split; [lia | ].
    intros evs Htrace.
    destruct (loop_run_frame _ _ _ _ Hl) as [_ _ _ _ _ _ _ _ [evs2 [Htrace2 _]]].
    destruct (Hevs _ Htrace2) as [Hcount2 Hfree2].
    rewrite Htrace2, Htrace1, <- app_assoc in Htrace.
    apply app_inv_head in Htrace. subst evs.
    split.
    + rewrite count_app. lia.
    + intros q Hin. apply in_app_or in Hin. destruct Hin as [Hin | Hin].
      * now apply Hfree1.
      * specialize (Hfree2 _ Hin). lia.
Qed.

Lemma count_free_none p evs :
  (forall q, In (Allocator_free q) evs -> q <> p) -> count (is_free_of p) evs = 0.
Proof.
  intros H. apply count_none. intros [] He; cbn [is_free_of]; try reflexivity.
  apply N.eqb_neq. intros ->. now apply (H _ He).
Qed.

Lemma nonce_payload_run nonce w o w' :
  payload_run env (Nonce_payload nonce) w o w' ->
  o = Next tt
  /\ this w' = with_received_nonce (this w) {| ptr := allocator_next w; data := nonce |}
  /\ allocator_next w' = N.succ (allocator_next w)
  /\ trace w' = trace w ++ [Allocator_free (ptr (received_nonce (this w)));
                             Get_nonce {| ptr := allocator_next w; data := nonce |}].
Proof.
  intros H; inversion H; subst; [auto | discriminate].
Qed.

Lemma loop_run_two_nonces before n1 between n2 after w o w' evs :
  loop_run env (before ++ Nonce_payload n1 :: between ++ Nonce_payload n2 :: after)
    w o w' ->
  well_formed w ->
  without_nonce before = true ->
  without_nonce between = true ->
  without_nonce after = true ->
  trace w' = trace w ++ evs ->
  count is_get_nonce evs = 2 ->
  exists p1 p2 earlier later rest,
    evs = earlier ++ Get_nonce {| ptr := p1; data := n1 |}
                  :: later ++ Allocator_free p1
                  :: Get_nonce {| ptr := p2; data := n2 |} :: rest
    /\ received_nonce (this w') = {| ptr := p2; data := n2 |}
    /\ count (is_free_of p1) evs = 1
    /\ (allocator_next w <= p1)%N /\ (p1 < p2)%N /\ (p2 < allocator_next w')%N.
Proof.
  intros Hrun Hwf Hbefore Hbetween Hafter Htrace Hcount.
  apply loop_run_app in Hrun. destruct Hrun as [[st [-> Hr]] | [wa [Hra Hrun]]].
  { destruct (loop_run_without_nonce _ _ _ _ Hr Hbefore) as [_ [_ Hevs]].
    destruct (Hevs _ Htrace) as [Hnone _]. rewrite Hnone in Hcount. discriminate. }
  destruct (loop_run_without_nonce _ _ _ _ Hra Hbefore) as [_ [Hle_a Hevs_a]].
  destruct (loop_run_frame _ _ _ _ Hra) as [_ _ _ _ _ _ _ _ [ea [Htrace_a _]]].
  destruct (Hevs_a _ Htrace_a) as [Hcount_a _].
  destruct (loop_run_bounds _ _ _ _ Hra Hwf) as [Hwf_a [_ Hfree_a]].
  specialize (Hfree_a _ Htrace_a).
  inversion Hrun as [ | p rest w0 st w0' Hp | p rest w0 wb o0 w0' Hp Hrun']; subst.
  { apply nonce_payload_run in Hp. destruct Hp as [Hp _]. discriminate Hp. }
  apply nonce_payload_run in Hp. destruct Hp as [_ [Hthis_b [Hnext_b Htrace_b]]].
  cbn [record_call this allocator_next trace] in Hthis_b, Hnext_b, Htrace_b.
  apply loop_run_app in Hrun'. destruct Hrun' as [[st [-> Hr]] | [wc [Hrc Hrun']]].
  { destruct (loop_run_without_nonce _ _ _ _ Hr Hbetween) as [_ [_ Hevs]].
    destruct (loop_run_frame _ _ _ _ Hr) as [_ _ _ _ _ _ _ _ [ec [Htrace_c _]]].
    destruct (Hevs _ Htrace_c) as [Hnone _].
    rewrite Htrace_c, Htrace_b, Htrace_a in Htrace.
    rewrite <- !app_assoc in Htrace. apply app_inv_head in Htrace. subst evs.
    rewrite !count_app, Hcount_a, Hnone in Hcount. discriminate Hcount. }
  destruct (loop_run_without_nonce _ _ _ _ Hrc Hbetween) as [Hreceived_c [Hle_c Hevs_c]].
  destruct (loop_run_frame _ _ _ _ Hrc) as [_ _ _ _ _ _ _ _ [ec [Htrace_c _]]].
  destruct (Hevs_c _ Htrace_c) as [Hcount_c Hfree_c].
  assert (Hpayload_d : exists wd,
             payload_run env (Nonce_payload n2)
               (record_call (Iterator_current (Nonce_payload n2)) wc) (Next tt) wd
             /\ loop_run env after wd o w').
  { inversion Hrun' as [ | p rest w0 st w0' Hp | p rest w0 wd o0 w0' Hp Hrun'']; subst.
    - apply nonce_payload_run in Hp. destruct Hp as [Hp _]. discriminate Hp.
    - eauto. }
  destruct Hpayload_d as [wd [Hp Hre]].
  apply nonce_payload_run in Hp. destruct Hp as [_ [Hthis_d [Hnext_d Htrace_d]]].
  cbn [record_call this allocator_next trace] in Hthis_d, Hnext_d, Htrace_d.
  destruct (loop_run_without_nonce _ _ _ _ Hre Hafter) as [Hreceived_e [Hle_e Hevs_e]].
  destruct (loop_run_frame _ _ _ _ Hre) as [_ _ _ _ _ _ _ _ [ee [Htrace_e _]]].
  destruct (Hevs_e _ Htrace_e) as [_ Hfree_e].
  rewrite Hreceived_c, Hthis_b in Htrace_d.
  cbn [with_received_nonce received_nonce ptr] in Htrace_d.
  rewrite Htrace_e, Htrace_d, Htrace_c, Htrace_b, Htrace_a in Htrace.
  rewrite <- !app_assoc in Htrace. apply app_inv_head in Htrace. subst evs.
  destruct Hwf_a as [Hnull_a [_ [_ Hold]]].
  exists (allocator_next wa), (allocator_next wc),
    (ea ++ [Iterator_current (Nonce_payload n1);
            Allocator_free (ptr (received_nonce (this wa)))]),
    (ec ++ [Iterator_current (Nonce_payload n2)]), ee.
  split; [rewrite <- !app_assoc; reflexivity | ].
  split.
  { rewrite Hreceived_e, Hthis_d. reflexivity. }
  split.
  { rewrite !count_app.
    rewrite (count_free_none (allocator_next wa) ea)
      by (intros q Hq; specialize (Hfree_a _ Hq); lia).
    rewrite (count_free_none (allocator_next wa) ec)
      by (intros q Hq; specialize (Hfree_c _ Hq); lia).
    rewrite (count_free_none (allocator_next wa) ee)
      by (intros q Hq; specialize (Hfree_e _ Hq); lia).
    unfold count. cbn [app filter is_free_of].
    rewrite N.eqb_refl.
    replace (N.eqb (allocator_next wa) (ptr (received_nonce (this wa)))) with false
      by (symmetry; apply N.eqb_neq; lia).
    reflexivity. }
  split; [exact Hle_a | ]. split; lia.
Qed.

(** *** Runs from worlds that agree *)

Ltac same_calls :=
  repeat match goal with
         | H : (_, _) = (_, _) |- _ => inversion H; clear H; subst
         | H : ?call = _, H' : ?call = _ |- _ => rewrite H in H'
         end.

Lemma agree_record_call e e' a b :
  agree a b -> agree (record_call e a) (record_call e' b).
Proof. intros H. exact H. Qed.

Lemma payload_run_agree payload a oa a' b ob b' :
  payload_run env payload a oa a' ->
  payload_run env payload b ob b' ->
  agree a b ->
  oa = ob /\ agree a' b'.
Proof.
  intros Ha Hb [Hdh [Hshared [Hsent [Hreceived Hsession]]]].
  inversion Ha; subst; inversion Hb; subst;
    try discriminate;
    try rewrite Hsession in *;
    same_calls; try discriminate; try congruence;
    try (match goal with
         | H : ?x = SUCCESS, H' : is_SUCCESS ?x = false |- _ =>
             rewrite H in H'; discriminate H'
         end);
    (split; [reflexivity | ]);
    unfold agree;
    repeat match goal with
           | E : this a' = _ |- _ => rewrite E
           | E : this b' = _ |- _ => rewrite E
           | E : ike_sa a' = _ |- _ => rewrite E
           | E : ike_sa b' = _ |- _ => rewrite E
           end;
    cbn [with_diffie_hellman with_received_nonce diffie_hellman shared_secret
         sent_nonce received_nonce data];
    rewrite ?Hdh, ?Hsession; auto.
Qed.

Lemma loop_run_agree payloads a oa a' :
  loop_run env payloads a oa a' ->
  forall b ob b',
    loop_run env payloads b ob b' ->
    agree a b ->
    oa = ob /\ agree a' b'.
Proof.
  induction 1 as [a | p rest a st a' Hp | p rest a a1 oa a' Hp Hl IH];
    intros b ob b' Hb Hagree; inversion Hb; subst.
  - auto.
  - eapply payload_run_agree; eauto.
  - match goal with Hq : payload_run _ _ _ (Next tt) _ |- _ =>
      destruct (payload_run_agree _ _ _ _ _ _ _ Hp Hq (agree_record_call _ _ _ _ Hagree))
        as [Ho _]; discriminate Ho end.
  - match goal with Hq : payload_run _ _ _ (Return _) _ |- _ =>
      destruct (payload_run_agree _ _ _ _ _ _ _ Hp Hq (agree_record_call _ _ _ _ Hagree))
        as [Ho _]; discriminate Ho end.
  - match goal with Hq : payload_run _ _ (record_call _ b) (Next tt) _ |- _ =>
      destruct (payload_run_agree _ _ _ _ _ _ _ Hp Hq (agree_record_call _ _ _ _ Hagree))
        as [_ Hagree1] end.
    eapply IH; eauto.
Qed.

(** A payload that is neither KEY_EXCHANGE nor NONCE looks at the session
    only, and leaves the state object alone. *)
Lemma payload_run_same_session payload a oa a' b ob b' :
  payload_run env payload a oa a' ->
  payload_run env payload b ob b' ->
  is_ke_or_nonce payload = false ->
  ike_sa a = ike_sa b ->
  oa = ob /\ ike_sa a' = ike_sa b' /\ this a' = this a /\ this b' = this b.
Proof.
  intros Ha Hb Hpayload Hsession.
  inversion Ha; subst; inversion Hb; subst;
    try discriminate;
    try rewrite Hsession in *;
    same_calls; try discriminate; try congruence;
    try (match goal with
         | H : ?x = SUCCESS, H' : is_SUCCESS ?x = false |- _ =>
             rewrite H in H'; discriminate H'
         end);
    repeat split; congruence.
Qed.

Lemma loop_run_same_session payloads a oa a' :
  loop_run env payloads a oa a' ->
  forall b ob b',
    loop_run env payloads b ob b' ->
    without_ke_and_nonce payloads = true ->
    ike_sa a = ike_sa b ->
    oa = ob /\ ike_sa a' = ike_sa b' /\ this a' = this a /\ this b' = this b.
Proof.
  unfold without_ke_and_nonce.
  induction 1 as [a | p rest a st a' Hp | p rest a a1 oa a' Hp Hl IH];
    intros b ob b' Hb Hnone Hsession; inversion Hb; subst;
    try (cbn [forallb] in Hnone; apply andb_true_iff in Hnone;
         destruct Hnone as [Hp' Hrest]; apply negb_true_iff in Hp').
  - auto.
  - match goal with Hq : payload_run _ _ (record_call _ b) _ _ |- _ =>
      destruct (payload_run_same_session _ _ _ _ _ _ _ Hp Hq Hp' Hsession)
        as [Ho [Hs [Ht Ht']]] end.
    auto.
  - match goal with Hq : payload_run _ _ (record_call _ b) _ _ |- _ =>
      destruct (payload_run_same_session _ _ _ _ _ _ _ Hp Hq Hp' Hsession)
        as [Ho _]; discriminate Ho end.
  - match goal with Hq : payload_run _ _ (record_call _ b) _ _ |- _ =>
      destruct (payload_run_same_session _ _ _ _ _ _ _ Hp Hq Hp' Hsession)
        as [Ho _]; discriminate Ho end.
  - match goal with Hq : payload_run _ _ (record_call _ b) _ ?b1,
                    Hl' : loop_run _ rest ?b1 _ _ |- _ =>
      destruct (payload_run_same_session _ _ _ _ _ _ _ Hp Hq Hp' Hsession)
        as [_ [Hs [Ht Ht']]];
      destruct (IH _ _ _ Hl' Hrest Hs) as [Ho [Hs' [Ht2 Ht2']]] end.
    cbn [record_call this] in Ht, Ht'.
    repeat split; congruence.
Qed.

Lemma ke_payload_run value w o w' :
  payload_run env (Ke_payload value) w o w' ->
  o = Next tt
  /\ this w' = with_diffie_hellman (this w)
                 {| dh_group := dh_group (diffie_hellman (this w));
                    other_public_value := Some value |}
  /\ ike_sa w' = ike_sa w.
Proof.
  intros H; inversion H; subst; [auto | discriminate].
Qed.

Lemma nonce_payload_run_session nonce w o w' :
  payload_run env (Nonce_payload nonce) w o w' -> ike_sa w' = ike_sa w.
Proof.
  intros H; inversion H; subst; [auto | discriminate].
Qed.

Lemma swapped_loop_agree value between nonce after a oa a' b ob b' :
  loop_run env (Ke_payload value :: between ++ Nonce_payload nonce :: after) a oa a' ->
  loop_run env (Nonce_payload nonce :: between ++ Ke_payload value :: after) b ob b' ->
  without_ke_and_nonce between = true ->
  agree a b ->
  oa = ob
  /\ data (shared_secret (this a')) = data (shared_secret (this b'))
  /\ ike_sa a' = ike_sa b'
  /\ (oa = Next tt -> agree a' b').
Proof.
  intros Ha Hb Hbetween [Hdh [Hshared [Hsent [Hreceived Hsession]]]].
  inversion Ha as [ | p rest w0 st w0' Hp | p rest w0 a1 o0 w0' Hp Ha']; subst.
  { apply ke_payload_run in Hp. destruct Hp as [Hp _]. discriminate Hp. }
  apply ke_payload_run in Hp. destruct Hp as [_ [Hthis_a1 Hsession_a1]].
  inversion Hb as [ | p rest w0 st w0' Hq | p rest w0 b1 o0 w0' Hq Hb']; subst.
  { apply nonce_payload_run in Hq. destruct Hq as [Hq _]. discriminate Hq. }
  pose proof (nonce_payload_run_session _ _ _ _ Hq) as Hsession_b1.
  apply nonce_payload_run in Hq. destruct Hq as [_ [Hthis_b1 _]].
  cbn [record_call this ike_sa allocator_next] in *.
  assert (Hsession1 : ike_sa a1 = ike_sa b1) by congruence.
  apply loop_run_app in Ha'. apply loop_run_app in Hb'.
  destruct Ha' as [[sta [-> Ha']] | [a2 [Ha2 Ha']]];
    destruct Hb' as [[stb [-> Hb']] | [b2 [Hb2 Hb']]].
  - destruct (loop_run_same_session _ _ _ _ Ha' _ _ _ Hb' Hbetween Hsession1)
      as [Ho [Hs [Ht Ht']]].
    split; [exact Ho | ]. split.
    { rewrite Ht, Ht', Hthis_a1, Hthis_b1. exact Hshared. }
    split; [exact Hs | discriminate].
  - destruct (loop_run_same_session _ _ _ _ Ha' _ _ _ Hb2 Hbetween Hsession1)
      as [Ho _]. discriminate Ho.
  - destruct (loop_run_same_session _ _ _ _ Ha2 _ _ _ Hb' Hbetween Hsession1)
      as [Ho _]. discriminate Ho.
  - destruct (loop_run_same_session _ _ _ _ Ha2 _ _ _ Hb2 Hbetween Hsession1)
      as [_ [Hs [Ht Ht']]].
    inversion Ha' as [ | p rest w0 st w0' Hp | p rest w0 a3 o0 w0' Hp Ha3]; subst.
    { apply nonce_payload_run in Hp. destruct Hp as [Hp _]. discriminate Hp. }
    inversion Hb' as [ | p rest w0 st w0' Hq | p rest w0 b3 o0 w0' Hq Hb3]; subst.
    { apply ke_payload_run in Hq. destruct Hq as [Hq _]. discriminate Hq. }
    pose proof (nonce_payload_run_session _ _ _ _ Hp) as Hsession_a3.
    apply nonce_payload_run in Hp. destruct Hp as [_ [Hthis_a3 _]].
    apply ke_payload_run in Hq. destruct Hq as [_ [Hthis_b3 Hsession_b3]].
    cbn [record_call this ike_sa allocator_next] in *.
    assert (Hagree3 : agree a3 b3).
    { unfold agree.
      rewrite Hthis_a3, Hthis_b3, Hsession_a3, Hsession_b3, Ht, Ht', Hthis_a1, Hthis_b1.
      cbn [with_diffie_hellman with_received_nonce diffie_hellman shared_secret
           sent_nonce received_nonce data].
      rewrite Hdh. auto. }
    destruct (loop_run_agree _ _ _ _ Ha3 _ _ _ Hb3 Hagree3) as [Ho Hagree'].
    split; [exact Ho | ].
    destruct Hagree' as [Hdh' [Hshared' [Hsent' [Hreceived' Hsession']]]].
    split; [exact Hshared' | ]. split; [exact Hsession' | ].
    intros _. unfold agree. auto.
Qed.

Lemma after_run_agree reply reply' a sta a' b stb b' :
  after_run env reply a sta a' ->
  after_run env reply' b stb b' ->
  agree a b ->
  sta = stb
  /\ data (shared_secret (this a')) = data (shared_secret (this b'))
  /\ ike_sa a' = ike_sa b'.
Proof.
  intros Ha Hb [Hdh [Hshared [Hsent [Hreceived Hsession]]]].
  assert (Hdata : forall st s,
             data (if is_SUCCESS st then {| ptr := allocator_next a; data := s |}
                   else CHUNK_INITIALIZER)
             = data (if is_SUCCESS st then {| ptr := allocator_next b; data := s |}
                     else CHUNK_INITIALIZER))
    by (intros st s; destruct (is_SUCCESS st); reflexivity).
  inversion Ha; subst; inversion Hb; subst;
    repeat match goal with
           | E : ike_sa a' = _ |- _ => rewrite E in *
           | E : ike_sa b' = _ |- _ => rewrite E in *
           | E : this a' = _ |- _ => rewrite E in *
           | E : this b' = _ |- _ => rewrite E in *
           end;
    subst secret secret0;
    rewrite Hdh, Hsent, Hreceived, Hsession, Hdata in *;
    same_calls; try discriminate;
    try (match goal with
         | H : ?x = SUCCESS, H' : is_SUCCESS ?x = false |- _ =>
             rewrite H in H'; discriminate H'
         end);
    cbn [with_shared_secret shared_secret];
    rewrite ?Hdata; auto.
Qed.

(* ------------------------------------------------------------------------- *)
(** ** Properties of [process_message] *)

(** [build_ike_auth_request] builds [ike_auth_request_of] the session. *)
Remark build_ike_auth_request_run w :
  build_ike_auth_request w = (Next (ike_auth_request_of (ike_sa w)), w).
Proof. reflexivity. Qed.

(** The [default] of the [switch] is taken by the payloads of another type. *)
Remark default_case payload w :
  is_supported payload = false ->
  process_payload env payload w = (Return FAILED, record_call Iterator_destroy w).
Proof.
  destruct payload as [? ? | ? | ? | [] ? ? | ? ? | ?]; try discriminate; reflexivity.
Qed.

(** [destroy] and [destroy_after_state_change] release the same things in
    the same order. *)
Remark destroy_is_destroy_after_state_change w :
  destroy w = destroy_after_state_change w.
Proof. reflexivity. Qed.

(** [get_state] does not look at the state object. *)
Remark get_state_is_constant t : get_state t = IKE_SA_INIT_REQUESTED.
Proof. reflexivity. Qed.

(** The NONCE case frees the buffer held so far, resets the field to the
    empty chunk, and then lets [get_nonce] fill it. *)
Remark nonce_case_frees_then_resets nonce w :
  exists w1,
    snd (allocator_free (ptr (received_nonce (this w))) w) = w1
    /\ received_nonce
         (this (snd (set_this (with_received_nonce (this w1) CHUNK_INITIALIZER) w1)))
       = CHUNK_INITIALIZER
    /\ process_payload env (Nonce_payload nonce) w
       = nonce_payload_get_nonce nonce
           (snd (set_this (with_received_nonce (this w1) CHUNK_INITIALIZER) w1)).
Proof. eexists. split; [reflexivity | ]. split; reflexivity. Qed.

(** C6: a message whose exchange type is not IKE_SA_INIT, or which is a
    request, makes [process_message] return [FAILED] and leave the world as
    it was: the session (responder SPI, current state) and the state object
    are unchanged and no call was made, so nothing was parsed, no responder
    SPI recorded and no payload looked at. *)
Theorem protocol_mismatch_leaves_session_unchanged reply w :
  get_exchange_type reply <> IKE_SA_INIT \/ get_request reply = true ->
  process_message env reply w = (FAILED, w)
  /\ calls env reply w = []
  /\ current_state (ike_sa (left_behind env reply w)) = current_state (ike_sa w)
  /\ responder_spi (ike_sa_id (ike_sa (left_behind env reply w)))
     = responder_spi (ike_sa_id (ike_sa w)).
Proof.
  intros H.
  assert (Hrun : process_message env reply w = (FAILED, w)).
  { unfold process_message, process_message_body.
    destruct (get_exchange_type reply) eqn:Htype; cbn [is_IKE_SA_INIT negb];
      try reflexivity.
    destruct H as [H | H]; [congruence | ].
    rewrite H. reflexivity. }
  split; [exact Hrun | ].
  unfold calls, left_behind. rewrite Hrun. cbn [snd].
  repeat split.
  rewrite <- (app_nil_r (trace w)) at 2. apply skipn_app_length.
Qed.

Lemma in_loop_calls_unsupported payloads w o w' :
  loop_run env payloads w o w' ->
  forall evs payload,
    trace w' = trace w ++ evs ->
    In (Iterator_current payload) evs ->
    is_supported payload = false ->
    o = Return FAILED
    /\ exists before, evs = before ++ [Iterator_current payload; Iterator_destroy].
Proof.
  induction 1 as [w | p rest w status w' Hp | p rest w w1 o w' Hp Hl IH];
    intros evs payload Htrace Hin Hunsupported.
  - rewrite <- (app_nil_r (trace w)) in Htrace at 1.
    apply app_inv_head in Htrace. subst evs. destruct Hin.
  - inversion Hp; subst;
      match goal with
      | E : trace w' = _ |- _ =>
          rewrite E in Htrace; cbn [record_call trace] in Htrace;
          rewrite app_assoc_cons in Htrace; apply app_inv_head in Htrace; subst evs
      end;
      cbn [In] in Hin;
      repeat (destruct Hin as [Hin | Hin]; try discriminate Hin); try contradiction;
      inversion Hin; subst; try discriminate Hunsupported.
    split; [reflexivity | ]. exists []. reflexivity.
  - destruct (loop_run_frame _ _ _ _ Hl) as [_ _ _ _ _ _ _ _ [evs2 [Htrace2 _]]].
    assert (Hstep : exists body,
               trace w1 = trace w ++ Iterator_current p :: body
               /\ is_supported p = true
               /\ forall q, ~ In (Iterator_current q) body).
    { inversion Hp; subst;
        match goal with
        | E : trace w1 = _ |- _ =>
            rewrite E; cbn [record_call trace]; rewrite app_assoc_cons
        end;
        eexists; (split; [reflexivity | ]); (split; [reflexivity | ]);
        intros q Hq; cbn [In] in Hq;
        repeat (destruct Hq as [Hq | Hq]; try discriminate Hq); contradiction. }
    destruct Hstep as [body [Htrace1 [Hsupported Hbody]]].
    rewrite Htrace2, Htrace1 in Htrace. rewrite <- app_assoc in Htrace.
    apply app_inv_head in Htrace. subst evs.
    cbn [app In] in Hin. destruct Hin as [Hin | Hin].
    + inversion Hin; subst. congruence.
    + apply in_app_or in Hin. destruct Hin as [Hin | Hin].
      * now apply Hbody in Hin.
      * destruct (IH evs2 payload Htrace2 Hin Hunsupported) as [-> [before ->]].
        split; [reflexivity | ].
        exists (Iterator_current p :: body ++ before).
        cbn [app]. now rewrite <- app_assoc.
Qed.

(** C7: once the iterator has handed out a payload whose type is not
    SECURITY_ASSOCIATION, KEY_EXCHANGE or NONCE, [process_message] returns
    [FAILED], and the only call it still makes is the release of the payload
    iterator: the payload is not skipped and no later payload is looked at. *)
Theorem unsupported_payload_stops_processing reply w payload :
  In (Iterator_current payload) (calls env reply w) ->
  is_supported payload = false ->
  returned env reply w = FAILED
  /\ exists before,
       calls env reply w = before ++ [Iterator_current payload; Iterator_destroy].
Proof.
  pose proof (run_of reply w) as Hrun. pose proof (trace_of reply w) as Htrace.
  revert Hrun Htrace.
  generalize (returned env reply w) as status, (left_behind env reply w) as w',
    (calls env reply w) as evs.
  intros status w' evs Hrun Htrace Hin Hunsupported.
  inversion Hrun; subst.
  - rewrite <- (app_nil_r (trace w')) in Htrace at 1.
    apply app_inv_head in Htrace. subst evs. destruct Hin.
  - rewrite <- (app_nil_r (trace w')) in Htrace at 1.
    apply app_inv_head in Htrace. subst evs. destruct Hin.
  - cbn [record_call trace] in Htrace. apply app_inv_head in Htrace. subst evs.
    destruct Hin as [Hin | []]. discriminate Hin.
  - match goal with Hl : loop_run _ _ _ _ _ |- _ =>
      pose proof Hl as Hloop;
      destruct (loop_run_frame _ _ _ _ Hl) as [_ _ _ _ _ _ _ _ [evs2 [Htrace2 _]]] end.
    match goal with E : trace w1 = _ |- _ => rewrite Htrace2, E in Htrace end.
    rewrite <- app_assoc in Htrace. apply app_inv_head in Htrace. subst evs.
    cbn [app In] in Hin. destruct Hin as [Hin | [Hin | Hin]]; try discriminate Hin.
    destruct (in_loop_calls_unsupported _ _ _ _ Hloop _ _ Htrace2 Hin Hunsupported)
      as [Hret [before ->]].
    inversion Hret; subst. split; [reflexivity | ].
    exists (Parse_body SUCCESS :: Set_responder_spi (get_responder_spi reply) :: before).
    reflexivity.
  - match goal with Hl : loop_run _ _ _ _ _ |- _ =>
      pose proof Hl as Hloop;
      destruct (loop_run_frame _ _ _ _ Hl) as [_ _ _ _ _ _ _ _ [evs2 [Htrace2 _]]] end.
    match goal with Ha : after_run _ _ _ _ _ |- _ =>
      inversion Ha; subst end;
      match goal with E : trace w1 = _, E' : trace w' = _ |- _ =>
        rewrite E', Htrace2, E in Htrace end;
      rewrite <- !app_assoc in Htrace; apply app_inv_head in Htrace; subst evs;
      cbn [app In] in Hin; destruct Hin as [Hin | [Hin | Hin]]; try discriminate Hin;
      (apply in_app_or in Hin; destruct Hin as [Hin | Hin];
       [ destruct (in_loop_calls_unsupported _ _ _ _ Hloop _ _ Htrace2 Hin Hunsupported)
           as [Hret _]; discriminate Hret
       | cbn [In] in Hin;
         repeat (destruct Hin as [Hin | Hin]; try discriminate Hin); contradiction ]).
Qed.

Lemma in_loop_calls_failed payloads w o w' :
  loop_run env payloads w o w' ->
  forall evs status,
    trace w' = trace w ++ evs ->
    In (Select_proposal status) evs \/ In (Create_transforms_from_proposal status) evs ->
    is_SUCCESS status = false ->
    o = Return status.
Proof.
  induction 1 as [w | p rest w st w' Hp | p rest w w1 o w' Hp Hl IH];
    intros evs status Htrace Hin Hfailed.
  - rewrite <- (app_nil_r (trace w)) in Htrace at 1.
    apply app_inv_head in Htrace. subst evs. destruct Hin as [[] | []].
  - inversion Hp; subst;
      match goal with
      | E : trace w' = _ |- _ =>
          rewrite E in Htrace; cbn [record_call trace] in Htrace;
          rewrite app_assoc_cons in Htrace; apply app_inv_head in Htrace; subst evs
      end;
      cbn [In] in Hin;
      destruct Hin as [Hin | Hin];
      repeat (destruct Hin as [Hin | Hin]; try discriminate Hin); try contradiction;
      inversion Hin; subst; try reflexivity; discriminate Hfailed.
  - destruct (loop_run_frame _ _ _ _ Hl) as [_ _ _ _ _ _ _ _ [evs2 [Htrace2 _]]].
    assert (Hstep : exists body,
               trace w1 = trace w ++ body
               /\ forall st, In (Select_proposal st) body
                             \/ In (Create_transforms_from_proposal st) body ->
                             st = SUCCESS).
    { inversion Hp; subst;
        match goal with
        | E : trace w1 = _ |- _ =>
            rewrite E; cbn [record_call trace]; rewrite app_assoc_cons
        end;
        eexists; (split; [reflexivity | ]);
        intros q Hq; cbn [In] in Hq; destruct Hq as [Hq | Hq];
        repeat (destruct Hq as [Hq | Hq]; try discriminate Hq); try contradiction;
        inversion Hq; reflexivity. }
    destruct Hstep as [body [Htrace1 Hbody]].
    rewrite Htrace2, Htrace1 in Htrace. rewrite <- app_assoc in Htrace.
    apply app_inv_head in Htrace. subst evs.
    destruct Hin as [Hin | Hin]; apply in_app_or in Hin; destruct Hin as [Hin | Hin];
      try (rewrite (Hbody status) in Hfailed by auto; discriminate Hfailed);
      eapply IH; eauto.
Qed.

(** C10: for a reply that passes the checks of exchange type, direction and
    parsing, the first call after parsing records the reply's responder SPI
    in the session, before the iterator hands out any payload; whatever
    [process_message] returns, the session then carries that SPI.  When
    payload processing fails (unsupported payload, proposal rejected,
    transforms not created), the failure is returned and the current state
    is unchanged, but the responder SPI is the one of the failed reply. *)
Theorem responder_spi_recorded_before_payloads reply w :
  get_exchange_type reply = IKE_SA_INIT ->
  get_request reply = false ->
  parse_body env reply = SUCCESS ->
  (exists rest,
      calls env reply w
      = Parse_body SUCCESS :: Set_responder_spi (get_responder_spi reply) :: rest)
  /\ responder_spi (ike_sa_id (ike_sa (left_behind env reply w)))
     = get_responder_spi reply
  /\ (forall payload,
        In (Iterator_current payload) (calls env reply w) ->
        is_supported payload = false ->
        returned env reply w = FAILED
        /\ current_state (ike_sa (left_behind env reply w)) = current_state (ike_sa w))
  /\ (forall status,
        In (Select_proposal status) (calls env reply w)
        \/ In (Create_transforms_from_proposal status) (calls env reply w) ->
        is_SUCCESS status = false ->
        returned env reply w = status
        /\ current_state (ike_sa (left_behind env reply w)) = current_state (ike_sa w)).
Proof.
  pose proof (run_of reply w) as Hrun. pose proof (trace_of reply w) as Htrace.
  revert Hrun Htrace.
  generalize (returned env reply w) as status, (left_behind env reply w) as w',
    (calls env reply w) as evs.
  intros status w' evs Hrun Htrace Htype Hrequest Hparse.
  inversion Hrun; subst; try (rewrite Htype in *; discriminate);
    try congruence;
    try (match goal with E : is_SUCCESS _ = false |- _ =>
           rewrite Hparse in E; discriminate E end).
  - match goal with Hl : loop_run _ _ _ _ _ |- _ =>
      pose proof Hl as Hloop;
      destruct (loop_run_frame _ _ _ _ Hl) as [_ Hid _ _ _ Hstate _ _ [evs2 [Htrace2 _]]] end.
    match goal with E : trace w1 = _ |- _ => rewrite Htrace2, E in Htrace end.
    rewrite <- app_assoc in Htrace. apply app_inv_head in Htrace. subst evs.
    match goal with E : ike_sa w1 = _ |- _ => rewrite E in Hid, Hstate end.
    cbn [with_responder_spi ike_sa_id responder_spi current_state] in Hid, Hstate.
    split; [eexists; reflexivity | ].
    split; [rewrite Hid; reflexivity | ].
    split.
    + intros payload Hin Hunsupported.
      cbn [app In] in Hin. destruct Hin as [Hin | [Hin | Hin]]; try discriminate Hin.
      destruct (in_loop_calls_unsupported _ _ _ _ Hloop _ _ Htrace2 Hin Hunsupported)
        as [Hret _].
      inversion Hret; subst. auto.
    + intros st Hin Hfailed.
      assert (Hin2 : In (Select_proposal st) evs2
                     \/ In (Create_transforms_from_proposal st) evs2).
      { cbn [app In] in Hin.
        destruct Hin as [[Hin | [Hin | Hin]] | [Hin | [Hin | Hin]]];
          try discriminate Hin; auto. }
      pose proof (in_loop_calls_failed _ _ _ _ Hloop _ _ Htrace2 Hin2 Hfailed) as Hret.
      inversion Hret; subst. auto.
  - match goal with Hl : loop_run _ _ _ _ _ |- _ =>
      pose proof Hl as Hloop;
      destruct (loop_run_frame _ _ _ _ Hl) as [_ Hid _ _ _ Hstate _ _ [evs2 [Htrace2 _]]] end.
    match goal with E : ike_sa w1 = _ |- _ => rewrite E in Hid, Hstate end.
    cbn [with_responder_spi ike_sa_id responder_spi current_state] in Hid, Hstate.
    match goal with Ha : after_run _ _ _ _ _ |- _ => inversion Ha; subst end;
      match goal with E : trace w1 = _, E' : trace w' = _ |- _ =>
        rewrite E', Htrace2, E in Htrace end;
      rewrite <- !app_assoc in Htrace; apply app_inv_head in Htrace; subst evs;
      (split; [eexists; reflexivity | ]);
      (split; [ match goal with E : ike_sa w' = _ |- _ => rewrite E end;
                cbn [with_key_material with_last_requested_message with_current_state
                     ike_sa_id]; rewrite Hid; reflexivity | ]);
      (split;
       [ intros payload Hin Hunsupported;
         cbn [app In] in Hin; destruct Hin as [Hin | [Hin | Hin]]; try discriminate Hin;
         apply in_app_or in Hin; destruct Hin as [Hin | Hin];
         [ destruct (in_loop_calls_unsupported _ _ _ _ Hloop _ _ Htrace2 Hin Hunsupported)
             as [Hret _]; discriminate Hret
         | cbn [In] in Hin;
           repeat (destruct Hin as [Hin | Hin]; try discriminate Hin); contradiction ]
       | intros st Hin Hfailed;
         assert (Hin2 : In (Select_proposal st) evs2
                        \/ In (Create_transforms_from_proposal st) evs2);
         [ cbn [app In] in Hin;
           destruct Hin as [[Hin | [Hin | Hin]] | [Hin | [Hin | Hin]]];
           try discriminate Hin;
           (apply in_app_or in Hin; destruct Hin as [Hin | Hin]; auto;
            cbn [In] in Hin;
            repeat (destruct Hin as [Hin | Hin]; try discriminate Hin); contradiction)
         | pose proof (in_loop_calls_failed _ _ _ _ Hloop _ _ Htrace2 Hin2 Hfailed) as Hret;
           discriminate Hret ] ]).
Qed.

(** C5: when [set_last_requested_message] fails, [process_message] returns
    its status; the calls end with the creation of the IKE_AUTH_REQUESTED
    state, the failed call, the [destroy] of that state and the [destroy] of
    the request; [set_new_state] is never called, the current state is the
    one installed before, and neither its Diffie-Hellman object nor the state
    object itself is released. *)
Theorem set_last_requested_message_failure reply w request status :
  In (Set_last_requested_message request status) (calls env reply w) ->
  is_SUCCESS status = false ->
  returned env reply w = status
  /\ (exists before,
        calls env reply w
        = before ++ [State_create IKE_AUTH_REQUESTED;
                     Set_last_requested_message request status;
                     State_destroy IKE_AUTH_REQUESTED;
                     Message_destroy request])
  /\ count is_set_new_state (calls env reply w) = 0
  /\ count is_state_release (calls env reply w) = 0
  /\ current_state (ike_sa (left_behind env reply w)) = current_state (ike_sa w).
Proof.
  pose proof (run_of reply w) as Hrun. pose proof (trace_of reply w) as Htrace.
  revert Hrun Htrace.
  generalize (returned env reply w) as st, (left_behind env reply w) as w',
    (calls env reply w) as evs.
  intros st w' evs Hrun Htrace Hin Hfailed.
  inversion Hrun; subst.
  - rewrite <- (app_nil_r (trace w')) in Htrace at 1.
    apply app_inv_head in Htrace. subst evs. destruct Hin.
  - rewrite <- (app_nil_r (trace w')) in Htrace at 1.
    apply app_inv_head in Htrace. subst evs. destruct Hin.
  - cbn [record_call trace] in Htrace. apply app_inv_head in Htrace. subst evs.
    in_calls Hin.
  - match goal with Hl : loop_run _ _ _ _ _ |- _ =>
      destruct (loop_run_frame _ _ _ _ Hl) as [_ _ _ _ _ _ _ _ [evs2 [Htrace2 Hloop]]] end.
    match goal with E : trace w1 = _ |- _ => rewrite Htrace2, E in Htrace end.
    rewrite <- app_assoc in Htrace. apply app_inv_head in Htrace. subst evs.
    cbn [app In] in Hin. destruct Hin as [Hin | [Hin | Hin]]; try discriminate Hin.
    apply (in_loop_calls _ _ Hloop) in Hin. discriminate Hin.
  - match goal with Hl : loop_run _ _ _ _ _ |- _ =>
      destruct (loop_run_frame _ _ _ _ Hl) as [_ _ _ _ _ Hstate _ _ [evs2 [Htrace2 Hloop]]] end.
    match goal with E : ike_sa w1 = _ |- _ => rewrite E in Hstate end.
    cbn [with_responder_spi current_state] in Hstate.
    match goal with Ha : after_run _ _ _ _ _ |- _ => inversion Ha; subst end;
      match goal with E : trace w1 = _, E' : trace w' = _ |- _ =>
        rewrite E', Htrace2, E in Htrace end;
      rewrite <- !app_assoc in Htrace; apply app_inv_head in Htrace; subst evs;
      cbn [app In] in Hin; (destruct Hin as [Hin | [Hin | Hin]]; try discriminate Hin);
      (apply in_app_or in Hin; destruct Hin as [Hin | Hin];
       [ apply (in_loop_calls _ _ Hloop) in Hin; discriminate Hin | ]);
      in_calls Hin; inversion Hin; subst; try discriminate Hfailed.
    split; [reflexivity | ].
    split.
    { match goal with
      | |- exists before, ?pre ++ ?loop ++ ?tail = _ =>
          exists (pre ++ loop ++ firstn 6 tail)
      end.
      cbn [firstn]. rewrite <- !app_assoc. reflexivity. }
    split.
    { rewrite !count_app, (count_loop_calls is_set_new_state evs2); auto.
      intros []; cbn; congruence. }
    split.
    { rewrite !count_app, (count_loop_calls is_state_release evs2); auto.
      intros []; cbn; congruence. }
    match goal with E : ike_sa w' = _ |- _ => rewrite E end.
    cbn [with_key_material current_state]. exact Hstate.
Qed.

(** C3: when [generate] fails, [process_message] returns its status, the
    current state and the send queue are the ones from before, and the last
    call is the [destroy] of the reply; the request that was being built is
    never destroyed, although the sibling exit after
    [set_last_requested_message] does destroy it. *)
Theorem generate_failure_keeps_request reply w request status :
  In (Generate request status) (calls env reply w) ->
  is_SUCCESS status = false ->
  returned env reply w = status
  /\ current_state (ike_sa (left_behind env reply w)) = current_state (ike_sa w)
  /\ send_queue (left_behind env reply w) = send_queue w
  /\ (exists before,
        calls env reply w = before ++ [Generate request status; Message_destroy reply])
  /\ ~ In (Message_destroy request) (calls env reply w).
Proof.
  pose proof (run_of reply w) as Hrun. pose proof (trace_of reply w) as Htrace.
  revert Hrun Htrace.
  generalize (returned env reply w) as st, (left_behind env reply w) as w',
    (calls env reply w) as evs.
  intros st w' evs Hrun Htrace Hin Hfailed.
  inversion Hrun; subst.
  - rewrite <- (app_nil_r (trace w')) in Htrace at 1.
    apply app_inv_head in Htrace. subst evs. destruct Hin.
  - rewrite <- (app_nil_r (trace w')) in Htrace at 1.
    apply app_inv_head in Htrace. subst evs. destruct Hin.
  - cbn [record_call trace] in Htrace. apply app_inv_head in Htrace. subst evs.
    in_calls Hin.
  - match goal with Hl : loop_run _ _ _ _ _ |- _ =>
      destruct (loop_run_frame _ _ _ _ Hl) as [_ _ _ _ _ _ _ _ [evs2 [Htrace2 Hloop]]] end.
    match goal with E : trace w1 = _ |- _ => rewrite Htrace2, E in Htrace end.
    rewrite <- app_assoc in Htrace. apply app_inv_head in Htrace. subst evs.
    cbn [app In] in Hin. destruct Hin as [Hin | [Hin | Hin]]; try discriminate Hin.
    apply (in_loop_calls _ _ Hloop) in Hin. discriminate Hin.
  - match goal with Hl : loop_run _ _ _ _ _ |- _ =>
      destruct (loop_run_frame _ _ _ _ Hl) as [Hqueue _ _ _ _ Hstate _ _ [evs2 [Htrace2 Hloop]]]
    end.
    match goal with E : ike_sa w1 = _ |- _ => rewrite E in Hstate end.
    cbn [with_responder_spi current_state] in Hstate.
    match goal with Ha : after_run _ _ _ _ _ |- _ => inversion Ha; subst end;
      match goal with E : trace w1 = _, E' : trace w' = _ |- _ =>
        rewrite E', Htrace2, E in Htrace end;
      rewrite <- !app_assoc in Htrace; apply app_inv_head in Htrace; subst evs;
      cbn [app In] in Hin; (destruct Hin as [Hin | [Hin | Hin]]; try discriminate Hin);
      (apply in_app_or in Hin; destruct Hin as [Hin | Hin];
       [ apply (in_loop_calls _ _ Hloop) in Hin; discriminate Hin | ]);
      in_calls Hin; inversion Hin; subst; try discriminate Hfailed.
    split; [reflexivity | ].
    split.
    { match goal with E : ike_sa w' = _ |- _ => rewrite E end.
      cbn [with_key_material current_state]. exact Hstate. }
    split; [congruence | ].
    split.
    { match goal with
      | |- exists before, ?pre ++ ?loop ++ ?tail = _ =>
          exists (pre ++ loop ++ firstn 4 tail)
      end.
      cbn [firstn]. rewrite <- !app_assoc. reflexivity. }
    intros Hdestroyed.
    cbn [app In] in Hdestroyed.
    destruct Hdestroyed as [Hd | [Hd | Hd]]; try discriminate Hd.
    apply in_app_or in Hd. destruct Hd as [Hd | Hd];
      [ apply (in_loop_calls _ _ Hloop) in Hd; discriminate Hd | ].
    in_calls Hd. inversion Hd; subst. congruence.
Qed.

Lemma in_loop_calls_proposal_count payloads w o w' :
  loop_run env payloads w o w' ->
  forall evs p n,
    trace w' = trace w ++ evs ->
    In (Get_ike_proposals SUCCESS p n) evs ->
    n <> 1 ->
    o = Return SUCCESS
    /\ exists before,
         evs = before ++ [Get_ike_proposals SUCCESS p n; Allocator_free p;
                          Iterator_destroy].
Proof.
  induction 1 as [w | q rest w st w' Hp | q rest w w1 o w' Hp Hl IH];
    intros evs p n Htrace Hin Hcount.
  - rewrite <- (app_nil_r (trace w)) in Htrace at 1.
    apply app_inv_head in Htrace. subst evs. destruct Hin.
  - inversion Hp; subst;
      match goal with
      | E : trace w' = _ |- _ =>
          rewrite E in Htrace; cbn [record_call trace allocator_next] in Htrace;
          rewrite app_assoc_cons in Htrace; apply app_inv_head in Htrace; subst evs
      end;
      in_calls Hin; inversion Hin; subst; try discriminate; try congruence.
    split; [reflexivity | ]. exists [Iterator_current (Sa_payload SUCCESS proposals)].
    reflexivity.
  - destruct (loop_run_frame _ _ _ _ Hl) as [_ _ _ _ _ _ _ _ [evs2 [Htrace2 _]]].
    assert (Hstep : exists body,
               trace w1 = trace w ++ body
               /\ forall a m, In (Get_ike_proposals SUCCESS a m) body -> m = 1).
    { inversion Hp; subst;
        match goal with
        | E : trace w1 = _ |- _ =>
            rewrite E; cbn [record_call trace]; rewrite app_assoc_cons
        end;
        eexists; (split; [reflexivity | ]);
        intros a m Hq; in_calls Hq; inversion Hq; reflexivity. }
    destruct Hstep as [body [Htrace1 Hbody]].
    rewrite Htrace2, Htrace1 in Htrace. rewrite <- app_assoc in Htrace.
    apply app_inv_head in Htrace. subst evs.
    apply in_app_or in Hin. destruct Hin as [Hin | Hin].
    + apply Hbody in Hin. contradiction.
    + destruct (IH evs2 p n Htrace2 Hin Hcount) as [-> [before ->]].
      split; [reflexivity | ]. exists (body ++ before). now rewrite <- app_assoc.
Qed.

(** C1: when the SA payload yields a number of proposals other than one,
    [process_message] frees the proposal array, releases the payload
    iterator and leaves the current state as it was, but what it returns is
    the [SUCCESS] that [get_ike_proposals] had just stored in [status]. *)
Theorem proposal_count_mismatch_returns_SUCCESS reply w p n :
  In (Get_ike_proposals SUCCESS p n) (calls env reply w) ->
  n <> 1 ->
  returned env reply w = SUCCESS
  /\ current_state (ike_sa (left_behind env reply w)) = current_state (ike_sa w)
  /\ exists before,
       calls env reply w
       = before ++ [Get_ike_proposals SUCCESS p n; Allocator_free p; Iterator_destroy].
Proof.
  pose proof (run_of reply w) as Hrun. pose proof (trace_of reply w) as Htrace.
  revert Hrun Htrace.
  generalize (returned env reply w) as st, (left_behind env reply w) as w',
    (calls env reply w) as evs.
  intros st w' evs Hrun Htrace Hin Hcount.
  inversion Hrun; subst.
  - rewrite <- (app_nil_r (trace w')) in Htrace at 1.
    apply app_inv_head in Htrace. subst evs. destruct Hin.
  - rewrite <- (app_nil_r (trace w')) in Htrace at 1.
    apply app_inv_head in Htrace. subst evs. destruct Hin.
  - cbn [record_call trace] in Htrace. apply app_inv_head in Htrace. subst evs.
    in_calls Hin.
  - match goal with Hl : loop_run _ _ _ _ _ |- _ =>
      pose proof Hl as Hloop;
      destruct (loop_run_frame _ _ _ _ Hl) as [_ _ _ _ _ Hstate _ _ [evs2 [Htrace2 _]]] end.
    match goal with E : ike_sa w1 = _ |- _ => rewrite E in Hstate end.
    cbn [with_responder_spi current_state] in Hstate.
    match goal with E : trace w1 = _ |- _ => rewrite Htrace2, E in Htrace end.
    rewrite <- app_assoc in Htrace. apply app_inv_head in Htrace. subst evs.
    cbn [app In] in Hin. destruct Hin as [Hin | [Hin | Hin]]; try discriminate Hin.
    destruct (in_loop_calls_proposal_count _ _ _ _ Hloop _ _ _ Htrace2 Hin Hcount)
      as [Hret [before ->]].
    inversion Hret; subst.
    split; [reflexivity | ]. split; [exact Hstate | ].
    exists (Parse_body SUCCESS :: Set_responder_spi (get_responder_spi reply) :: before).
    reflexivity.
  - match goal with Hl : loop_run _ _ _ _ _ |- _ =>
      pose proof Hl as Hloop;
      destruct (loop_run_frame _ _ _ _ Hl) as [_ _ _ _ _ _ _ _ [evs2 [Htrace2 _]]] end.
    match goal with Ha : after_run _ _ _ _ _ |- _ => inversion Ha; subst end;
      match goal with E : trace w1 = _, E' : trace w' = _ |- _ =>
        rewrite E', Htrace2, E in Htrace end;
      rewrite <- !app_assoc in Htrace; apply app_inv_head in Htrace; subst evs;
      cbn [app In] in Hin; (destruct Hin as [Hin | [Hin | Hin]]; try discriminate Hin);
      (apply in_app_or in Hin; destruct Hin as [Hin | Hin];
       [ destruct (in_loop_calls_proposal_count _ _ _ _ Hloop _ _ _ Htrace2 Hin Hcount)
           as [Hret _]; discriminate Hret
       | in_calls Hin ]).
Qed.

(** C2: the status of [get_shared_secret] is stored and never tested.
    Whatever it is, the next calls are [compute_secrets] and [generate], and
    what [process_message] returns is the status of [generate] if that fails
    and the status of [set_last_requested_message] otherwise. *)
Theorem shared_secret_status_is_ignored reply w status :
  In (Get_shared_secret status) (calls env reply w) ->
  exists before shared sent received request generated rest,
    calls env reply w
    = before ++ Get_shared_secret status :: Compute_secrets shared sent received
             :: Generate request generated :: rest
    /\ (is_SUCCESS generated = false -> returned env reply w = generated)
    /\ (is_SUCCESS generated = true ->
        exists recorded,
          In (Set_last_requested_message request recorded) rest
          /\ returned env reply w = recorded).
Proof.
  pose proof (run_of reply w) as Hrun. pose proof (trace_of reply w) as Htrace.
  revert Hrun Htrace.
  generalize (returned env reply w) as st, (left_behind env reply w) as w',
    (calls env reply w) as evs.
  intros st w' evs Hrun Htrace Hin.
  inversion Hrun; subst.
  - rewrite <- (app_nil_r (trace w')) in Htrace at 1.
    apply app_inv_head in Htrace. subst evs. destruct Hin.
  - rewrite <- (app_nil_r (trace w')) in Htrace at 1.
    apply app_inv_head in Htrace. subst evs. destruct Hin.
  - cbn [record_call trace] in Htrace. apply app_inv_head in Htrace. subst evs.
    in_calls Hin.
  - match goal with Hl : loop_run _ _ _ _ _ |- _ =>
      destruct (loop_run_frame _ _ _ _ Hl) as [_ _ _ _ _ _ _ _ [evs2 [Htrace2 Hloop]]]
    end.
    match goal with E : trace w1 = _ |- _ => rewrite Htrace2, E in Htrace end.
    rewrite <- app_assoc in Htrace. apply app_inv_head in Htrace. subst evs.
    cbn [app In] in Hin. destruct Hin as [Hin | [Hin | Hin]]; try discriminate Hin.
    apply (in_loop_calls _ _ Hloop) in Hin. discriminate Hin.
  - match goal with Hl : loop_run _ _ _ _ _ |- _ =>
      destruct (loop_run_frame _ _ _ _ Hl) as [_ _ _ _ _ _ _ _ [evs2 [Htrace2 Hloop]]]
    end.
    match goal with Ha : after_run _ _ _ _ _ |- _ => inversion Ha; subst end;
      match goal with E : trace w1 = _, E' : trace w' = _ |- _ =>
        rewrite E', Htrace2, E in Htrace end;
      rewrite <- !app_assoc in Htrace; apply app_inv_head in Htrace; subst evs;
      cbn [app In] in Hin; (destruct Hin as [Hin | [Hin | Hin]]; try discriminate Hin);
      (apply in_app_or in Hin; destruct Hin as [Hin | Hin];
       [ apply (in_loop_calls _ _ Hloop) in Hin; discriminate Hin | ]);
      in_calls Hin; inversion Hin; subst;
      exists ([Parse_body SUCCESS; Set_responder_spi (get_responder_spi reply)]
              ++ evs2
              ++ [Iterator_destroy; Allocator_free (ptr (shared_secret (this w2)))]);
      do 6 eexists;
      (split; [rewrite <- !app_assoc; reflexivity | ]);
      (split; [intros Hg; try reflexivity; discriminate Hg | ]);
      intros Hg; try congruence;
      eexists; (split; [cbn [In]; right; right; left; reflexivity | reflexivity]).
Qed.

Lemma loop_run_succeeded payloads w o w' :
  loop_run env payloads w o w' ->
  forall evs,
    forallb is_expected payloads = true ->
    trace w' = trace w ++ evs ->
    forallb succeeded evs = true ->
    o = Next tt.
Proof.
  induction 1 as [w | p rest w st w' Hp | p rest w w1 o w' Hp Hl IH];
    intros evs Hexpected Htrace Hsucceeded.
  - reflexivity.
  - cbn [forallb] in Hexpected. apply andb_true_iff in Hexpected.
    destruct Hexpected as [Hexpected _].
    inversion Hp; subst;
      match goal with
      | E : trace w' = _ |- _ =>
          rewrite E in Htrace; cbn [record_call trace allocator_next] in Htrace;
          rewrite app_assoc_cons in Htrace; apply app_inv_head in Htrace; subst evs
      end;
      cbn [forallb succeeded andb] in Hsucceeded;
      try (match goal with
           | E : is_SUCCESS _ = false |- _ =>
               rewrite E in Hsucceeded; discriminate Hsucceeded
           end).
    + cbn [is_expected] in Hexpected. apply Nat.eqb_eq in Hexpected. contradiction.
    + destruct p as [? ? | ? | ? | [] ? ? | ? ? | ?]; discriminate.
  - cbn [forallb] in Hexpected. apply andb_true_iff in Hexpected.
    destruct Hexpected as [_ Hexpected].
    destruct (loop_run_frame _ _ _ _ Hl) as [_ _ _ _ _ _ _ _ [evs2 [Htrace2 _]]].
    destruct (payload_run_frame _ _ _ _ Hp) as [_ _ _ _ _ _ _ _ [evs1 [Htrace1 _]]].
    cbn [record_call trace] in Htrace1.
    rewrite Htrace2, Htrace1 in Htrace. rewrite <- !app_assoc in Htrace.
    apply app_inv_head in Htrace. subst evs.
    rewrite !forallb_app in Hsucceeded.
    apply andb_true_iff in Hsucceeded. destruct Hsucceeded as [_ Hsucceeded].
    apply andb_true_iff in Hsucceeded. destruct Hsucceeded as [_ Hsucceeded].
    eapply IH; eauto.
Qed.

(** C4: for a reply of exchange type IKE_SA_INIT that is a response and
    carries, in any order, one SA payload with one proposal, one KE payload
    and one NONCE payload, a run in which every collaborator call succeeds
    returns [SUCCESS]; the packet generated from the IKE_AUTH request is
    added to the send queue, and that is the only addition; an
    IKE_AUTH_REQUESTED state is created and installed by [set_new_state];
    the releases of the old state (its Diffie-Hellman object, its three
    chunks, the object itself) are the calls after [set_new_state], and none
    of its Diffie-Hellman object or of the object itself comes before. *)
Theorem valid_reply_changes_state reply w sa_status proposals key_exchange_data nonce :
  get_exchange_type reply = IKE_SA_INIT ->
  get_request reply = false ->
  Permutation (get_payloads reply)
    [Sa_payload sa_status proposals; Ke_payload key_exchange_data; Nonce_payload nonce] ->
  List.length proposals = 1 ->
  forallb succeeded (calls env reply w) = true ->
  returned env reply w = SUCCESS
  /\ current_state (ike_sa (left_behind env reply w)) = IKE_AUTH_REQUESTED
  /\ count is_send_queue_add (calls env reply w) = 1
  /\ exists request packet session before,
       get_exchange_type request = IKE_AUTH /\ get_request request = true
       /\ generate env request (get_crypter_initiator session)
            (get_signer_initiator session) = (SUCCESS, packet)
       /\ send_queue (left_behind env reply w) = send_queue w ++ [packet]
       /\ calls env reply w
          = before
            ++ [Generate request SUCCESS; Send_queue_add packet;
                State_create IKE_AUTH_REQUESTED;
                Set_last_requested_message request SUCCESS;
                Set_new_state IKE_AUTH_REQUESTED;
                Diffie_hellman_destroy;
                Allocator_free (ptr (sent_nonce (this (left_behind env reply w))));
                Allocator_free (ptr (received_nonce (this (left_behind env reply w))));
                Allocator_free (ptr (shared_secret (this (left_behind env reply w))));
                Allocator_free_this]
       /\ count is_set_new_state before = 0
       /\ count is_state_release before = 0.
Proof.
  pose proof (run_of reply w) as Hrun. pose proof (trace_of reply w) as Htrace.
  revert Hrun Htrace.
  generalize (returned env reply w) as st, (left_behind env reply w) as w',
    (calls env reply w) as evs.
  intros st w' evs Hrun Htrace Htype Hrequest Hperm Hcount Hsucceeded.
  assert (Hexpected : forallb is_expected (get_payloads reply) = true).
  { apply forallb_forall. intros p Hp.
    apply (Permutation_in _ Hperm) in Hp. in_calls Hp; subst p; cbn [is_expected];
      try reflexivity.
    now apply Nat.eqb_eq. }
  inversion Hrun; subst; try (rewrite Htype in *; discriminate); try congruence.
  - cbn [record_call trace] in Htrace. apply app_inv_head in Htrace. subst evs.
    cbn [forallb succeeded andb] in Hsucceeded.
    match goal with E : is_SUCCESS _ = false |- _ =>
      rewrite E in Hsucceeded; discriminate Hsucceeded end.
  - match goal with Hl : loop_run _ _ _ _ _ |- _ =>
      pose proof Hl as Hloop;
      destruct (loop_run_frame _ _ _ _ Hl) as [_ _ _ _ _ _ _ _ [evs2 [Htrace2 _]]] end.
    match goal with E : trace w1 = _ |- _ => rewrite Htrace2, E in Htrace end.
    rewrite <- app_assoc in Htrace. apply app_inv_head in Htrace. subst evs.
    cbn [app forallb succeeded is_SUCCESS andb] in Hsucceeded.
    pose proof (loop_run_succeeded _ _ _ _ Hloop _ Hexpected Htrace2 Hsucceeded) as Hret.
    discriminate Hret.
  - match goal with Hl : loop_run _ _ _ _ _ |- _ =>
      destruct (loop_run_frame _ _ _ _ Hl)
        as [Hqueue _ _ _ _ _ _ Hsent [evs2 [Htrace2 Hloop]]] end.
    match goal with Ha : after_run _ _ _ _ _ |- _ => inversion Ha; subst end;
      match goal with E : trace w1 = _, E' : trace w' = _ |- _ =>
        rewrite E', Htrace2, E in Htrace end;
      rewrite <- !app_assoc in Htrace; apply app_inv_head in Htrace; subst evs;
      cbn [app forallb succeeded andb] in Hsucceeded;
      rewrite forallb_app in Hsucceeded;
      apply andb_true_iff in Hsucceeded; destruct Hsucceeded as [_ Hsucceeded];
      cbn [app forallb succeeded andb] in Hsucceeded;
      try (match goal with
           | E : is_SUCCESS _ = false |- _ =>
               rewrite E in Hsucceeded;
               rewrite ?andb_false_r in Hsucceeded; cbn [is_SUCCESS andb] in Hsucceeded;
               rewrite ?andb_false_r in Hsucceeded; discriminate Hsucceeded
           end).
    split; [reflexivity | ].
    split.
    { match goal with E : ike_sa w' = _ |- _ => rewrite E end. reflexivity. }
    split.
    { rewrite !count_app, (count_loop_calls is_send_queue_add evs2); auto.
      intros []; cbn; congruence. }
    exists (ike_auth_request_of (ike_sa w2)), packet.
    eexists.
    exists ([Parse_body SUCCESS; Set_responder_spi (get_responder_spi reply)]
            ++ evs2
            ++ [Iterator_destroy; Allocator_free (ptr (shared_secret (this w2)));
                Get_shared_secret (fst secret);
                Compute_secrets
                  (if is_SUCCESS (fst secret)
                   then {| ptr := allocator_next w2; data := snd secret |}
                   else CHUNK_INITIALIZER)
                  (sent_nonce (this w2)) (received_nonce (this w2))]).
    split; [reflexivity | ]. split; [reflexivity | ].
    split; [eassumption | ].
    split; [congruence | ].
    split.
    { match goal with E : this w' = _ |- _ => rewrite E end.
      cbn [with_shared_secret sent_nonce received_nonce shared_secret].
      rewrite <- !app_assoc. reflexivity. }
    split.
    { rewrite !count_app, (count_loop_calls is_set_new_state evs2); auto.
      intros []; cbn; congruence. }
    { rewrite !count_app, (count_loop_calls is_state_release evs2); auto.
      intros []; cbn; congruence. }
Qed.

(** C9: in a reply with two NONCE payloads, both of which are processed,
    the call right before the second [get_nonce] frees the buffer the first
    [get_nonce] handed out; when [process_message] is over, the received
    nonce of the state object is the chunk of the second payload, and the
    buffer of the first was freed exactly once. *)
Theorem second_nonce_replaces_first reply w before n1 between n2 after :
  well_formed w ->
  get_payloads reply
  = before ++ Nonce_payload n1 :: between ++ Nonce_payload n2 :: after ->
  without_nonce before = true ->
  without_nonce between = true ->
  without_nonce after = true ->
  count is_get_nonce (calls env reply w) = 2 ->
  exists p1 p2 earlier later rest,
    calls env reply w
    = earlier ++ Get_nonce {| ptr := p1; data := n1 |}
              :: later ++ Allocator_free p1
              :: Get_nonce {| ptr := p2; data := n2 |} :: rest
    /\ received_nonce (this (left_behind env reply w)) = {| ptr := p2; data := n2 |}
    /\ count (is_free_of p1) (calls env reply w) = 1.
Proof.
  pose proof (run_of reply w) as Hrun. pose proof (trace_of reply w) as Htrace.
  revert Hrun Htrace.
  generalize (returned env reply w) as st, (left_behind env reply w) as w',
    (calls env reply w) as evs.
  intros st w' evs Hrun Htrace Hwf Hpayloads Hbefore Hbetween Hafter Hcount.
  inversion Hrun; subst.
  - rewrite <- (app_nil_r (trace w')) in Htrace at 1.
    apply app_inv_head in Htrace. subst evs. discriminate Hcount.
  - rewrite <- (app_nil_r (trace w')) in Htrace at 1.
    apply app_inv_head in Htrace. subst evs. discriminate Hcount.
  - cbn [record_call trace] in Htrace. apply app_inv_head in Htrace. subst evs.
    discriminate Hcount.
  - match goal with Hl : loop_run _ _ _ _ _ |- _ =>
      pose proof Hl as Hloop;
      destruct (loop_run_frame _ _ _ _ Hl) as [_ _ _ _ _ _ _ _ [evs2 [Htrace2 _]]] end.
    match goal with E : trace w1 = _ |- _ => rewrite Htrace2, E in Htrace end.
    rewrite <- app_assoc in Htrace. apply app_inv_head in Htrace. subst evs.
    assert (Hwf1 : well_formed w1).
    { unfold well_formed in *.
      repeat match goal with
             | E : this w1 = _ |- _ => rewrite E
             | E : allocator_next w1 = _ |- _ => rewrite E
             end. exact Hwf. }
    rewrite Hpayloads in Hloop.
    destruct (loop_run_two_nonces _ _ _ _ _ _ _ _ _ Hloop Hwf1 Hbefore Hbetween Hafter
                Htrace2 Hcount)
      as [p1 [p2 [earlier [later [rest [-> [Hreceived [Hfreed _]]]]]]]].
    exists p1, p2,
      (Parse_body SUCCESS :: Set_responder_spi (get_responder_spi reply) :: earlier),
      later, rest.
    split; [reflexivity | ]. split; [exact Hreceived | ].
    rewrite count_app. exact Hfreed.
  - match goal with Hl : loop_run _ _ _ _ _ |- _ =>
      pose proof Hl as Hloop;
      destruct (loop_run_frame _ _ _ _ Hl)
        as [_ _ _ _ _ _ Hshared Hsent [evs2 [Htrace2 _]]] end.
    assert (Hwf1 : well_formed w1).
    { unfold well_formed in *.
      repeat match goal with
             | E : this w1 = _ |- _ => rewrite E
             | E : allocator_next w1 = _ |- _ => rewrite E
             end. exact Hwf. }
    rewrite Hpayloads in Hloop.
    assert (Hcount2 : count is_get_nonce evs2 = 2).
    { match goal with Ha : after_run _ _ _ _ _ |- _ => inversion Ha; subst end;
        match goal with E : trace w1 = _, E' : trace w' = _ |- _ =>
          rewrite E', Htrace2, E in Htrace end;
        rewrite <- !app_assoc in Htrace; apply app_inv_head in Htrace; subst evs;
        rewrite !count_app in Hcount; cbn in Hcount; lia. }
    destruct (loop_run_two_nonces _ _ _ _ _ _ _ _ _ Hloop Hwf1 Hbefore Hbetween Hafter
                Htrace2 Hcount2)
      as [p1 [p2 [earlier [later [rest [Hevs2 [Hreceived [Hfreed [Hp1 [Hp12 Hp2]]]]]]]]]].
    destruct Hwf1 as [Hnull [Hshared1 [Hsent1 _]]].
    rewrite <- Hshared in Hshared1. rewrite <- Hsent in Hsent1.
    revert Hevs2.
    match goal with Ha : after_run _ _ _ _ _ |- _ => inversion Ha; subst end;
      intros Hevs2;
      match goal with E : trace w1 = _, E' : trace w' = _ |- _ =>
        rewrite E', Htrace2, E in Htrace end;
      rewrite <- !app_assoc in Htrace; apply app_inv_head in Htrace; subst evs;
      exists p1, p2,
        (Parse_body SUCCESS :: Set_responder_spi (get_responder_spi reply) :: earlier),
        later;
      eexists;
      (split;
       [ rewrite Hevs2; cbn [app]; repeat (rewrite <- app_assoc; cbn [app]);
         reflexivity | ]);
      (split;
       [ match goal with E : this w' = _ |- _ => rewrite E end;
         cbn [with_shared_secret received_nonce]; exact Hreceived | ]);
      rewrite !count_app, Hfreed;
      unfold count; cbn [app filter is_free_of List.length];
      repeat match goal with
             | |- context [N.eqb p1 ?q] =>
                 replace (N.eqb p1 q) with false
                   by (symmetry; apply N.eqb_neq;
                       try rewrite Hreceived; cbn [ptr];
                       try (destruct (is_SUCCESS (fst secret)); cbn [ptr CHUNK_INITIALIZER];
                            unfold NULL); lia)
             end;
      reflexivity.
Qed.

Lemma agree_refl_on a b :
  this a = this b -> ike_sa a = ike_sa b -> agree a b.
Proof. intros Ht Hs. unfold agree. rewrite Ht, Hs. auto. Qed.

Lemma swapped_payloads_agree before value between nonce after a oa a' b ob b' :
  loop_run env (before ++ Ke_payload value :: between ++ Nonce_payload nonce :: after)
    a oa a' ->
  loop_run env (before ++ Nonce_payload nonce :: between ++ Ke_payload value :: after)
    b ob b' ->
  without_ke_and_nonce between = true ->
  agree a b ->
  oa = ob
  /\ data (shared_secret (this a')) = data (shared_secret (this b'))
  /\ ike_sa a' = ike_sa b'
  /\ (oa = Next tt -> agree a' b').
Proof.
  intros Ha Hb Hbetween Hagree.
  apply loop_run_app in Ha. apply loop_run_app in Hb.
  destruct Ha as [[sta [-> Ha]] | [a1 [Ha1 Ha]]];
    destruct Hb as [[stb [-> Hb]] | [b1 [Hb1 Hb]]].
  - destruct (loop_run_agree _ _ _ _ Ha _ _ _ Hb Hagree)
      as [Ho [_ [Hshared [_ [_ Hsession]]]]].
    split; [exact Ho | ]. split; [exact Hshared | ]. split; [exact Hsession | ].
    discriminate.
  - destruct (loop_run_agree _ _ _ _ Ha _ _ _ Hb1 Hagree) as [Ho _]. discriminate Ho.
  - destruct (loop_run_agree _ _ _ _ Ha1 _ _ _ Hb Hagree) as [Ho _]. discriminate Ho.
  - destruct (loop_run_agree _ _ _ _ Ha1 _ _ _ Hb1 Hagree) as [_ Hagree1].
    eapply swapped_loop_agree; eauto.
Qed.

(** C8: swapping the KE payload and the NONCE payload of a reply, with no
    other KE or NONCE payload between them, changes neither what
    [process_message] returns, nor the bytes of the shared secret the state
    object holds afterwards, nor the session, whose key material
    [compute_secrets] derives: the loop stores the peer's public value in
    the Diffie-Hellman object and the nonce in [received_nonce], and the
    shared secret is computed after the loop.  The parser is assumed to
    treat both orders alike. *)
Theorem ke_nonce_order_is_irrelevant reply w before value between nonce after :
  get_payloads reply
  = before ++ Ke_payload value :: between ++ Nonce_payload nonce :: after ->
  without_ke_and_nonce between = true ->
  let swapped :=
    with_payloads reply
      (before ++ Nonce_payload nonce :: between ++ Ke_payload value :: after) in
  parse_body env swapped = parse_body env reply ->
  returned env swapped w = returned env reply w
  /\ data (shared_secret (this (left_behind env swapped w)))
     = data (shared_secret (this (left_behind env reply w)))
  /\ key_material (ike_sa (left_behind env swapped w))
     = key_material (ike_sa (left_behind env reply w))
  /\ ike_sa (left_behind env swapped w) = ike_sa (left_behind env reply w).
Proof.
  intros Hpayloads Hbetween swapped Hparse.
  pose proof (run_of reply w) as Ha. pose proof (run_of swapped w) as Hb.
  revert Ha Hb.
  generalize (returned env reply w) as sta, (left_behind env reply w) as a',
    (returned env swapped w) as stb, (left_behind env swapped w) as b'.
  intros sta a' stb b' Ha Hb.
  assert (Hgoal : sta = stb
                  /\ data (shared_secret (this a')) = data (shared_secret (this b'))
                  /\ ike_sa a' = ike_sa b').
  2:{ destruct Hgoal as [-> [-> ->]]. auto. }
  inversion Ha; subst; inversion Hb; subst;
    cbn [swapped with_payloads get_exchange_type get_request get_responder_spi
         get_payloads] in *;
    try congruence;
    try (match goal with
         | H : is_IKE_SA_INIT ?t = false, H' : ?t = IKE_SA_INIT |- _ =>
             rewrite H' in H; discriminate H
         end);
    try (match goal with
         | H : is_SUCCESS ?x = false, H' : ?x = SUCCESS |- _ =>
             rewrite H' in H; discriminate H
         end);
    try (match goal with
         | H : is_SUCCESS ?x = false, H' : ?y = SUCCESS |- _ =>
             rewrite Hparse, H' in H; discriminate H
         end);
    try (match goal with
         | H : is_SUCCESS ?x = false, H' : ?y = SUCCESS |- _ =>
             rewrite <- Hparse, H' in H; discriminate H
         end).
  - auto.
  - auto.
  - fold swapped. rewrite Hparse. auto.
  - match goal with
    | Hl : loop_run _ (get_payloads reply) ?a1 _ _,
      Hl' : loop_run _ (_ ++ _) ?b1 _ _ |- _ =>
        rewrite Hpayloads in Hl;
        assert (Hagree : agree a1 b1) by (apply agree_refl_on; congruence);
        destruct (swapped_payloads_agree _ _ _ _ _ _ _ _ _ _ _ Hl Hl' Hbetween Hagree)
          as [Ho [Hshared [Hsession _]]]
    end.
    inversion Ho; subst. auto.
  - match goal with
    | Hl : loop_run _ (get_payloads reply) ?a1 _ _,
      Hl' : loop_run _ (_ ++ _) ?b1 _ _ |- _ =>
        rewrite Hpayloads in Hl;
        assert (Hagree : agree a1 b1) by (apply agree_refl_on; congruence);
        destruct (swapped_payloads_agree _ _ _ _ _ _ _ _ _ _ _ Hl Hl' Hbetween Hagree)
          as [Ho _]
    end.
    discriminate Ho.
  - match goal with
    | Hl : loop_run _ (get_payloads reply) ?a1 _ _,
      Hl' : loop_run _ (_ ++ _) ?b1 _ _ |- _ =>
        rewrite Hpayloads in Hl;
        assert (Hagree : agree a1 b1) by (apply agree_refl_on; congruence);
        destruct (swapped_payloads_agree _ _ _ _ _ _ _ _ _ _ _ Hl Hl' Hbetween Hagree)
          as [Ho _]
    end.
    discriminate Ho.
  - match goal with
    | Hl : loop_run _ (get_payloads reply) ?a1 _ _,
      Hl' : loop_run _ (_ ++ _) ?b1 _ _ |- _ =>
        rewrite Hpayloads in Hl;
        assert (Hagree : agree a1 b1) by (apply agree_refl_on; congruence);
        destruct (swapped_payloads_agree _ _ _ _ _ _ _ _ _ _ _ Hl Hl' Hbetween Hagree)
          as [_ [_ [_ Hagree2]]]
    end.
    specialize (Hagree2 eq_refl).
    match goal with
    | Hx : after_run _ reply _ _ _, Hy : after_run _ _ _ stb _ |- _ =>
        exact (after_run_agree _ _ _ _ _ _ _ _ Hx Hy Hagree2)
    end.
Qed.

End Running.

(* ------------------------------------------------------------------------- *)
(** ** The properties on concrete replies *)

Import Fixture.

(** Membership in the calls of a concrete run. *)
Ltac called := vm_compute; repeat (first [left; reflexivity | right]).

Lemma protocol_mismatch_witness :
  (get_exchange_type request_instead_of_response <> IKE_SA_INIT
   \/ get_request request_instead_of_response = true)
  /\ process_message env request_instead_of_response w0 = (FAILED, w0)
  /\ calls env request_instead_of_response w0 = []
  /\ current_state (ike_sa (left_behind env request_instead_of_response w0))
     = current_state (ike_sa w0)
  /\ responder_spi (ike_sa_id (ike_sa (left_behind env request_instead_of_response w0)))
     = responder_spi (ike_sa_id (ike_sa w0)).
Proof.
  split; [right; reflexivity | ].
  apply (protocol_mismatch_leaves_session_unchanged env request_instead_of_response w0).
  right; reflexivity.
Defined.

Lemma unsupported_payload_witness :
  In (Iterator_current notify) (calls env (reply_with [ke; notify; nonce_a]) w0)
  /\ is_supported notify = false
  /\ returned env (reply_with [ke; notify; nonce_a]) w0 = FAILED
  /\ exists before,
       calls env (reply_with [ke; notify; nonce_a]) w0
       = before ++ [Iterator_current notify; Iterator_destroy].
Proof.
  assert (Hin : In (Iterator_current notify)
                  (calls env (reply_with [ke; notify; nonce_a]) w0)) by called.
  split; [exact Hin | ]. split; [reflexivity | ].
  exact (unsupported_payload_stops_processing env (reply_with [ke; notify; nonce_a]) w0
           notify Hin eq_refl).
Defined.

Lemma responder_spi_witness :
  get_exchange_type (reply_with [sa_rejected; ke]) = IKE_SA_INIT
  /\ get_request (reply_with [sa_rejected; ke]) = false
  /\ parse_body env (reply_with [sa_rejected; ke]) = SUCCESS
  /\ responder_spi (ike_sa_id (ike_sa (left_behind env (reply_with [sa_rejected; ke]) w0)))
     = 777%N
  /\ returned env (reply_with [sa_rejected; ke]) w0 = FAILED.
Proof.
  split; [reflexivity | ]. split; [reflexivity | ]. split; [reflexivity | ].
  destruct (responder_spi_recorded_before_payloads env (reply_with [sa_rejected; ke]) w0
              eq_refl eq_refl eq_refl) as [_ [Hspi [_ Hfailed]]].
  split; [exact Hspi | ].
  apply (Hfailed FAILED); [left; called | reflexivity].
Defined.

Lemma set_last_requested_message_witness :
  In (Set_last_requested_message ike_auth_request FAILED)
    (calls env_set_last_fails (reply_with [sa1; ke; nonce_a]) w0)
  /\ is_SUCCESS FAILED = false
  /\ returned env_set_last_fails (reply_with [sa1; ke; nonce_a]) w0 = FAILED
  /\ count is_set_new_state (calls env_set_last_fails (reply_with [sa1; ke; nonce_a]) w0) = 0
  /\ current_state (ike_sa (left_behind env_set_last_fails (reply_with [sa1; ke; nonce_a]) w0))
     = IKE_SA_INIT_REQUESTED.
Proof.
  assert (Hin : In (Set_last_requested_message ike_auth_request FAILED)
                  (calls env_set_last_fails (reply_with [sa1; ke; nonce_a]) w0))
    by called.
  split; [exact Hin | ]. split; [reflexivity | ].
  destruct (set_last_requested_message_failure env_set_last_fails
              (reply_with [sa1; ke; nonce_a]) w0 ike_auth_request FAILED Hin eq_refl)
    as [Hret [_ [Hnew [_ Hstate]]]].
  split; [exact Hret | ]. split; [exact Hnew | exact Hstate].
Defined.

Lemma generate_failure_witness :
  In (Generate ike_auth_request FAILED)
    (calls env_generate_fails (reply_with [sa1; ke; nonce_a]) w0)
  /\ is_SUCCESS FAILED = false
  /\ returned env_generate_fails (reply_with [sa1; ke; nonce_a]) w0 = FAILED
  /\ ~ In (Message_destroy ike_auth_request)
        (calls env_generate_fails (reply_with [sa1; ke; nonce_a]) w0).
Proof.
  assert (Hin : In (Generate ike_auth_request FAILED)
                  (calls env_generate_fails (reply_with [sa1; ke; nonce_a]) w0))
    by called.
  split; [exact Hin | ]. split; [reflexivity | ].
  destruct (generate_failure_keeps_request env_generate_fails
              (reply_with [sa1; ke; nonce_a]) w0 ike_auth_request FAILED Hin eq_refl)
    as [Hret [_ [_ [_ Hkept]]]].
  split; [exact Hret | exact Hkept].
Defined.

Lemma proposal_count_witness :
  In (Get_ike_proposals SUCCESS 2 2) (calls env (reply_with [sa2; ke; nonce_a]) w0)
  /\ 2 <> 1
  /\ returned env (reply_with [sa2; ke; nonce_a]) w0 = SUCCESS
  /\ current_state (ike_sa (left_behind env (reply_with [sa2; ke; nonce_a]) w0))
     = IKE_SA_INIT_REQUESTED.
Proof.
  assert (Hin : In (Get_ike_proposals SUCCESS 2 2)
                  (calls env (reply_with [sa2; ke; nonce_a]) w0)) by called.
  assert (Hcount : 2 <> 1) by discriminate.
  split; [exact Hin | ]. split; [exact Hcount | ].
  destruct (proposal_count_mismatch_returns_SUCCESS env (reply_with [sa2; ke; nonce_a]) w0
              2%N 2 Hin Hcount) as [Hret [Hstate _]].
  split; [exact Hret | exact Hstate].
Defined.

Lemma shared_secret_status_witness :
  In (Get_shared_secret FAILED) (calls env (reply_with [sa1; nonce_a]) w0)
  /\ exists before shared sent received request generated rest,
       calls env (reply_with [sa1; nonce_a]) w0
       = before ++ Get_shared_secret FAILED :: Compute_secrets shared sent received
                :: Generate request generated :: rest
       /\ (is_SUCCESS generated = false ->
           returned env (reply_with [sa1; nonce_a]) w0 = generated)
       /\ (is_SUCCESS generated = true ->
           exists recorded,
             In (Set_last_requested_message request recorded) rest
             /\ returned env (reply_with [sa1; nonce_a]) w0 = recorded).
Proof.
  assert (Hin : In (Get_shared_secret FAILED) (calls env (reply_with [sa1; nonce_a]) w0))
    by called.
  split; [exact Hin | ].
  exact (shared_secret_status_is_ignored env (reply_with [sa1; nonce_a]) w0 FAILED Hin).
Defined.

Lemma valid_reply_witness :
  get_exchange_type (reply_with [nonce_a; sa1; ke]) = IKE_SA_INIT
  /\ get_request (reply_with [nonce_a; sa1; ke]) = false
  /\ Permutation (get_payloads (reply_with [nonce_a; sa1; ke]))
       [Sa_payload SUCCESS [aes_sha1_modp1024]; Ke_payload [x01; x02; x03];
        Nonce_payload [xa1; xa2]]
  /\ List.length [aes_sha1_modp1024] = 1
  /\ forallb succeeded (calls env (reply_with [nonce_a; sa1; ke]) w0) = true
  /\ returned env (reply_with [nonce_a; sa1; ke]) w0 = SUCCESS
  /\ current_state (ike_sa (left_behind env (reply_with [nonce_a; sa1; ke]) w0))
     = IKE_AUTH_REQUESTED
  /\ count is_send_queue_add (calls env (reply_with [nonce_a; sa1; ke]) w0) = 1.
Proof.
  assert (Hperm : Permutation (get_payloads (reply_with [nonce_a; sa1; ke]))
                    [Sa_payload SUCCESS [aes_sha1_modp1024]; Ke_payload [x01; x02; x03];
                     Nonce_payload [xa1; xa2]])
    by (apply (Permutation_cons_append [sa1; ke] nonce_a)).
  assert (Hsucceeded :
            forallb succeeded (calls env (reply_with [nonce_a; sa1; ke]) w0) = true)
    by (vm_compute; reflexivity).
  split; [reflexivity | ]. split; [reflexivity | ]. split; [exact Hperm | ].
  split; [reflexivity | ]. split; [exact Hsucceeded | ].
  destruct (valid_reply_changes_state env (reply_with [nonce_a; sa1; ke]) w0 SUCCESS
              [aes_sha1_modp1024] [x01; x02; x03] [xa1; xa2]
              eq_refl eq_refl Hperm eq_refl Hsucceeded)
    as [Hret [Hstate [Hqueue _]]].
  split; [exact Hret | ]. split; [exact Hstate | exact Hqueue].
Defined.

Lemma ke_nonce_order_witness :
  get_payloads (reply_with [sa1; ke; sa1; nonce_a])
  = [sa1] ++ Ke_payload [x01; x02; x03] :: [sa1] ++ Nonce_payload [xa1; xa2] :: []
  /\ without_ke_and_nonce [sa1] = true
  /\ parse_body env
       (with_payloads (reply_with [sa1; ke; sa1; nonce_a])
          ([sa1] ++ Nonce_payload [xa1; xa2] :: [sa1] ++ Ke_payload [x01; x02; x03] :: []))
     = parse_body env (reply_with [sa1; ke; sa1; nonce_a])
  /\ returned env (reply_with [sa1; nonce_a; sa1; ke]) w0
     = returned env (reply_with [sa1; ke; sa1; nonce_a]) w0
  /\ key_material (ike_sa (left_behind env (reply_with [sa1; nonce_a; sa1; ke]) w0))
     = key_material (ike_sa (left_behind env (reply_with [sa1; ke; sa1; nonce_a]) w0)).
Proof.
  split; [reflexivity | ]. split; [reflexivity | ]. split; [reflexivity | ].
  destruct (ke_nonce_order_is_irrelevant env (reply_with [sa1; ke; sa1; nonce_a]) w0
              [sa1] [x01; x02; x03] [sa1] [xa1; xa2] [] eq_refl eq_refl eq_refl)
    as [Hret [_ [Hkeys _]]].
  split; [exact Hret | exact Hkeys].
Defined.

Lemma second_nonce_witness :
  well_formed w0
  /\ get_payloads (reply_with [nonce_a; sa1; nonce_b; ke])
     = [] ++ Nonce_payload [xa1; xa2] :: [sa1] ++ Nonce_payload [xb1; xb2; xb3] :: [ke]
  /\ without_nonce [] = true
  /\ without_nonce [sa1] = true
  /\ without_nonce [ke] = true
  /\ count is_get_nonce (calls env (reply_with [nonce_a; sa1; nonce_b; ke]) w0) = 2
  /\ exists p1 p2 earlier later rest,
       calls env (reply_with [nonce_a; sa1; nonce_b; ke]) w0
       = earlier ++ Get_nonce {| ptr := p1; data := [xa1; xa2] |}
                 :: later ++ Allocator_free p1
                 :: Get_nonce {| ptr := p2; data := [xb1; xb2; xb3] |} :: rest
       /\ received_nonce (this (left_behind env (reply_with [nonce_a; sa1; nonce_b; ke]) w0))
          = {| ptr := p2; data := [xb1; xb2; xb3] |}
       /\ count (is_free_of p1) (calls env (reply_with [nonce_a; sa1; nonce_b; ke]) w0) = 1.
Proof.
  assert (Hwf : well_formed w0) by (repeat split).
  assert (Hcount :
            count is_get_nonce (calls env (reply_with [nonce_a; sa1; nonce_b; ke]) w0) = 2)
    by (vm_compute; reflexivity).
  split; [exact Hwf | ]. split; [reflexivity | ]. split; [reflexivity | ].
  split; [reflexivity | ]. split; [reflexivity | ]. split; [exact Hcount | ].
  exact (second_nonce_replaces_first env (reply_with [nonce_a; sa1; nonce_b; ke]) w0
           [] [xa1; xa2] [sa1] [xb1; xb2; xb3] [ke]
           Hwf eq_refl eq_refl eq_refl eq_refl Hcount).
Defined.

(** *** The three exits that do not do what section 7 of the specification says *)

(** An SA payload with two proposals: [SUCCESS] is returned, and the state
    is still IKE_SA_INIT_REQUESTED. *)
Example two_proposals_run :
  returned env (reply_with [sa2; ke; nonce_a]) w0 = SUCCESS
  /\ calls env (reply_with [sa2; ke; nonce_a]) w0
     = [Parse_body SUCCESS; Set_responder_spi 777; Iterator_current sa2;
        Get_ike_proposals SUCCESS 2 2; Allocator_free 2; Iterator_destroy]
  /\ current_state (ike_sa (left_behind env (reply_with [sa2; ke; nonce_a]) w0))
     = IKE_SA_INIT_REQUESTED.
Proof. repeat split. Qed.

(** A reply without KE payload: the Diffie-Hellman object has no shared
    secret, and the state changes all the same, with keys derived from the
    empty chunk. *)
Example missing_ke_run :
  returned env (reply_with [sa1; nonce_a]) w0 = SUCCESS
  /\ In (Get_shared_secret FAILED) (calls env (reply_with [sa1; nonce_a]) w0)
  /\ In (Compute_secrets CHUNK_INITIALIZER {| ptr := 1; data := [x11; x12; x13] |}
           {| ptr := 3; data := [xa1; xa2] |})
       (calls env (reply_with [sa1; nonce_a]) w0)
  /\ current_state (ike_sa (left_behind env (reply_with [sa1; nonce_a]) w0))
     = IKE_AUTH_REQUESTED
  /\ List.length (send_queue (left_behind env (reply_with [sa1; nonce_a]) w0)) = 1.
Proof.
  split; [reflexivity | ]. split; [called | ]. split; [called | ].
  split; reflexivity.
Qed.

(** A generator that fails: the reply is destroyed, the request is not. *)
Example generate_failure_run :
  returned env_generate_fails (reply_with [sa1; ke; nonce_a]) w0 = FAILED
  /\ count (fun e => match e with Message_destroy _ => true | _ => false end)
       (calls env_generate_fails (reply_with [sa1; ke; nonce_a]) w0) = 1
  /\ In (Message_destroy (reply_with [sa1; ke; nonce_a]))
       (calls env_generate_fails (reply_with [sa1; ke; nonce_a]) w0)
  /\ send_queue (left_behind env_generate_fails (reply_with [sa1; ke; nonce_a]) w0) = [].
Proof.
  split; [reflexivity | ]. split; [reflexivity | ]. split; [called | reflexivity].
Qed.

(* ------------------------------------------------------------------------- *)
(** ** Further properties of the state *)

Section Further.

Variable env : collaborators.

Lemma loop_run_calls payloads w o w' :
  loop_run env payloads w o w' ->
  exists evs, trace w' = trace w ++ evs /\ forallb loop_event evs = true.
Proof. intros H. now destruct (loop_run_frame env _ _ _ _ H). Qed.

Lemma run_shape_of reply w :
  run_shape env reply w (returned env reply w) (left_behind env reply w)
    (calls env reply w).
Proof.
  pose proof (run_of env reply w) as Hrun. pose proof (trace_of env reply w) as Htrace.
  revert Hrun Htrace.
  generalize (returned env reply w) as st, (left_behind env reply w) as w',
    (calls env reply w) as evs.
  intros st w' evs Hrun Htrace.
  inversion Hrun; subst.
  - rewrite <- (app_nil_r (trace w')) in Htrace at 1.
    apply app_inv_head in Htrace. subst evs. apply shape_mismatch. now left.
  - rewrite <- (app_nil_r (trace w')) in Htrace at 1.
    apply app_inv_head in Htrace. subst evs. apply shape_mismatch. now right.
  - cbn [record_call trace] in Htrace. apply app_inv_head in Htrace. subst evs.
    now apply shape_parse_failed.
  - match goal with Hl : loop_run _ _ _ _ _ |- _ =>
      destruct (loop_run_calls _ _ _ _ Hl) as [evs2 [Htrace2 _]] end.
    match goal with E : trace _ = trace w ++ [_; _] |- _ =>
      pose proof Htrace2 as Htrace2'; rewrite E in Htrace2'; rewrite Htrace2' in Htrace end.
    rewrite <- app_assoc in Htrace. apply app_inv_head in Htrace. subst evs.
    eapply shape_payload_returned; eauto. unfold header_done. auto.
  - match goal with Hl : loop_run _ _ _ _ _ |- _ =>
      destruct (loop_run_calls _ _ _ _ Hl) as [evs2 [Htrace2 _]] end.
    match goal with Ha : after_run _ _ _ _ _ |- _ =>
      destruct (after_run_trace env _ _ _ _ Ha) as [evs3 Htrace3] end.
    match goal with E : trace _ = trace w ++ [_; _] |- _ =>
      pose proof Htrace3 as Htrace3'; rewrite Htrace2, E in Htrace3';
      rewrite Htrace3' in Htrace end.
    rewrite <- !app_assoc in Htrace. apply app_inv_head in Htrace. subst evs.
    eapply shape_payloads_done with (evs := evs2) (evs' := evs3); eauto.
    unfold header_done. auto.
Qed.

(** The calls of each path after the loop, and what the path leaves. *)
Lemma after_run_calls reply w status w' evs :
  after_run env reply w status w' ->
  trace w' = trace w ++ evs ->
  exists shared rest,
    evs = Iterator_destroy :: Allocator_free (ptr (shared_secret (this w)))
          :: Get_shared_secret (fst (get_shared_secret env (diffie_hellman (this w))))
          :: Compute_secrets shared (sent_nonce (this w)) (received_nonce (this w))
          :: rest
    /\ shared = (if is_SUCCESS (fst (get_shared_secret env (diffie_hellman (this w))))
                 then {| ptr := allocator_next w;
                         data := snd (get_shared_secret env (diffie_hellman (this w))) |}
                 else CHUNK_INITIALIZER)
    /\ this w' = with_shared_secret (this w) shared
    /\ ((exists generated,
            is_SUCCESS generated = false /\ status = generated
            /\ rest = [Generate (ike_auth_request_of (ike_sa w)) generated;
                       Message_destroy reply]
            /\ send_queue w' = send_queue w
            /\ current_state (ike_sa w') = current_state (ike_sa w))
        \/ (exists packet,
               is_SUCCESS status = false
               /\ rest = [Generate (ike_auth_request_of (ike_sa w)) SUCCESS;
                          Send_queue_add packet; State_create IKE_AUTH_REQUESTED;
                          Set_last_requested_message (ike_auth_request_of (ike_sa w))
                            status;
                          State_destroy IKE_AUTH_REQUESTED;
                          Message_destroy (ike_auth_request_of (ike_sa w))]
               /\ send_queue w' = send_queue w ++ [packet]
               /\ current_state (ike_sa w') = current_state (ike_sa w))
        \/ (exists packet,
               status = SUCCESS
               /\ rest = [Generate (ike_auth_request_of (ike_sa w)) SUCCESS;
                          Send_queue_add packet; State_create IKE_AUTH_REQUESTED;
                          Set_last_requested_message (ike_auth_request_of (ike_sa w))
                            SUCCESS;
                          Set_new_state IKE_AUTH_REQUESTED; Diffie_hellman_destroy;
                          Allocator_free (ptr (sent_nonce (this w)));
                          Allocator_free (ptr (received_nonce (this w)));
                          Allocator_free (ptr shared); Allocator_free_this]
               /\ send_queue w' = send_queue w ++ [packet]
               /\ current_state (ike_sa w') = IKE_AUTH_REQUESTED)).
Proof.
  intros Ha Htrace.
  inversion Ha; subst;
    match goal with
    | E : trace w' = _ |- _ =>
        tryif constr_eq E Htrace then fail
        else (rewrite E in Htrace; apply app_inv_head in Htrace; subst evs)
    end;
    do 2 eexists; (split; [reflexivity | ]); (split; [reflexivity | ]);
    (split; [assumption | ]).
  - left. eexists. repeat split; try assumption.
    match goal with E : ike_sa w' = _ |- _ => rewrite E end. reflexivity.
  - right. left. eexists. repeat split; try assumption.
    match goal with E : ike_sa w' = _ |- _ => rewrite E end. reflexivity.
  - right. right. eexists. repeat split; try assumption.
    match goal with E : ike_sa w' = _ |- _ => rewrite E end. reflexivity.
Qed.

(** Invert the turn of the loop that returns, and name its calls. *)
Ltac last_turn Hp Htrace evs :=
  inversion Hp; subst;
  match goal with
  | E : trace _ = trace (record_call _ _) ++ _ |- _ =>
      rewrite E in Htrace; cbn [record_call trace allocator_next this ike_sa] in Htrace;
      rewrite app_assoc_cons in Htrace; apply app_inv_head in Htrace; subst evs
  end.

(** Invert a turn of the loop that goes on, and name its calls; [Htrace2]
    names the calls of the turns after it. *)
Ltac next_turn Hp Htrace Htrace2 evs :=
  inversion Hp; subst;
  match goal with
  | E : trace _ = trace (record_call _ _) ++ _ |- _ =>
      rewrite Htrace2, E in Htrace;
      cbn [record_call trace allocator_next this ike_sa] in Htrace;
      rewrite app_assoc_cons, <- app_assoc in Htrace;
      apply app_inv_head in Htrace; subst evs
  end.

Lemma no_calls (w : world) (evs : list event) : trace w = trace w ++ evs -> evs = [].
Proof.
  intros H. rewrite <- (app_nil_r (trace w)) in H at 1.
  apply app_inv_head in H. now subst.
Qed.

Lemma loop_run_iterator_destroy payloads w o w' :
  loop_run env payloads w o w' ->
  forall evs,
    trace w' = trace w ++ evs ->
    count is_iterator_destroy evs = match o with Return _ => 1 | Next _ => 0 end.
Proof.
  induction 1 as [w | p rest w st w' Hp | p rest w w1 o w' Hp Hl IH]; intros evs Htrace.
  - apply no_calls in Htrace. now subst evs.
  - last_turn Hp Htrace evs; reflexivity.
  - destruct (loop_run_calls _ _ _ _ Hl) as [evs2 [Htrace2 _]].
    specialize (IH _ Htrace2).
    next_turn Hp Htrace Htrace2 evs; unfold count in *;
      cbn [app filter is_iterator_destroy]; exact IH.
Qed.

(** X1: the payload iterator is released exactly once on every path that has
    obtained it, that is, once the reply has passed the three checks, and is
    not touched otherwise. *)
Theorem iterator_released_exactly_once reply w :
  count is_iterator_destroy (calls env reply w)
  = if is_IKE_SA_INIT (get_exchange_type reply) && negb (get_request reply)
       && is_SUCCESS (parse_body env reply)
    then 1 else 0.
Proof.
  destruct (run_shape_of reply w)
    as [[Hm | Hm] | Ht Hr Hp | w1 st w' evs Ht Hr Hp Hh Hl Htr
        | w1 w2 st w' evs evs' Ht Hr Hp Hh Hl Htr Ha Htr'].
  - rewrite Hm. reflexivity.
  - rewrite Hm, andb_false_r. reflexivity.
  - rewrite Ht, Hr, Hp. reflexivity.
  - rewrite Ht, Hr, Hp. cbn [is_IKE_SA_INIT negb is_SUCCESS andb].
    pose proof (loop_run_iterator_destroy _ _ _ _ Hl _ Htr) as Hc.
    unfold count in *. cbn [filter is_iterator_destroy]. exact Hc.
  - rewrite Ht, Hr, Hp. cbn [is_IKE_SA_INIT negb is_SUCCESS andb].
    pose proof (loop_run_iterator_destroy _ _ _ _ Hl _ Htr) as Hc.
    destruct (after_run_calls _ _ _ _ _ Ha Htr')
      as [shared [rest [-> [_ [_ [[g [_ [_ [-> _]]]] | [[pk [_ [-> _]]] | [pk [_ [-> _]]]]]]]]]];
      change (Parse_body SUCCESS :: Set_responder_spi (get_responder_spi reply)
              :: evs ++ ?l)
        with ([Parse_body SUCCESS; Set_responder_spi (get_responder_spi reply)]
              ++ evs ++ l);
      rewrite !count_app, Hc; reflexivity.
Qed.

(** X2: when the parser rejects the reply, its status is what
    [process_message] returns; the parser was the only collaborator called,
    and the state object, the session (responder SPI included), the send queue
    and the allocator are as before. *)
Theorem parse_failure_is_returned reply w :
  get_exchange_type reply = IKE_SA_INIT ->
  get_request reply = false ->
  is_SUCCESS (parse_body env reply) = false ->
  returned env reply w = parse_body env reply
  /\ calls env reply w = [Parse_body (parse_body env reply)]
  /\ this (left_behind env reply w) = this w
  /\ ike_sa (left_behind env reply w) = ike_sa w
  /\ send_queue (left_behind env reply w) = send_queue w
  /\ allocator_next (left_behind env reply w) = allocator_next w.
Proof.
  intros Ht Hr Hp.
  destruct (run_shape_of reply w)
    as [[Hm | Hm] | _ _ _ | w1 st w' evs _ _ Hp' _ _ _
        | w1 w2 st w' evs evs' _ _ Hp' _ _ _ _ _].
  - rewrite Ht in Hm. discriminate Hm.
  - congruence.
  - repeat split.
  - rewrite Hp' in Hp. discriminate Hp.
  - rewrite Hp' in Hp. discriminate Hp.
Qed.

Lemma count_some f e evs : In e evs -> f e = true -> 1 <= count f evs.
Proof.
  unfold count. induction evs as [ | e' evs IH]; intros Hin He; [destruct Hin | ].
  cbn [filter]. destruct Hin as [-> | Hin].
  - rewrite He. cbn. lia.
  - specialize (IH Hin He). destruct (f e'); cbn; lia.
Qed.

Lemma count_in_loop_calls f evs :
  (forall e, loop_event e = true -> f e = false) ->
  forallb loop_event evs = true ->
  forall l l', count f (l ++ evs ++ l') = count f l + count f l'.
Proof.
  intros Hf Hevs l l'. rewrite !count_app, (count_loop_calls f evs Hf Hevs). lia.
Qed.

Ltac as_prefix reply evs :=
  change (Parse_body SUCCESS :: Set_responder_spi (get_responder_spi reply) :: evs)
    with ([Parse_body SUCCESS; Set_responder_spi (get_responder_spi reply)] ++ evs).


(** X4: the packet is enqueued before [set_last_requested_message] is called:
    when that call fails, [process_message] returns its failure status with
    the state unchanged, but the packet generated from the request is already
    on the send queue. *)
Theorem packet_enqueued_before_bookkeeping reply w request status :
  In (Set_last_requested_message request status) (calls env reply w) ->
  is_SUCCESS status = false ->
  returned env reply w = status
  /\ exists packet before after,
       send_queue (left_behind env reply w) = send_queue w ++ [packet]
       /\ calls env reply w
          = before ++ Generate request SUCCESS :: Send_queue_add packet :: after
       /\ In (Set_last_requested_message request status) after
       /\ count is_send_queue_add (calls env reply w) = 1.
Proof.
  destruct (run_shape_of reply w)
    as [[Hm | Hm] | Ht Hr Hp | w1 st w' evs Ht Hr Hp Hh Hl Htr
        | w1 w2 st w' evs evs' Ht Hr Hp Hh Hl Htr Ha Htr'];
    intros Hin Hfailed; try (in_calls Hin; fail).
  - destruct (loop_run_calls _ _ _ _ Hl) as [evs2 [Htr2 Hloop]].
    rewrite Htr in Htr2. apply app_inv_head in Htr2. subst evs2.
    in_calls Hin. apply (in_loop_calls _ _ Hloop) in Hin. discriminate Hin.
  - destruct (loop_run_frame env _ _ _ _ Hl) as [Hqueue _ _ _ _ _ _ _ [evs2 [Htr2 Hloop]]].
    rewrite Htr in Htr2. apply app_inv_head in Htr2. subst evs2.
    destruct Hh as [_ [_ [Hq _]]]. rewrite Hq in Hqueue.
    destruct (after_run_calls _ _ _ _ _ Ha Htr')
      as [shared [rest [-> [_ [_ [[g [_ [_ [-> _]]]]
                                  | [[pk [Hf [-> [Hsq _]]]] | [pk [-> [-> _]]]]]]]]]];
      in_calls Hin;
      (apply in_app_or in Hin; destruct Hin as [Hin | Hin];
       [ apply (in_loop_calls _ _ Hloop) in Hin; discriminate Hin | ]);
      in_calls Hin; inversion Hin; subst; try discriminate Hfailed.
    split; [reflexivity | ].
    exists pk. eexists (_ :: _ :: evs ++ [_; _; _; _]). eexists.
    split; [congruence | ]. split.
    { cbn [app]. rewrite <- app_assoc. reflexivity. }
    split; [right; left; reflexivity | ].
    match goal with
    | |- context [?a :: ?b :: evs ++ ?l] =>
        change (a :: b :: evs ++ l) with ([a; b] ++ evs ++ l)
    end.
    rewrite (count_in_loop_calls is_send_queue_add evs); auto.
    intros []; cbn; congruence.
Qed.

(** X5: a run that ends before [get_shared_secret] is called (rejected, or
    left from inside the payload loop) leaves the send queue, the key
    material, the last requested message, the current state, the configuration
    and the initiator SPI of the session, and the shared secret, the sent
    nonce of the state object as they were. *)
Theorem early_exit_keeps_session reply w :
  count is_get_shared_secret (calls env reply w) = 0 ->
  send_queue (left_behind env reply w) = send_queue w
  /\ key_material (ike_sa (left_behind env reply w)) = key_material (ike_sa w)
  /\ last_requested_message (ike_sa (left_behind env reply w))
     = last_requested_message (ike_sa w)
  /\ current_state (ike_sa (left_behind env reply w)) = current_state (ike_sa w)
  /\ init_config (ike_sa (left_behind env reply w)) = init_config (ike_sa w)
  /\ initiator_spi (ike_sa_id (ike_sa (left_behind env reply w)))
     = initiator_spi (ike_sa_id (ike_sa w))
  /\ shared_secret (this (left_behind env reply w)) = shared_secret (this w)
  /\ sent_nonce (this (left_behind env reply w)) = sent_nonce (this w).
Proof.
  destruct (run_shape_of reply w)
    as [[Hm | Hm] | Ht Hr Hp | w1 st w' evs Ht Hr Hp Hh Hl Htr
        | w1 w2 st w' evs evs' Ht Hr Hp Hh Hl Htr Ha Htr'];
    intros Hcount; try (repeat split; fail).
  - destruct (loop_run_frame env _ _ _ _ Hl) as [F1 F2 F3 F4 F5 F6 F7 F8 _].
    destruct Hh as [Hthis [Hs [Hq _]]].
    rewrite Hs in F2, F3, F4, F5, F6. rewrite Hthis in F7, F8. rewrite Hq in F1.
    cbn [with_responder_spi ike_sa_id init_config key_material last_requested_message
         current_state] in *.
    rewrite F2. repeat split; assumption.
  - destruct (after_run_calls _ _ _ _ _ Ha Htr') as [shared [rest [-> _]]].
    assert (Hone : 1 <= count is_get_shared_secret
                         (Parse_body SUCCESS :: Set_responder_spi (get_responder_spi reply)
                          :: evs ++ Iterator_destroy
                          :: Allocator_free (ptr (shared_secret (this w2)))
                          :: Get_shared_secret
                               (fst (get_shared_secret env (diffie_hellman (this w2))))
                          :: Compute_secrets shared (sent_nonce (this w2))
                               (received_nonce (this w2))
                          :: rest)).
    { eapply count_some with (e := Get_shared_secret _); [ | reflexivity].
      right. right. apply in_or_app. right. right. right. left. reflexivity. }
    lia.
Qed.

(** X6: whatever the reply, the message handed to [generate] is an IKE_AUTH
    request with two payloads, in this order: the initiator's ID payload of
    type ID_RFC822_ADDR, whose 14 bytes end with the zero byte of the C
    string, and the AUTH payload with method RSA_DIGITAL_SIGNATURE, whose 15
    bytes have none; the message handed to [set_last_requested_message] is the
    same one. *)
Theorem request_is_id_then_auth reply w request status :
  In (Generate request status) (calls env reply w) ->
  get_exchange_type request = IKE_AUTH
  /\ get_request request = true
  /\ map get_type (get_payloads request) = [ID_INITIATOR; AUTHENTICATION]
  /\ (exists id_data auth_data,
        get_payloads request
        = [Id_payload true ID_RFC822_ADDR id_data;
           Auth_payload RSA_DIGITAL_SIGNATURE auth_data]
        /\ List.length id_data = 14 /\ last id_data x01 = x00
        /\ List.length auth_data = 15 /\ ~ In x00 auth_data)
  /\ forall message recorded,
       In (Set_last_requested_message message recorded) (calls env reply w) ->
       message = request.
Proof.
  assert (Hrequest : forall s,
             get_exchange_type (ike_auth_request_of s) = IKE_AUTH
             /\ get_request (ike_auth_request_of s) = true
             /\ map get_type (get_payloads (ike_auth_request_of s))
                = [ID_INITIATOR; AUTHENTICATION]
             /\ (exists id_data auth_data,
                    get_payloads (ike_auth_request_of s)
                    = [Id_payload true ID_RFC822_ADDR id_data;
                       Auth_payload RSA_DIGITAL_SIGNATURE auth_data]
                    /\ List.length id_data = 14 /\ last id_data x01 = x00
                    /\ List.length auth_data = 15 /\ ~ In x00 auth_data)).
  { intros s. split; [reflexivity | ]. split; [reflexivity | ].
    split; [reflexivity | ]. do 2 eexists. split; [reflexivity | ].
    split; [reflexivity | ]. split; [reflexivity | ]. split; [reflexivity | ].
    cbv. intros H. repeat (destruct H as [H | H]; [discriminate H | ]). exact H. }
  destruct (run_shape_of reply w)
    as [[Hm | Hm] | Ht Hr Hp | w1 st w' evs Ht Hr Hp Hh Hl Htr
        | w1 w2 st w' evs evs' Ht Hr Hp Hh Hl Htr Ha Htr'];
    intros Hin; try (in_calls Hin; fail).
  - destruct (loop_run_calls _ _ _ _ Hl) as [evs2 [Htr2 Hloop]].
    rewrite Htr in Htr2. apply app_inv_head in Htr2. subst evs2.
    in_calls Hin. apply (in_loop_calls _ _ Hloop) in Hin. discriminate Hin.
  - destruct (loop_run_calls _ _ _ _ Hl) as [evs2 [Htr2 Hloop]].
    rewrite Htr in Htr2. apply app_inv_head in Htr2. subst evs2.
    assert (Hsame : request = ike_auth_request_of (ike_sa w2)
                    /\ forall message recorded,
                         In (Set_last_requested_message message recorded)
                           (Parse_body SUCCESS
                            :: Set_responder_spi (get_responder_spi reply)
                            :: evs ++ evs') ->
                         message = ike_auth_request_of (ike_sa w2)).
    { destruct (after_run_calls _ _ _ _ _ Ha Htr')
        as [shared [rest [-> [_ [_ [[g [_ [_ [-> _]]]]
                                    | [[pk [_ [-> _]]] | [pk [_ [-> _]]]]]]]]]];
        (split;
         [ in_calls Hin;
           (apply in_app_or in Hin; destruct Hin as [Hin | Hin];
            [ apply (in_loop_calls _ _ Hloop) in Hin; discriminate Hin | ]);
           in_calls Hin; inversion Hin; reflexivity
         | intros m r Hm; in_calls Hm;
           (apply in_app_or in Hm; destruct Hm as [Hm | Hm];
            [ apply (in_loop_calls _ _ Hloop) in Hm; discriminate Hm | ]);
           in_calls Hm; inversion Hm; reflexivity ]). }
    destruct Hsame as [-> Hsame].
    destruct (Hrequest (ike_sa w2)) as [H1 [H2 [H3 H4]]].
    repeat split; auto.
Qed.

Lemma payload_next_succeeded payload w w' body :
  payload_run env payload w (Next tt) w' ->
  trace w' = trace w ++ body ->
  forallb succeeded body = true.
Proof.
  intros Hp Hbody.
  inversion Hp; subst;
    match goal with
    | E : trace w' = _ |- _ =>
        tryif constr_eq E Hbody then fail
        else (rewrite E in Hbody; apply app_inv_head in Hbody; subst body)
    end; reflexivity.
Qed.

Lemma loop_run_exit payloads w status w' :
  loop_run env payloads w (Return status) w' ->
  forall evs,
    trace w' = trace w ++ evs ->
    exists before payload exit,
      evs = before ++ Iterator_current payload :: exit
      /\ In payload payloads
      /\ forallb succeeded before = true
      /\ loop_exit payload status exit.
Proof.
  intros Hrun. remember (Return status) as o eqn:Ho. revert Ho.
  induction Hrun as [w | p rest w st w' Hp | p rest w w1 o w' Hp Hl IH];
    intros Ho evs Htrace.
  - discriminate Ho.
  - inversion Ho; subst st.
    exists [], p.
    last_turn Hp Htrace evs; eexists;
      (split; [reflexivity | ]); (split; [left; reflexivity | ]);
      (split; [reflexivity | ]).
    + now apply exit_without_proposals.
    + now apply exit_proposal_count.
    + now apply exit_rejected.
    + now apply exit_without_transforms.
    + now apply exit_unsupported.
  - subst o.
    destruct (loop_run_calls _ _ _ _ Hl) as [evs2 [Htrace2 _]].
    destruct (IH eq_refl _ Htrace2) as [before [payload [exit [-> [Hin [Hbefore Hexit]]]]]].
    destruct (payload_run_frame env _ _ _ _ Hp) as [_ _ _ _ _ _ _ _ [body [Hbody _]]].
    pose proof (payload_next_succeeded _ _ _ _ Hp Hbody) as Hsucceeded.
    cbn [record_call trace] in Hbody.
    rewrite Htrace2, Hbody, app_assoc_cons, <- app_assoc in Htrace.
    apply app_inv_head in Htrace. subst evs.
    exists (Iterator_current p :: body ++ before), payload, exit.
    split; [cbn [app]; now rewrite <- app_assoc | ].
    split; [right; exact Hin | ].
    split; [ | exact Hexit].
    cbn [forallb succeeded]. rewrite forallb_app, Hsucceeded, Hbefore. reflexivity.
Qed.

(** X7: when [process_message] returns from inside the payload loop, it does
    so on the payload the iterator handed out last, in one of five ways: the
    payload is of another type; [get_ike_proposals] failed; the number of
    proposals is not one; the proposal was rejected; the transforms were not
    created. Each way ends with the release of the iterator, and frees the
    proposal array if one was handed out. Every call before that payload had
    succeeded. *)
Theorem return_from_loop reply w :
  get_exchange_type reply = IKE_SA_INIT ->
  get_request reply = false ->
  parse_body env reply = SUCCESS ->
  count is_get_shared_secret (calls env reply w) = 0 ->
  exists before payload exit,
    calls env reply w = before ++ Iterator_current payload :: exit
    /\ In payload (get_payloads reply)
    /\ forallb succeeded before = true
    /\ loop_exit payload (returned env reply w) exit.
Proof.
  destruct (run_shape_of reply w)
    as [[Hm | Hm] | Ht Hr Hp | w1 st w' evs Ht Hr Hp Hh Hl Htr
        | w1 w2 st w' evs evs' Ht Hr Hp Hh Hl Htr Ha Htr'];
    intros Htype Hrequest Hparse Hcount.
  - rewrite Htype in Hm. discriminate Hm.
  - congruence.
  - rewrite Hparse in Hp. discriminate Hp.
  - destruct (loop_run_exit _ _ _ _ Hl _ Htr)
      as [before [payload [exit [-> [Hin [Hbefore Hexit]]]]]].
    exists (Parse_body SUCCESS :: Set_responder_spi (get_responder_spi reply) :: before),
      payload, exit.
    split; [reflexivity | ]. split; [exact Hin | ]. split; [exact Hbefore | exact Hexit].
  - destruct (after_run_calls _ _ _ _ _ Ha Htr') as [shared [rest [-> _]]].
    assert (Hone : 1 <= count is_get_shared_secret
                         (Parse_body SUCCESS :: Set_responder_spi (get_responder_spi reply)
                          :: evs ++ Iterator_destroy
                          :: Allocator_free (ptr (shared_secret (this w2)))
                          :: Get_shared_secret
                               (fst (get_shared_secret env (diffie_hellman (this w2))))
                          :: Compute_secrets shared (sent_nonce (this w2))
                               (received_nonce (this w2))
                          :: rest)).
    { eapply count_some with (e := Get_shared_secret _); [ | reflexivity].
      right. right. apply in_or_app. right. right. right. left. reflexivity. }
    lia.
Qed.

Lemma loop_run_last_key_exchange payloads w o w' :
  loop_run env payloads w o w' ->
  o = Next tt ->
  other_public_value (diffie_hellman (this w'))
  = match last_key_exchange_data payloads with
    | Some value => Some value
    | None => other_public_value (diffie_hellman (this w))
    end
  /\ dh_group (diffie_hellman (this w')) = dh_group (diffie_hellman (this w)).
Proof.
  induction 1 as [w | p rest w st w' Hp | p rest w w1 o w' Hp Hl IH]; intros Ho.
  - split; reflexivity.
  - discriminate Ho.
  - destruct (IH Ho) as [Hvalue Hgroup]. rewrite Hvalue, Hgroup.
    cbn [last_key_exchange_data].
    destruct (last_key_exchange_data rest) as [value | ].
    + split; [reflexivity | ].
      inversion Hp; subst;
        match goal with E : this w1 = _ |- _ => rewrite E end; reflexivity.
    + inversion Hp; subst;
        match goal with E : this w1 = _ |- _ => rewrite E end;
        split; reflexivity.
Qed.

(** X8: when the payload loop runs to its end, the Diffie-Hellman object holds
    the key exchange data of the last KE payload of the reply, and what it
    held before if the reply has none: [get_shared_secret] is asked then all
    the same, and it is the answer of that object which is recorded. *)
Theorem last_key_exchange_wins reply w :
  count is_get_shared_secret (calls env reply w) = 1 ->
  other_public_value (diffie_hellman (this (left_behind env reply w)))
  = match last_key_exchange_data (get_payloads reply) with
    | Some value => Some value
    | None => other_public_value (diffie_hellman (this w))
    end
  /\ In (Get_shared_secret
          (fst (get_shared_secret env (diffie_hellman (this (left_behind env reply w))))))
       (calls env reply w).
Proof.
  destruct (run_shape_of reply w)
    as [[Hm | Hm] | Ht Hr Hp | w1 st w' evs Ht Hr Hp Hh Hl Htr
        | w1 w2 st w' evs evs' Ht Hr Hp Hh Hl Htr Ha Htr'];
    intros Hcount; try discriminate Hcount.
  - destruct (loop_run_calls _ _ _ _ Hl) as [evs2 [Htr2 Hloop]].
    rewrite Htr in Htr2. apply app_inv_head in Htr2. subst evs2.
    unfold count in Hcount. cbn [filter is_get_shared_secret] in Hcount.
    change (List.length (filter is_get_shared_secret evs))
      with (count is_get_shared_secret evs) in Hcount.
    rewrite (count_loop_calls is_get_shared_secret evs) in Hcount; auto;
      [discriminate Hcount | intros []; cbn; congruence].
  - destruct (loop_run_last_key_exchange _ _ _ _ Hl eq_refl) as [Hvalue _].
    destruct Hh as [Hthis _]. rewrite Hthis in Hvalue.
    destruct (after_run_calls _ _ _ _ _ Ha Htr') as [shared [rest [-> [_ [Hthis' _]]]]].
    rewrite Hthis'. cbn [with_shared_secret diffie_hellman].
    split; [exact Hvalue | ].
    right. right. apply in_or_app. right. right. right. left. reflexivity.
Qed.

Lemma loop_run_without_sa payloads w o w' :
  loop_run env payloads w o w' ->
  forallb is_ke_or_nonce payloads = true ->
  o = Next tt /\ ike_sa w' = ike_sa w
  /\ forall evs, trace w' = trace w ++ evs -> forallb succeeded evs = true.
Proof.
  induction 1 as [w | p rest w st w' Hp | p rest w w1 o w' Hp Hl IH]; intros Hall.
  - split; [reflexivity | ]. split; [reflexivity | ].
    intros evs Htrace. apply no_calls in Htrace. now subst evs.
  - cbn [forallb] in Hall. apply andb_true_iff in Hall. destruct Hall as [Hp' _].
    inversion Hp; subst; try discriminate Hp'.
    destruct p as [? ? | ? | ? | [] ? ? | ? ? | ?]; discriminate.
  - cbn [forallb] in Hall. apply andb_true_iff in Hall. destruct Hall as [Hp' Hrest].
    destruct (IH Hrest) as [-> [Hsession Hsucceeded]].
    split; [reflexivity | ].
    destruct (loop_run_calls _ _ _ _ Hl) as [evs2 [Htrace2 _]].
    specialize (Hsucceeded _ Htrace2).
    split.
    + rewrite Hsession. inversion Hp; subst; try discriminate Hp'; assumption.
    + intros evs Htrace.
      next_turn Hp Htrace Htrace2 evs; try discriminate Hp';
        cbn [app forallb succeeded andb]; exact Hsucceeded.
Qed.

(** X9: [process_message] does not ask for an SA payload: for a response of
    type IKE_SA_INIT that carries KE and NONCE payloads only (or no payload at
    all), a run in which every collaborator call succeeds returns [SUCCESS]
    and installs IKE_AUTH_REQUESTED, although no proposal was selected and the
    transforms of the session are the ones from before. *)
Theorem reply_without_sa_changes_state reply w :
  get_exchange_type reply = IKE_SA_INIT ->
  get_request reply = false ->
  forallb is_ke_or_nonce (get_payloads reply) = true ->
  forallb succeeded (calls env reply w) = true ->
  returned env reply w = SUCCESS
  /\ current_state (ike_sa (left_behind env reply w)) = IKE_AUTH_REQUESTED
  /\ transforms (ike_sa (left_behind env reply w)) = transforms (ike_sa w)
  /\ forall status, ~ In (Select_proposal status) (calls env reply w).
Proof.
  destruct (run_shape_of reply w)
    as [[Hm | Hm] | Ht Hr Hp | w1 st w' evs Ht Hr Hp Hh Hl Htr
        | w1 w2 st w' evs evs' Ht Hr Hp Hh Hl Htr Ha Htr'];
    intros Htype Hrequest Hall Hsucceeded.
  - rewrite Htype in Hm. discriminate Hm.
  - congruence.
  - cbn [forallb succeeded] in Hsucceeded. rewrite Hp in Hsucceeded.
    discriminate Hsucceeded.
  - destruct (loop_run_without_sa _ _ _ _ Hl Hall) as [Ho _]. discriminate Ho.
  - destruct (loop_run_without_sa _ _ _ _ Hl Hall) as [_ [Hsession Hloop]].
    specialize (Hloop _ Htr).
    destruct Hh as [_ [Hs _]]. rewrite Hs in Hsession.
    pose proof (proj1 (forallb_forall _ _) Hsucceeded) as Hevery.
    assert (Hnone : forall status, ~ In (Select_proposal status) evs).
    { intros status Hin.
      clear - Hl Hall Htr Hin. revert evs Htr Hin.
      induction Hl as [w | p rest w st w' Hp | p rest w w1 o w' Hp Hl IH];
        intros evs Htr Hin.
      - apply no_calls in Htr. subst evs. destruct Hin.
      - cbn [forallb] in Hall. apply andb_true_iff in Hall. destruct Hall as [Hp' _].
        last_turn Hp Htr evs; try discriminate Hp'.
        destruct p as [? ? | ? | ? | [] ? ? | ? ? | ?]; discriminate.
      - cbn [forallb] in Hall. apply andb_true_iff in Hall. destruct Hall as [Hp' Hrest].
        destruct (loop_run_calls _ _ _ _ Hl) as [evs2 [Htrace2 _]].
        next_turn Hp Htr Htrace2 evs; try discriminate Hp';
          cbn [app In] in Hin;
          repeat (destruct Hin as [Hin | Hin]; [discriminate Hin | ]);
          exact (IH Hrest _ Htrace2 Hin). }
    destruct (after_run_calls _ _ _ _ _ Ha Htr')
      as [shared [rest [-> [_ [Hthis' [[g [Hg [_ [-> _]]]]
                                       | [[pk [Hf [-> _]]] | [pk [-> [-> [_ Hstate]]]]]]]]]]].
    + assert (Hbad : succeeded (Generate (ike_auth_request_of (ike_sa w2)) g) = true)
        by (apply Hevery; right; right; apply in_or_app; right;
            cbn [In]; repeat (first [left; reflexivity | right])).
      cbn [succeeded] in Hbad. congruence.
    + assert (Hbad : succeeded (Set_last_requested_message
                                  (ike_auth_request_of (ike_sa w2)) st) = true)
        by (apply Hevery; right; right; apply in_or_app; right;
            cbn [In]; repeat (first [left; reflexivity | right])).
      cbn [succeeded] in Hbad. congruence.
    + split; [reflexivity | ]. split; [exact Hstate | ].
      split.
      * inversion Ha; subst; try discriminate;
          match goal with E : ike_sa w' = _ |- _ => rewrite E end;
          cbn [with_current_state with_last_requested_message with_key_material
               transforms];
          rewrite Hsession; reflexivity.
      * intros status Hin. in_calls Hin.
        apply in_app_or in Hin. destruct Hin as [Hin | Hin];
          [exact (Hnone _ Hin) | in_calls Hin].
Qed.

(** *** The allocator discipline *)

Lemma count_cons f e evs : count f (e :: evs) = Nat.b2n (f e) + count f evs.
Proof. unfold count. cbn [filter]. now destruct (f e). Qed.

Ltac pointers :=
  unfold pointing, allocated_since, NULL in *;
  repeat match goal with
         | |- context [N.eqb ?a ?b] => destruct (N.eqb_spec a b)
         | |- context [N.leb ?a ?b] => destruct (N.leb_spec a b)
         | |- context [N.ltb ?a ?b] => destruct (N.ltb_spec a b)
         end;
  cbn [negb andb orb Nat.b2n Nat.add]; try lia; try reflexivity; try discriminate.

Lemma allocated_since_grows w0 next next' p :
  (allocator_next w0 <= next)%N -> (next <= next')%N ->
  Nat.b2n (allocated_since w0 next' p)
  = Nat.b2n (allocated_since w0 next p) + Nat.b2n (N.leb next p && N.ltb p next').
Proof. intros. pointers. Qed.

(** The invariant is kept by calls that account for the buffers they free
    and allocate. *)
Lemma sound_step w0 next w evs next' w' body :
  sound w0 next w evs ->
  (next <= next')%N ->
  (ptr (shared_secret (this w')) < next')%N ->
  (ptr (sent_nonce (this w')) < next')%N ->
  (ptr (received_nonce (this w')) < next')%N ->
  (forall p, p <> NULL ->
     count (is_free_of p) body + held w' p
     = held w p + Nat.b2n (N.leb next p && N.ltb p next')) ->
  (forall p n, In (Get_ike_proposals SUCCESS p n) body ->
     (next <= p)%N /\ In (Allocator_free p) body) ->
  (forall c, In (Get_nonce c) body -> (next <= ptr c)%N /\ received_nonce (this w') = c) ->
  (received_nonce (this w') = received_nonce (this w)
   \/ In (Allocator_free (ptr (received_nonce (this w)))) body) ->
  sound w0 next' w' (evs ++ body).
Proof.
  intros [Hwf Hn Hsh Hse Hre Hacc Harr Hnon] Hnext Hsh' Hse' Hre' Hbody Harr' Hnon' Hrec.
  constructor; try assumption.
  - lia.
  - intros p Hp. rewrite count_app, (allocated_since_grows _ _ _ _ Hn Hnext).
    specialize (Hacc p Hp). specialize (Hbody p Hp). lia.
  - intros p n Hin. apply in_app_or in Hin. destruct Hin as [Hin | Hin].
    + destruct (Harr _ _ Hin). split; [assumption | apply in_or_app; now left].
    + destruct (Harr' _ _ Hin). split; [lia | apply in_or_app; now right].
  - intros c Hin. apply in_app_or in Hin. destruct Hin as [Hin | Hin].
    + destruct (Hnon _ Hin) as [Hc [Hfreed | Hheld]].
      * split; [assumption | left; apply in_or_app; now left].
      * split; [assumption | ]. destruct Hrec as [Hsame | Hfreed].
        -- right. congruence.
        -- left. apply in_or_app. right. subst c. exact Hfreed.
    + destruct (Hnon' _ Hin). split; [lia | now right].
Qed.

Lemma sound_at_start w : well_formed w -> sound w (allocator_next w) w [].
Proof.
  intros Hwf. pose proof Hwf as [H0 [Hs [Hn Hr]]].
  constructor; try assumption; try lia.
  - intros p Hp. unfold count. cbn [filter List.length]. pointers.
  - intros p n [].
  - intros c [].
Qed.

(** Rewrite with what a path says about the world it leaves. *)
Ltac left_world :=
  unfold held;
  repeat match goal with
         | E : this ?w' = _ |- context [this ?w'] => rewrite E
         | E : allocator_next ?w' = _ |- context [allocator_next ?w'] => rewrite E
         end;
  cbn [this allocator_next record_call shared_secret sent_nonce received_nonce
       with_diffie_hellman with_shared_secret with_received_nonce ptr data
       CHUNK_INITIALIZER];
  unfold NULL in *.

(** The side conditions of [sound_step] for an explicit list of calls. *)
Ltac accounting :=
  let p := fresh "p" in
  let n := fresh "n" in
  let Hp := fresh "Hp" in
  let Hin := fresh "Hin" in
  first
    [ lia
    | solve [left; reflexivity | right; cbn [In]; auto 6]
    | solve [intros p Hp; rewrite ?count_cons; unfold count;
             cbn [filter List.length is_free_of Nat.b2n Nat.add]; pointers]
    | solve [intros p n Hin; lazymatch type of Hin with In _ _ => idtac end;
             cbn [In] in Hin;
             repeat (destruct Hin as [Hin | Hin]; try discriminate Hin);
             try contradiction;
             injection Hin; intros; subst;
             try match goal with H : is_SUCCESS SUCCESS = false |- _ => discriminate H end;
             (split; [lia | cbn [In]; auto 6])]
    | solve [intros p Hin; lazymatch type of Hin with In _ _ => idtac end;
             cbn [In] in Hin;
             repeat (destruct Hin as [Hin | Hin]; try discriminate Hin);
             try contradiction;
             injection Hin; intros; subst; (split; [cbn [ptr]; lia | reflexivity])] ].

Lemma payload_run_sound payload w o w' :
  payload_run env payload w o w' ->
  forall w0 evs body,
    trace w' = trace w ++ body ->
    sound w0 (allocator_next w) w evs ->
    sound w0 (allocator_next w') w' (evs ++ body).
Proof.
  intros Hp w0 evs body Htrace Hs.
  inversion Hp; subst;
    match goal with
    | E : trace w' = _ |- _ =>
        tryif constr_eq E Htrace then fail
        else (rewrite E in Htrace; apply app_inv_head in Htrace; subst body)
    end;
    apply (sound_step _ _ _ _ _ _ _ Hs);
    destruct Hs as [[Hpos _] Hn Hsh Hse Hre Hacc Harr Hnon];
    left_world; accounting.
Qed.

Lemma payload_run_calls payload w o w' :
  payload_run env payload w o w' -> exists body, trace w' = trace w ++ body.
Proof.
  intros H. destruct (payload_run_frame env _ _ _ _ H) as [_ _ _ _ _ _ _ _ [b [Hb _]]].
  now exists b.
Qed.

Lemma sound_iterator_current payload w0 next w evs :
  sound w0 next w evs ->
  sound w0 next (record_call (Iterator_current payload) w)
    (evs ++ [Iterator_current payload]).
Proof.
  intros Hs. apply (sound_step _ _ _ _ _ _ _ Hs);
    destruct Hs as [[Hpos _] Hn Hsh Hse Hre Hacc Harr Hnon]; left_world; accounting.
Qed.

Lemma loop_run_sound payloads w o w' :
  loop_run env payloads w o w' ->
  forall w0 evs body,
    trace w' = trace w ++ body ->
    sound w0 (allocator_next w) w evs ->
    sound w0 (allocator_next w') w' (evs ++ body).
Proof.
  induction 1 as [w | p rest w st w' Hp | p rest w w1 o w' Hp Hl IH];
    intros w0 evs body Htrace Hs.
  - apply no_calls in Htrace. subst body. now rewrite app_nil_r.
  - destruct (payload_run_calls _ _ _ _ Hp) as [b Hb].
    pose proof Hb as Hb'. rewrite Htrace in Hb'. cbn [record_call trace] in Hb'.
    rewrite <- app_assoc in Hb'. apply app_inv_head in Hb'. subst body.
    rewrite app_assoc.
    apply (payload_run_sound _ _ _ _ Hp _ _ _ Hb).
    now apply sound_iterator_current.
  - destruct (payload_run_calls _ _ _ _ Hp) as [b Hb].
    destruct (loop_run_calls _ _ _ _ Hl) as [b2 [Hb2 _]].
    pose proof Hb2 as Hb'. rewrite Htrace, Hb in Hb'. cbn [record_call trace] in Hb'.
    rewrite <- !app_assoc in Hb'. apply app_inv_head in Hb'. subst body.
    rewrite !app_assoc.
    apply (IH _ _ _ Hb2).
    apply (payload_run_sound _ _ _ _ Hp _ _ _ Hb).
    now apply sound_iterator_current.
Qed.

Lemma header_sound reply w w1 :
  well_formed w ->
  header_done reply w w1 ->
  sound w (allocator_next w1) w1
    [Parse_body SUCCESS; Set_responder_spi (get_responder_spi reply)].
Proof.
  intros Hwf [Hthis [_ [_ Hnext]]].
  pose proof (sound_at_start w Hwf) as Hs.
  apply (sound_step _ _ _ _ _ _ _ Hs);
    destruct Hs as [_ Hn Hsh Hse Hre Hacc Harr Hnon]; left_world; accounting.
Qed.

(** *** The allocator advances by the buffers handed out *)

Lemma payload_run_allocator payload w o w' :
  payload_run env payload w o w' ->
  forall body,
    trace w' = trace w ++ body ->
    allocator_next w' = (allocator_next w + N.of_nat (count is_handed_out body))%N.
Proof.
  intros Hp body Htrace.
  inversion Hp; subst;
    match goal with
    | E : trace w' = _ |- _ =>
        tryif constr_eq E Htrace then fail
        else (rewrite E in Htrace; apply app_inv_head in Htrace; subst body)
    end;
    match goal with E : allocator_next w' = _ |- _ => rewrite E end;
    rewrite ?count_cons; unfold count; cbn [filter List.length is_handed_out];
    repeat match goal with E : is_SUCCESS _ = false |- _ => rewrite E end;
    cbn [is_SUCCESS Nat.b2n Nat.add N.of_nat]; lia.
Qed.

Lemma loop_run_allocator payloads w o w' :
  loop_run env payloads w o w' ->
  forall body,
    trace w' = trace w ++ body ->
    allocator_next w' = (allocator_next w + N.of_nat (count is_handed_out body))%N.
Proof.
  induction 1 as [w | p rest w st w' Hp | p rest w w1 o w' Hp Hl IH]; intros body Htrace.
  - apply no_calls in Htrace. subst body. cbn. lia.
  - destruct (payload_run_calls _ _ _ _ Hp) as [b Hb].
    rewrite (payload_run_allocator _ _ _ _ Hp _ Hb).
    rewrite Htrace in Hb. cbn [record_call trace allocator_next] in *.
    rewrite <- app_assoc in Hb. apply app_inv_head in Hb. subst body.
    cbn [app]. rewrite count_cons. cbn [is_handed_out Nat.b2n Nat.add]. reflexivity.
  - destruct (payload_run_calls _ _ _ _ Hp) as [b Hb].
    destruct (loop_run_calls _ _ _ _ Hl) as [b2 [Hb2 _]].
    rewrite (IH _ Hb2), (payload_run_allocator _ _ _ _ Hp _ Hb).
    rewrite Htrace, Hb in Hb2. cbn [record_call trace allocator_next] in *.
    rewrite <- !app_assoc in Hb2. apply app_inv_head in Hb2. subst body.
    cbn [app]. rewrite count_cons, count_app. cbn [is_handed_out Nat.b2n Nat.add]. lia.
Qed.

Lemma after_payloads_allocator reply w o w' :
  after_payloads env reply w = (o, w') ->
  allocator_next w'
  = if is_SUCCESS (fst (get_shared_secret env (diffie_hellman (this w))))
    then N.succ (allocator_next w) else allocator_next w.
Proof.
  destruct (get_shared_secret env (diffie_hellman (this w))) as [st secret] eqn:Hsecret.
  pose (shared := if is_SUCCESS st
                  then {| ptr := allocator_next w; data := secret |}
                  else CHUNK_INITIALIZER).
  pose (session := with_key_material (ike_sa w)
                     (derive_keys env (data shared) (data (sent_nonce (this w)))
                        (data (received_nonce (this w))))).
  pose (request := ike_auth_request_of (ike_sa w)).
  destruct (generate env request (get_crypter_initiator session)
              (get_signer_initiator session)) as [gst packet] eqn:Hgenerate.
  destruct (set_last_requested_message env session request) as [ | | code] eqn:Hlast;
    destruct gst as [ | | gcode]; destruct st as [ | | scode];
    subst shared session request;
    cbv [get_crypter_initiator get_signer_initiator with_key_material
         ike_auth_request_of] in Hgenerate, Hlast;
    fields; cbn [transforms key_material data fst snd is_SUCCESS] in Hgenerate, Hlast;
    unfold after_payloads; run;
    cbv [get_crypter_initiator get_signer_initiator with_key_material];
    cbn [transforms key_material data ike_sa_id fst snd is_SUCCESS]; run;
    intros H; inversion H; subst; clear H; reflexivity.
Qed.

Lemma process_message_allocator reply w status w' :
  process_message env reply w = (status, w') ->
  forall evs,
    trace w' = trace w ++ evs ->
    allocator_next w' = (allocator_next w + N.of_nat (count is_handed_out evs))%N.
Proof.
  unfold process_message, process_message_body.
  destruct (is_IKE_SA_INIT (get_exchange_type reply)) eqn:Htype; cbn [negb].
  2:{ unfold return_. intros H evs Htr; inversion H; subst.
      apply no_calls in Htr. subst evs. cbn. lia. }
  destruct (get_request reply) eqn:Hrequest.
  { unfold return_. intros H evs Htr; inversion H; subst.
    apply no_calls in Htr. subst evs. cbn. lia. }
  destruct (is_SUCCESS (parse_body env reply)) eqn:Hparse.
  2:{ run. intros H evs Htr; inversion H; subst.
      cbn [trace allocator_next] in *. apply app_inv_head in Htr. subst evs.
      cbn. lia. }
  run.
  match goal with
  | |- context [iterate env _ ?w1] =>
      remember w1 as w1' eqn:Hw1;
      destruct (iterate env (get_payloads reply) w1') as [[st | []] w2] eqn:Hloop
  end; apply iterate_run in Hloop;
    destruct (loop_run_calls _ _ _ _ Hloop) as [b [Hb _]];
    pose proof (loop_run_allocator _ _ _ _ Hloop _ Hb) as Hnext.
  - intros H evs Htr; inversion H; subst status w'.
    subst w1'. cbn [trace allocator_next] in *.
    rewrite Htr, <- !app_assoc in Hb. apply app_inv_head in Hb. subst evs.
    cbn [app]. rewrite !count_cons. cbn [is_handed_out Nat.b2n Nat.add]. exact Hnext.
  - destruct (after_payloads env reply w2) as [o w3] eqn:Hafter.
    pose proof (after_payloads_allocator _ _ _ _ Hafter) as Hnext'.
    apply after_payloads_run in Hafter. destruct Hafter as [st [-> Hafter]].
    intros H evs Htr; inversion H; subst status w'.
    destruct (after_run_trace env _ _ _ _ Hafter) as [b' Hb'].
    destruct (after_run_calls _ _ _ _ _ Hafter Hb')
      as [shared [rest [Hcalls [_ [_ Hrest]]]]].
    assert (Hcount : count is_handed_out b'
                     = Nat.b2n (is_SUCCESS
                                  (fst (get_shared_secret env (diffie_hellman (this w2)))))).
    { rewrite Hcalls.
      destruct Hrest as [[g [_ [_ [-> _]]]] | [[pk [_ [-> _]]] | [pk [_ [-> _]]]]];
        rewrite !count_cons; cbn [is_handed_out Nat.b2n Nat.add];
        unfold count; cbn; lia. }
    subst w1'. cbn [trace allocator_next] in *.
    rewrite Hb', Hb, <- !app_assoc in Htr. apply app_inv_head in Htr. subst evs.
    cbn [app]. rewrite !count_cons, count_app, Hcount, Hnext', Hnext.
    cbn [is_handed_out Nat.b2n Nat.add].
    destruct (is_SUCCESS (fst (get_shared_secret env (diffie_hellman (this w2)))));
      cbn [Nat.b2n]; lia.
Qed.

(** The allocator has advanced by the number of buffers the collaborators
    handed out. *)
Lemma allocator_of reply w :
  allocator_next (left_behind env reply w)
  = (allocator_next w + N.of_nat (count is_handed_out (calls env reply w)))%N.
Proof.
  apply (process_message_allocator reply w (returned env reply w)).
  - unfold returned, left_behind. now destruct (process_message env reply w).
  - apply trace_of.
Qed.

Lemma after_run_handed_out reply w status w' body :
  after_run env reply w status w' ->
  trace w' = trace w ++ body ->
  count is_handed_out body
  = Nat.b2n (is_SUCCESS (fst (get_shared_secret env (diffie_hellman (this w))))).
Proof.
  intros Ha Htrace.
  destruct (after_run_calls _ _ _ _ _ Ha Htrace)
    as [shared [rest [-> [_ [_ [[g [_ [_ [-> _]]]] | [[pk [_ [-> _]]] | [pk [_ [-> _]]]]]]]]]];
    rewrite !count_cons; cbn [is_handed_out Nat.b2n Nat.add]; unfold count; cbn; lia.
Qed.

(** After the loop: the invariant holds once more when the state object
    stays, and held until the state object was released otherwise. *)
Lemma after_run_sound reply w status w' body :
  after_run env reply w status w' ->
  trace w' = trace w ++ body ->
  forall w0 evs,
    sound w0 (allocator_next w) w evs ->
    let next := (allocator_next w + N.of_nat (count is_handed_out body))%N in
    (count is_set_new_state body = 0 /\ sound w0 next w' (evs ++ body))
    \/ (count is_set_new_state body = 1
        /\ exists pre, body = pre ++ release_calls (this w')
                       /\ sound w0 next w' (evs ++ pre)).
Proof.
  intros Ha Htrace w0 evs Hs. rewrite (after_run_handed_out _ _ _ _ _ Ha Htrace).
  destruct (after_run_calls _ _ _ _ _ Ha Htrace)
    as [shared [rest [-> [Hshared [Hthis
         [[g [Hg [_ [-> _]]]] | [[pk [Hf [-> _]]] | [pk [-> [-> [_ Hstate]]]]]]]]]]];
    destruct (is_SUCCESS (fst (get_shared_secret env (diffie_hellman (this w)))));
    subst shared; cbn [Nat.b2n N.of_nat]; cbv zeta.
  - left. split; [reflexivity | ].
    apply (sound_step _ _ _ _ _ _ _ Hs);
      destruct Hs as [[Hpos _] Hn Hsh Hse Hre Hacc Harr Hnon]; left_world; accounting.
  - left. split; [reflexivity | ].
    apply (sound_step _ _ _ _ _ _ _ Hs);
      destruct Hs as [[Hpos _] Hn Hsh Hse Hre Hacc Harr Hnon]; left_world; accounting.
  - left. split; [reflexivity | ].
    apply (sound_step _ _ _ _ _ _ _ Hs);
      destruct Hs as [[Hpos _] Hn Hsh Hse Hre Hacc Harr Hnon]; left_world; accounting.
  - left. split; [reflexivity | ].
    apply (sound_step _ _ _ _ _ _ _ Hs);
      destruct Hs as [[Hpos _] Hn Hsh Hse Hre Hacc Harr Hnon]; left_world; accounting.
  - right. split; [reflexivity | ].
    eexists. split.
    + unfold release_calls. rewrite Hthis.
      cbn [with_shared_secret shared_secret sent_nonce received_nonce ptr].
      instantiate (1 := [_; _; _; _; _; _; _; _; _]). reflexivity.
    + apply (sound_step _ _ _ _ _ _ _ Hs);
        destruct Hs as [[Hpos _] Hn Hsh Hse Hre Hacc Harr Hnon]; left_world; accounting.
  - right. split; [reflexivity | ].
    eexists. split.
    + unfold release_calls. rewrite Hthis.
      cbn [with_shared_secret shared_secret sent_nonce received_nonce ptr].
      instantiate (1 := [_; _; _; _; _; _; _; _; _]). reflexivity.
    + apply (sound_step _ _ _ _ _ _ _ Hs);
        destruct Hs as [[Hpos _] Hn Hsh Hse Hre Hacc Harr Hnon]; left_world; accounting.
Qed.

Lemma loop_calls_keep_state evs :
  forallb loop_event evs = true -> count is_set_new_state evs = 0.
Proof.
  intros H. apply (count_loop_calls is_set_new_state evs); [ | exact H].
  intros []; cbn; congruence.
Qed.

(** The invariant over a whole run of [process_message]. *)
Lemma process_message_sound reply w :
  well_formed w ->
  let next := allocator_next (left_behind env reply w) in
  (count is_set_new_state (calls env reply w) = 0
   /\ sound w next (left_behind env reply w) (calls env reply w))
  \/ (count is_set_new_state (calls env reply w) = 1
      /\ exists pre,
           calls env reply w = pre ++ release_calls (this (left_behind env reply w))
           /\ sound w next (left_behind env reply w) pre).
Proof.
  intros Hwf. cbv zeta. rewrite allocator_of.
  destruct (run_shape_of reply w)
    as [[Hm | Hm] | Ht Hr Hp | w1 st w' evs Ht Hr Hp Hh Hl Htr
        | w1 w2 st w' evs evs' Ht Hr Hp Hh Hl Htr Ha Htr'].
  - left. split; [reflexivity | ]. cbn. rewrite N.add_0_r. now apply sound_at_start.
  - left. split; [reflexivity | ]. cbn. rewrite N.add_0_r. now apply sound_at_start.
  - left. split; [reflexivity | ]. cbn. rewrite N.add_0_r.
    pose proof (sound_at_start w Hwf) as Hs.
    apply (sound_step _ _ _ _ _ _ _ Hs);
      destruct Hs as [[Hpos _] Hn Hsh Hse Hre Hacc Harr Hnon]; left_world; accounting.
  - destruct (loop_run_calls _ _ _ _ Hl) as [evs2 [Htr2 Hloop]].
    rewrite Htr in Htr2. apply app_inv_head in Htr2. subst evs2.
    pose proof (loop_run_allocator _ _ _ _ Hl _ Htr) as Hnext.
    destruct Hh as [Hthis [Hsession [Hqueue Hsame]]]. rewrite Hsame in Hnext.
    rewrite !count_cons. cbn [is_handed_out Nat.b2n Nat.add]. rewrite <- Hnext.
    left. as_prefix reply evs. split.
    + rewrite (loop_calls_keep_state _ Hloop). reflexivity.
    + apply (loop_run_sound _ _ _ _ Hl _ _ _ Htr). apply header_sound; [assumption | ].
      unfold header_done. auto.
  - destruct (loop_run_calls _ _ _ _ Hl) as [evs2 [Htr2 Hloop]].
    rewrite Htr in Htr2. apply app_inv_head in Htr2. subst evs2.
    pose proof (loop_run_sound _ _ _ _ Hl _ _ _ Htr (header_sound reply w w1 Hwf Hh))
      as Hs.
    pose proof (loop_run_allocator _ _ _ _ Hl _ Htr) as Hnext.
    destruct Hh as [Hthis [Hsession [Hqueue Hsame]]]. rewrite Hsame in Hnext.
    rewrite !count_cons, !count_app. cbn [is_handed_out Nat.b2n Nat.add].
    rewrite Nat2N.inj_add, N.add_assoc, <- Hnext.
    destruct (after_run_sound _ _ _ _ _ Ha Htr' _ _ Hs)
      as [[Hc Hs'] | [Hc [pre [Hpre Hs']]]];
      as_prefix reply (evs ++ evs').
    + left. split.
      * rewrite (loop_calls_keep_state _ Hloop), Hc. reflexivity.
      * rewrite <- app_assoc in Hs'. exact Hs'.
    + right. split.
      * rewrite (loop_calls_keep_state _ Hloop), Hc. reflexivity.
      * exists (([Parse_body SUCCESS; Set_responder_spi (get_responder_spi reply)] ++ evs)
                ++ pre).
        split; [ | exact Hs']. rewrite Hpre, <- !app_assoc. reflexivity.
Qed.

(** *** What the invariant says about a run *)

Lemma held_unshared w p : unshared w -> p <> NULL -> held w p <= 1.
Proof. intros [H1 [H2 H3]] Hp. unfold held. pointers. Qed.

Lemma unshared_of_held w : (forall p, p <> NULL -> held w p <= 1) -> unshared w.
Proof.
  intros H. unfold unshared, held in *.
  pose proof (H (ptr (shared_secret (this w)))) as Hshared.
  pose proof (H (ptr (sent_nonce (this w)))) as Hsent.
  clear H. revert Hshared Hsent. pointers.
Qed.

Lemma held_holds w p : p <> NULL -> unshared w -> held w p = Nat.b2n (holds w p).
Proof. intros Hp [H1 [H2 H3]]. unfold held, holds. pointers. Qed.

Lemma held_fresh w p : well_formed w -> (allocator_next w <= p)%N -> held w p = 0.
Proof. intros [_ [Hs [Hn Hr]]] Hp. unfold held. pointers. Qed.

Lemma holds_not_NULL w p : holds w p = true -> p <> NULL.
Proof. unfold holds. pointers. Qed.

(** A buffer is held by at most one chunk or was allocated since, not both. *)
Lemma owned_once w next p :
  well_formed w -> unshared w -> p <> NULL ->
  held w p + Nat.b2n (allocated_since w next p)
  = Nat.b2n (holds w p || allocated_since w next p).
Proof.
  intros Hwf Hun Hp. rewrite (held_holds w p Hp Hun).
  destruct (allocated_since w next p) eqn:Ha.
  - apply andb_prop in Ha. destruct Ha as [Ha _]. apply N.leb_le in Ha.
    pose proof (held_fresh w p Hwf Ha) as Hfresh.
    rewrite (held_holds w p Hp Hun) in Hfresh.
    destruct (holds w p); [discriminate Hfresh | reflexivity].
  - destruct (holds w p); reflexivity.
Qed.

Lemma count_release t p :
  count (is_free_of p) (release_calls t)
  = pointing (ptr (shared_secret t)) (ptr (sent_nonce t)) (ptr (received_nonce t)) p.
Proof.
  unfold release_calls, pointing. rewrite !count_cons. unfold count.
  cbn [filter List.length is_free_of Nat.b2n]. lia.
Qed.

Lemma destroy_calls_release w : destroy_calls w = release_calls (this w).
Proof.
  unfold destroy_calls, destroy. run. rewrite !app_assoc_cons. apply skipn_app_length.
Qed.

(** The frees of a buffer and the chunks that still point to it, over a
    whole run. *)
Lemma run_accounted reply w p :
  well_formed w -> p <> NULL ->
  count (is_free_of p) (calls env reply w)
  + (if Nat.eqb (count is_set_new_state (calls env reply w)) 0
     then held (left_behind env reply w) p else 0)
  = held w p
    + Nat.b2n (allocated_since w (allocator_next (left_behind env reply w)) p).
Proof.
  intros Hwf Hp.
  destruct (process_message_sound reply w Hwf) as [[Hc Hs] | [Hc [pre [Hpre Hs]]]];
    rewrite Hc; cbn [Nat.eqb].
  - exact (sound_accounted Hs Hp).
  - rewrite Hpre, count_app, count_release, Nat.add_0_r.
    exact (sound_accounted Hs Hp).
Qed.

Lemma run_arrays reply w p n :
  well_formed w ->
  In (Get_ike_proposals SUCCESS p n) (calls env reply w) ->
  (allocator_next w <= p)%N /\ In (Allocator_free p) (calls env reply w).
Proof.
  intros Hwf Hin.
  destruct (process_message_sound reply w Hwf) as [[_ Hs] | [_ [pre [Hpre Hs]]]];
    destruct Hs as [_ _ _ _ _ _ Harr _].
  - exact (Harr _ _ Hin).
  - rewrite Hpre in *. apply in_app_or in Hin. destruct Hin as [Hin | Hin].
    + destruct (Harr _ _ Hin) as [Hle Hfree]. split; [exact Hle | ].
      apply in_or_app. now left.
    + unfold release_calls in Hin. in_calls Hin.
Qed.

(** X10: over one run of [process_message], started with a state object whose
    chunks lie below the allocator and share no buffer, no buffer is freed
    twice, and a buffer that is freed was held by the state object at the
    start or was allocated during the run. *)
Theorem no_buffer_is_freed_twice reply w p :
  well_formed w -> unshared w -> p <> NULL ->
  count (is_free_of p) (calls env reply w) <= 1
  /\ (In (Allocator_free p) (calls env reply w) ->
      holds w p = true
      \/ (allocator_next w <= p < allocator_next (left_behind env reply w))%N).
Proof.
  intros Hwf Hun Hp.
  pose proof (run_accounted reply w p Hwf Hp) as Hacc.
  rewrite (owned_once w _ p Hwf Hun Hp) in Hacc.
  split.
  - destruct (holds w p || allocated_since w _ p); cbn [Nat.b2n] in Hacc; lia.
  - intros Hin. apply (count_some (is_free_of p)) in Hin; [ | cbn; apply N.eqb_refl].
    destruct (holds w p); [now left | right]. cbn [orb] in Hacc.
    destruct (allocated_since w _ p) eqn:Ha; [ | cbn [Nat.b2n] in Hacc; lia].
    apply andb_prop in Ha. destruct Ha as [Hle Hlt].
    apply N.leb_le in Hle. apply N.ltb_lt in Hlt. now split.
Qed.

(** X11: for a state object whose chunks lie below the allocator, every
    proposal array [get_ike_proposals] hands out is freed exactly once before
    [process_message] returns, on every path. *)
Theorem proposal_array_is_freed_once reply w p n :
  well_formed w ->
  In (Get_ike_proposals SUCCESS p n) (calls env reply w) ->
  count (is_free_of p) (calls env reply w) = 1.
Proof.
  intros Hwf Hin. destruct (run_arrays reply w p n Hwf Hin) as [Hle Hfree].
  assert (Hp : p <> NULL) by (destruct Hwf as [Hpos _]; unfold NULL; lia).
  pose proof (run_accounted reply w p Hwf Hp) as Hacc.
  rewrite (held_fresh w p Hwf Hle) in Hacc.
  apply (count_some (is_free_of p)) in Hfree; [ | cbn; apply N.eqb_refl].
  destruct (allocated_since w _ p); cbn [Nat.b2n] in Hacc; lia.
Qed.

(** X12: for a state object whose chunks lie below the allocator and share no
    buffer: when [process_message] changes the state, the buffers freed are
    exactly those the state object held at the start and those allocated
    during the run, each once: nothing is leaked and nothing is freed twice. *)
Theorem state_change_releases_every_buffer reply w p :
  well_formed w -> unshared w -> p <> NULL ->
  In (Set_new_state IKE_AUTH_REQUESTED) (calls env reply w) ->
  count (is_free_of p) (calls env reply w)
  = Nat.b2n (holds w p
             || allocated_since w (allocator_next (left_behind env reply w)) p).
Proof.
  intros Hwf Hun Hp Hin.
  pose proof (run_accounted reply w p Hwf Hp) as Hacc.
  rewrite (owned_once w _ p Hwf Hun Hp) in Hacc.
  apply (count_some is_set_new_state) in Hin; [ | reflexivity].
  revert Hacc. destruct (count is_set_new_state (calls env reply w)); [lia | ].
  cbn [Nat.eqb]. lia.
Qed.

(** X13: for a state object whose chunks lie below the allocator and share no
    buffer: when [process_message] leaves the state installed, the state
    object is again one whose chunks lie below the allocator and share no
    buffer, and no buffer it holds was freed: it can process another message
    or be destroyed. *)
Theorem kept_state_is_well_formed reply w :
  well_formed w -> unshared w ->
  count is_set_new_state (calls env reply w) = 0 ->
  well_formed (left_behind env reply w)
  /\ unshared (left_behind env reply w)
  /\ forall p, holds (left_behind env reply w) p = true ->
               count (is_free_of p) (calls env reply w) = 0.
Proof.
  intros Hwf Hun Hc.
  destruct (process_message_sound reply w Hwf) as [[_ Hs] | [Hc' _]]; [ | congruence].
  assert (Hone : forall p, p <> NULL ->
                   count (is_free_of p) (calls env reply w)
                   + held (left_behind env reply w) p <= 1).
  { intros p Hp. rewrite (sound_accounted Hs Hp), (owned_once w _ p Hwf Hun Hp).
    destruct (holds w p || allocated_since w _ p); cbn [Nat.b2n]; lia. }
  assert (Hun' : unshared (left_behind env reply w)).
  { apply unshared_of_held. intros p Hp. specialize (Hone p Hp). lia. }
  split; [ | split].
  - destruct Hs as [[Hpos _] Hn Hsh Hse Hre _ _ _].
    unfold well_formed. repeat split; try assumption. lia.
  - exact Hun'.
  - intros p Hheld. pose proof (holds_not_NULL _ _ Hheld) as Hp.
    specialize (Hone p Hp). rewrite (held_holds _ p Hp Hun'), Hheld in Hone.
    cbn [Nat.b2n] in Hone. lia.
Qed.

(** X14: for a state object whose chunks lie below the allocator and share no
    buffer: when [process_message] leaves the state installed and [destroy] is
    called next, the buffers freed by the two together are exactly those the
    state object held at the start and those allocated during the run, each
    once. *)
Theorem destroy_after_kept_state_releases_every_buffer reply w p :
  well_formed w -> unshared w -> p <> NULL ->
  count is_set_new_state (calls env reply w) = 0 ->
  count (is_free_of p)
    (calls env reply w ++ destroy_calls (left_behind env reply w))
  = Nat.b2n (holds w p
             || allocated_since w (allocator_next (left_behind env reply w)) p).
Proof.
  intros Hwf Hun Hp Hc.
  pose proof (run_accounted reply w p Hwf Hp) as Hacc.
  rewrite (owned_once w _ p Hwf Hun Hp), Hc in Hacc. cbn [Nat.eqb] in Hacc.
  rewrite count_app, destroy_calls_release, count_release. exact Hacc.
Qed.

Lemma created_state_holds_sent_nonce dh_group dh nonce w :
  this w = ike_sa_init_requested_create dh_group dh nonce ->
  (ptr nonce < allocator_next w)%N ->
  well_formed w /\ unshared w
  /\ forall p, p <> NULL -> holds w p = N.eqb p (ptr nonce).
Proof.
  intros Hthis Hnonce. unfold well_formed, unshared, holds. rewrite Hthis.
  cbn [ike_sa_init_requested_create shared_secret sent_nonce received_nonce
       CHUNK_INITIALIZER ptr].
  unfold NULL. repeat split; try lia; try congruence.
  intros p Hp. destruct (N.eqb_spec p 0); [contradiction | ].
  destruct (N.eqb p (ptr nonce)); reflexivity.
Qed.

(** X15: over the life of a state object made by
    [ike_sa_init_requested_create] and given one message, up to its release by
    [destroy_after_state_change] when the state changes and by [destroy]
    otherwise, the buffers freed are exactly the sent nonce handed to the
    constructor and the buffers allocated during the run, each once. *)
Theorem created_state_frees_every_buffer_once dh_group dh nonce reply w p :
  this w = ike_sa_init_requested_create dh_group dh nonce ->
  (ptr nonce < allocator_next w)%N ->
  p <> NULL ->
  count (is_free_of p)
    (calls env reply w
     ++ (if Nat.eqb (count is_set_new_state (calls env reply w)) 0
         then destroy_calls (left_behind env reply w) else []))
  = Nat.b2n (N.eqb p (ptr nonce)
             || allocated_since w (allocator_next (left_behind env reply w)) p).
Proof.
  intros Hthis Hnonce Hp.
  destruct (created_state_holds_sent_nonce _ _ _ _ Hthis Hnonce) as [Hwf [Hun Hheld]].
  pose proof (run_accounted reply w p Hwf Hp) as Hacc.
  rewrite (owned_once w _ p Hwf Hun Hp), (Hheld p Hp) in Hacc.
  rewrite count_app, <- Hacc.
  destruct (Nat.eqb (count is_set_new_state (calls env reply w)) 0).
  - rewrite destroy_calls_release, count_release. reflexivity.
  - reflexivity.
Qed.

(** *** Which messages are destroyed *)

(** X16: [process_message] destroys a message only on the two failures after
    the payload loop, and then returns the failing status without changing the
    state: the reply when [generate] fails, the request when
    [set_last_requested_message] fails. In particular the reply is left to the
    caller on every other path. *)
Theorem message_destroyed_only_on_failure reply w message :
  In (Message_destroy message) (calls env reply w) ->
  is_SUCCESS (returned env reply w) = false
  /\ count is_set_new_state (calls env reply w) = 0
  /\ ((message = reply
       /\ exists request, In (Generate request (returned env reply w)) (calls env reply w))
      \/ In (Set_last_requested_message message (returned env reply w))
           (calls env reply w)).
Proof.
  destruct (run_shape_of reply w)
    as [[Hm | Hm] | Ht Hr Hp | w1 st w' evs Ht Hr Hp Hh Hl Htr
        | w1 w2 st w' evs evs' Ht Hr Hp Hh Hl Htr Ha Htr']; intros Hin.
  - destruct Hin.
  - destruct Hin.
  - in_calls Hin.
  - destruct (loop_run_calls _ _ _ _ Hl) as [evs2 [Htr2 Hloop]].
    rewrite Htr in Htr2. apply app_inv_head in Htr2. subst evs2.
    destruct Hin as [Hin | [Hin | Hin]]; try discriminate Hin.
    apply (in_loop_calls _ _ Hloop) in Hin. discriminate Hin.
  - destruct (loop_run_calls _ _ _ _ Hl) as [evs2 [Htr2 Hloop]].
    rewrite Htr in Htr2. apply app_inv_head in Htr2. subst evs2.
    destruct Hin as [Hin | [Hin | Hin]]; try discriminate Hin.
    apply in_app_or in Hin. destruct Hin as [Hin | Hin].
    { apply (in_loop_calls _ _ Hloop) in Hin. discriminate Hin. }
    rewrite !count_cons, count_app, (loop_calls_keep_state _ Hloop).
    destruct (after_run_calls _ _ _ _ _ Ha Htr')
      as [shared [rest [-> [_ [_ [[g [Hg [-> [-> _]]]] | [[pk [Hf [-> _]]]
                                                          | [pk [-> [-> _]]]]]]]]]];
      in_calls Hin; injection Hin as <-;
      (split; [assumption | ]); (split; [reflexivity | ]).
    + left. split; [reflexivity | ]. eexists. right. right. apply in_or_app. right.
      cbn [In]. auto 8.
    + right. right. right. apply in_or_app. right. cbn [In]. auto 12.
Qed.

End Further.

(* ------------------------------------------------------------------------- *)
(** ** The further properties on concrete replies *)

Import Replies.

Lemma parse_failure_witness :
  get_exchange_type valid_reply = IKE_SA_INIT
  /\ get_request valid_reply = false
  /\ is_SUCCESS (parse_body env_parse_fails valid_reply) = false
  /\ (returned env_parse_fails valid_reply w0 = parse_body env_parse_fails valid_reply
     /\ calls env_parse_fails valid_reply w0 = [Parse_body (parse_body env_parse_fails valid_reply)]
     /\ this (left_behind env_parse_fails valid_reply w0) = this w0
     /\ ike_sa (left_behind env_parse_fails valid_reply w0) = ike_sa w0
     /\ send_queue (left_behind env_parse_fails valid_reply w0) = send_queue w0
     /\ allocator_next (left_behind env_parse_fails valid_reply w0) = allocator_next w0).
Proof.
  assert (H1 : get_exchange_type valid_reply = IKE_SA_INIT)
    by (reflexivity).
  assert (H2 : get_request valid_reply = false)
    by (reflexivity).
  assert (H3 : is_SUCCESS (parse_body env_parse_fails valid_reply) = false)
    by (reflexivity).
  split; [exact H1 | ].
  split; [exact H2 | ].
  split; [exact H3 | ].
  exact (parse_failure_is_returned env_parse_fails valid_reply w0
           H1 H2 H3).
Defined.

Lemma packet_enqueued_witness :
  In (Set_last_requested_message ike_auth_request FAILED) (calls env_set_last_fails valid_reply w0)
  /\ is_SUCCESS FAILED = false
  /\ (returned env_set_last_fails valid_reply w0 = FAILED
     /\ exists packet before after,
          send_queue (left_behind env_set_last_fails valid_reply w0) = send_queue w0 ++ [packet]
          /\ calls env_set_last_fails valid_reply w0
             = before ++ Generate ike_auth_request SUCCESS :: Send_queue_add packet :: after
          /\ In (Set_last_requested_message ike_auth_request FAILED) after
          /\ count is_send_queue_add (calls env_set_last_fails valid_reply w0) = 1).
Proof.
  assert (H1 : In (Set_last_requested_message ike_auth_request FAILED)
                 (calls env_set_last_fails valid_reply w0))
    by (called).
  assert (H2 : is_SUCCESS FAILED = false)
    by (reflexivity).
  split; [exact H1 | ].
  split; [exact H2 | ].
  exact (packet_enqueued_before_bookkeeping env_set_last_fails valid_reply w0
           ike_auth_request FAILED
           H1 H2).
Defined.

Lemma early_exit_witness :
  count is_get_shared_secret (calls env notify_reply w0) = 0
  /\ (send_queue (left_behind env notify_reply w0) = send_queue w0
     /\ key_material (ike_sa (left_behind env notify_reply w0)) = key_material (ike_sa w0)
     /\ last_requested_message (ike_sa (left_behind env notify_reply w0))
        = last_requested_message (ike_sa w0)
     /\ current_state (ike_sa (left_behind env notify_reply w0)) = current_state (ike_sa w0)
     /\ init_config (ike_sa (left_behind env notify_reply w0)) = init_config (ike_sa w0)
     /\ initiator_spi (ike_sa_id (ike_sa (left_behind env notify_reply w0)))
        = initiator_spi (ike_sa_id (ike_sa w0))
     /\ shared_secret (this (left_behind env notify_reply w0)) = shared_secret (this w0)
     /\ sent_nonce (this (left_behind env notify_reply w0)) = sent_nonce (this w0)).
Proof.
  assert (H1 : count is_get_shared_secret (calls env notify_reply w0) = 0)
    by (vm_compute; reflexivity).
  split; [exact H1 | ].
  exact (early_exit_keeps_session env notify_reply w0
           H1).
Defined.

Lemma request_is_id_then_auth_witness :
  In (Generate ike_auth_request SUCCESS) (calls env valid_reply w0)
  /\ (get_exchange_type ike_auth_request = IKE_AUTH
     /\ get_request ike_auth_request = true
     /\ map get_type (get_payloads ike_auth_request) = [ID_INITIATOR; AUTHENTICATION]
     /\ (exists id_data auth_data,
           get_payloads ike_auth_request
           = [Id_payload true ID_RFC822_ADDR id_data;
              Auth_payload RSA_DIGITAL_SIGNATURE auth_data]
           /\ List.length id_data = 14 /\ last id_data x01 = x00
           /\ List.length auth_data = 15 /\ ~ In x00 auth_data)
     /\ forall message recorded,
          In (Set_last_requested_message message recorded) (calls env valid_reply w0) ->
          message = ike_auth_request).
Proof.
  assert (H1 : In (Generate ike_auth_request SUCCESS) (calls env valid_reply w0))
    by (called).
  split; [exact H1 | ].
  exact (request_is_id_then_auth env valid_reply w0 ike_auth_request SUCCESS
           H1).
Defined.

Lemma return_from_loop_witness :
  get_exchange_type rejected_reply = IKE_SA_INIT
  /\ get_request rejected_reply = false
  /\ parse_body env rejected_reply = SUCCESS
  /\ count is_get_shared_secret (calls env rejected_reply w0) = 0
  /\ (exists before payload exit,
       calls env rejected_reply w0 = before ++ Iterator_current payload :: exit
       /\ In payload (get_payloads rejected_reply)
       /\ forallb succeeded before = true
       /\ loop_exit payload (returned env rejected_reply w0) exit).
Proof.
  assert (H1 : get_exchange_type rejected_reply = IKE_SA_INIT)
    by (reflexivity).
  assert (H2 : get_request rejected_reply = false)
    by (reflexivity).
  assert (H3 : parse_body env rejected_reply = SUCCESS)
    by (reflexivity).
  assert (H4 : count is_get_shared_secret (calls env rejected_reply w0) = 0)
    by (vm_compute; reflexivity).
  split; [exact H1 | ].
  split; [exact H2 | ].
  split; [exact H3 | ].
  split; [exact H4 | ].
  exact (return_from_loop env rejected_reply w0
           H1 H2 H3 H4).
Defined.

Lemma last_key_exchange_witness :
  count is_get_shared_secret (calls env two_ke_reply w0) = 1
  /\ (other_public_value (diffie_hellman (this (left_behind env two_ke_reply w0)))
     = match last_key_exchange_data (get_payloads two_ke_reply) with
       | Some value => Some value
       | None => other_public_value (diffie_hellman (this w0))
       end
     /\ In (Get_shared_secret
             (fst (get_shared_secret env
                     (diffie_hellman (this (left_behind env two_ke_reply w0))))))
          (calls env two_ke_reply w0)).
Proof.
  assert (H1 : count is_get_shared_secret (calls env two_ke_reply w0) = 1)
    by (vm_compute; reflexivity).
  split; [exact H1 | ].
  exact (last_key_exchange_wins env two_ke_reply w0
           H1).
Defined.

Lemma reply_without_sa_witness :
  get_exchange_type bare_reply = IKE_SA_INIT
  /\ get_request bare_reply = false
  /\ forallb is_ke_or_nonce (get_payloads bare_reply) = true
  /\ forallb succeeded (calls env bare_reply w0) = true
  /\ (returned env bare_reply w0 = SUCCESS
     /\ current_state (ike_sa (left_behind env bare_reply w0)) = IKE_AUTH_REQUESTED
     /\ transforms (ike_sa (left_behind env bare_reply w0)) = transforms (ike_sa w0)
     /\ forall status, ~ In (Select_proposal status) (calls env bare_reply w0)).
Proof.
  assert (H1 : get_exchange_type bare_reply = IKE_SA_INIT)
    by (reflexivity).
  assert (H2 : get_request bare_reply = false)
    by (reflexivity).
  assert (H3 : forallb is_ke_or_nonce (get_payloads bare_reply) = true)
    by (reflexivity).
  assert (H4 : forallb succeeded (calls env bare_reply w0) = true)
    by (vm_compute; reflexivity).
  split; [exact H1 | ].
  split; [exact H2 | ].
  split; [exact H3 | ].
  split; [exact H4 | ].
  exact (reply_without_sa_changes_state env bare_reply w0
           H1 H2 H3 H4).
Defined.

Lemma no_buffer_is_freed_twice_witness :
  well_formed w0
  /\ unshared w0
  /\ 2%N <> NULL
  /\ (count (is_free_of 2%N) (calls env two_nonce_reply w0) <= 1
     /\ (In (Allocator_free 2%N) (calls env two_nonce_reply w0) ->
         holds w0 2%N = true
         \/ (allocator_next w0 <= 2%N < allocator_next (left_behind env two_nonce_reply w0))%N)).
Proof.
  assert (H1 : well_formed w0)
    by (vm_compute; repeat split).
  assert (H2 : unshared w0)
    by (vm_compute; repeat split; intros H; first [reflexivity | exact H]).
  assert (H3 : 2%N <> NULL)
    by (discriminate).
  split; [exact H1 | ].
  split; [exact H2 | ].
  split; [exact H3 | ].
  exact (no_buffer_is_freed_twice env two_nonce_reply w0 2%N
           H1 H2 H3).
Defined.

Lemma proposal_array_witness :
  well_formed w0
  /\ In (Get_ike_proposals SUCCESS 3%N 2) (calls env two_proposal_reply w0)
  /\ (count (is_free_of 3%N) (calls env two_proposal_reply w0) = 1).
Proof.
  assert (H1 : well_formed w0)
    by (vm_compute; repeat split).
  assert (H2 : In (Get_ike_proposals SUCCESS 3%N 2) (calls env two_proposal_reply w0))
    by (called).
  split; [exact H1 | ].
  split; [exact H2 | ].
  exact (proposal_array_is_freed_once env two_proposal_reply w0 3%N 2
           H1 H2).
Defined.

Lemma state_change_releases_witness :
  well_formed w0
  /\ unshared w0
  /\ 1%N <> NULL
  /\ In (Set_new_state IKE_AUTH_REQUESTED) (calls env valid_reply w0)
  /\ (count (is_free_of 1%N) (calls env valid_reply w0)
     = Nat.b2n (holds w0 1%N
                || allocated_since w0 (allocator_next (left_behind env valid_reply w0)) 1%N)).
Proof.
  assert (H1 : well_formed w0)
    by (vm_compute; repeat split).
  assert (H2 : unshared w0)
    by (vm_compute; repeat split; intros H; first [reflexivity | exact H]).
  assert (H3 : 1%N <> NULL)
    by (discriminate).
  assert (H4 : In (Set_new_state IKE_AUTH_REQUESTED) (calls env valid_reply w0))
    by (called).
  split; [exact H1 | ].
  split; [exact H2 | ].
  split; [exact H3 | ].
  split; [exact H4 | ].
  exact (state_change_releases_every_buffer env valid_reply w0 1%N
           H1 H2 H3 H4).
Defined.

Lemma kept_state_witness :
  well_formed w0
  /\ unshared w0
  /\ count is_set_new_state (calls env_generate_fails valid_reply w0) = 0
  /\ (well_formed (left_behind env_generate_fails valid_reply w0)
     /\ unshared (left_behind env_generate_fails valid_reply w0)
     /\ forall p, holds (left_behind env_generate_fails valid_reply w0) p = true ->
                  count (is_free_of p) (calls env_generate_fails valid_reply w0) = 0).
Proof.
  assert (H1 : well_formed w0)
    by (vm_compute; repeat split).
  assert (H2 : unshared w0)
    by (vm_compute; repeat split; intros H; first [reflexivity | exact H]).
  assert (H3 : count is_set_new_state (calls env_generate_fails valid_reply w0) = 0)
    by (vm_compute; reflexivity).
  split; [exact H1 | ].
  split; [exact H2 | ].
  split; [exact H3 | ].
  exact (kept_state_is_well_formed env_generate_fails valid_reply w0
           H1 H2 H3).
Defined.

Lemma destroy_after_kept_state_witness :
  well_formed w0
  /\ unshared w0
  /\ 4%N <> NULL
  /\ count is_set_new_state (calls env_generate_fails valid_reply w0) = 0
  /\ (count (is_free_of 4%N)
       (calls env_generate_fails valid_reply w0
        ++ destroy_calls (left_behind env_generate_fails valid_reply w0))
     = Nat.b2n (holds w0 4%N
                || allocated_since w0
                     (allocator_next (left_behind env_generate_fails valid_reply w0)) 4%N)).
Proof.
  assert (H1 : well_formed w0)
    by (vm_compute; repeat split).
  assert (H2 : unshared w0)
    by (vm_compute; repeat split; intros H; first [reflexivity | exact H]).
  assert (H3 : 4%N <> NULL)
    by (discriminate).
  assert (H4 : count is_set_new_state (calls env_generate_fails valid_reply w0) = 0)
    by (vm_compute; reflexivity).
  split; [exact H1 | ].
  split; [exact H2 | ].
  split; [exact H3 | ].
  split; [exact H4 | ].
  exact (destroy_after_kept_state_releases_every_buffer env_generate_fails valid_reply w0 4%N
           H1 H2 H3 H4).
Defined.

Lemma created_state_witness :
  this w0 = ike_sa_init_requested_create 1%N (diffie_hellman (this w0)) (sent_nonce (this w0))
  /\ (ptr (sent_nonce (this w0)) < allocator_next w0)%N
  /\ 1%N <> NULL
  /\ (count (is_free_of 1%N)
       (calls env short_reply w0
        ++ (if Nat.eqb (count is_set_new_state (calls env short_reply w0)) 0
            then destroy_calls (left_behind env short_reply w0) else []))
     = Nat.b2n (N.eqb 1%N (ptr (sent_nonce (this w0)))
                || allocated_since w0 (allocator_next (left_behind env short_reply w0)) 1%N)).
Proof.
  assert (H1 : this w0 = ike_sa_init_requested_create 1%N (diffie_hellman (this w0))
                           (sent_nonce (this w0)))
    by (reflexivity).
  assert (H2 : (ptr (sent_nonce (this w0)) < allocator_next w0)%N)
    by (reflexivity).
  assert (H3 : 1%N <> NULL)
    by (discriminate).
  split; [exact H1 | ].
  split; [exact H2 | ].
  split; [exact H3 | ].
  exact (created_state_frees_every_buffer_once env 1%N (diffie_hellman (this w0))
           (sent_nonce (this w0)) short_reply w0 1%N
           H1 H2 H3).
Defined.

Lemma message_destroyed_witness :
  In (Message_destroy valid_reply) (calls env_generate_fails valid_reply w0)
  /\ (is_SUCCESS (returned env_generate_fails valid_reply w0) = false
     /\ count is_set_new_state (calls env_generate_fails valid_reply w0) = 0
     /\ ((valid_reply = valid_reply
          /\ exists request,
               In (Generate request (returned env_generate_fails valid_reply w0))
                 (calls env_generate_fails valid_reply w0))
         \/ In (Set_last_requested_message valid_reply (returned env_generate_fails valid_reply w0))
              (calls env_generate_fails valid_reply w0))).
Proof.
  assert (H1 : In (Message_destroy valid_reply) (calls env_generate_fails valid_reply w0))
    by (called).
  split; [exact H1 | ].
  exact (message_destroyed_only_on_failure env_generate_fails valid_reply w0 valid_reply
           H1).
Defined.
